(** * pi-pico-mpu6050-light: a shallow embedding of [src/main.cpp]

    The sketch runs two loops on the two cores of an RP2040.  Core 0 samples
    an MPU-6050 accelerometer over I2C (or synthesises a tilt when the probe
    at boot fails) and publishes it in the shared [g_tilt_x]; core 1
    integrates a damped, reflecting particle, rasterises a glow on a strip of
    [NUM_LEDS] pixels and prints an ASCII bar on the serial console.

    Arithmetic is modelled bit for bit: a C++ [float] is an IEEE-754 binary32
    value and a [double] a binary64 value, both carried by [spec_float] of
    the standard library with the operations of [SpecFloat] (round to nearest,
    ties to even).  The usual arithmetic conversions of C++ are written out:
    an unsuffixed literal such as [0.98] is a [double], so [water_vel *= 0.98]
    widens, multiplies in binary64 and rounds back to binary32. *)

From Stdlib Require Import ZArith QArith Qpower Bool List Lia Lqa String Ascii.
From Stdlib Require Import Floats.SpecFloat.
Import ListNotations.

Local Open Scope Z_scope.

(* ================================================================== *)
(** * IEEE-754 values and operations *)
(* ================================================================== *)

Module IEEE.

(** A binary interchange format: [prec] bits of significand (the implicit
    one included) and [emax], the exponent of the infinities. *)
Record format := Format { prec : Z; emax : Z }.

Definition binary32 : format := Format 24 128.
Definition binary64 : format := Format 53 1024.

Definition fadd (f : format) := SFadd (prec f) (emax f).
Definition fsub (f : format) := SFsub (prec f) (emax f).
Definition fmul (f : format) := SFmul (prec f) (emax f).
Definition fdiv (f : format) := SFdiv (prec f) (emax f).

(** Rounding of a value of any format into format [f] (a C++ conversion
    between [float] and [double]; widening is exact). *)
Definition fround (f : format) (x : spec_float) : spec_float :=
  match x with
  | S754_finite s m e => binary_round (prec f) (emax f) s m e
  | _ => x
  end.

(** Conversion of an integer to format [f]. *)
Definition of_Z (f : format) (n : Z) : spec_float :=
  binary_normalize (prec f) (emax f) n 0 false.

Definition valid (f : format) (x : spec_float) : bool :=
  valid_binary (prec f) (emax f) x.

Definition is_nan (x : spec_float) : bool :=
  match x with S754_nan => true | _ => false end.

Definition is_finite (x : spec_float) : bool :=
  match x with S754_zero _ | S754_finite _ _ _ => true | _ => false end.

(** The C++ relational operators; every one is false on a NaN. *)
Definition flt (x y : spec_float) : bool := SFltb x y.
Definition fle (x y : spec_float) : bool := SFleb x y.
Definition fgt (x y : spec_float) : bool := SFltb y x.
Definition fge (x y : spec_float) : bool := SFleb y x.

(** The rational number a finite value stands for (0 for the others). *)
Definition pow2 (e : Z) : Q := Qpower 2 e.

Definition B2Q (x : spec_float) : Q :=
  match x with
  | S754_finite s m e =>
      (if s then - inject_Z (Zpos m) else inject_Z (Zpos m)) * pow2 e
  | _ => 0
  end%Q.

(** Round to nearest, ties to even, of [m / 2^n] for [0 <= m]: what one
    pass of [shr] followed by [round_nearest_even] computes. *)
Definition rne_div (m n : Z) : Z :=
  let q := m / 2 ^ n in
  let r := m mod 2 ^ n in
  if r =? 0 then q
  else match 2 * r ?= 2 ^ n with
       | Lt => q
       | Eq => if Z.even q then q else q + 1
       | Gt => q + 1
       end.

(** Location of a remainder [r] in a cell of [2^n] units. *)
Definition loc_of_rem (r n : Z) : location :=
  if r =? 0 then loc_Exact else loc_Inexact (2 * r ?= 2 ^ n).

(** Number of binary digits of a positive integer. *)
Definition digits (m : positive) : Z := Zpos (digits2_pos m).

(** A significand/exponent pair is canonical in a format when the exponent
    is the one the format assigns to its magnitude. *)
Definition canonical (prec emax : Z) (m : positive) (e : Z) : Prop :=
  SpecFloat.fexp prec emax (digits m + e) = e.

(** Magnitude of a finite value. *)
Definition mag (m : positive) (e : Z) : Q := inject_Z (Zpos m) * pow2 e.

(** What [binary_round_aux] returns once the significand has been rounded
    to the integer [m1] at exponent [E]. *)
Definition round_result (prec emax : Z) (s : bool) (m1 E : Z) : spec_float :=
  match m1 with
  | Z0 => S754_zero s
  | Zpos p =>
      if m1 =? 2 ^ prec then
        if E + 1 <=? emax - prec
        then S754_finite s (Z.to_pos (2 ^ (prec - 1))) (E + 1)
        else S754_infinity s
      else
        if E <=? emax - prec then S754_finite s p E else S754_infinity s
  | Zneg _ => S754_nan
  end.

(** Correct rounding, stated by enclosure: [r] is a value of the format,
    not a NaN, and it lies between any two finite values of the format
    that enclose the exact result [p]. *)
Definition rounds_to (prec emax : Z) (p : Q) (r : spec_float) : Prop :=
  valid_binary prec emax r = true /\ is_nan r = false /\
  forall b, valid_binary prec emax b = true -> is_finite b = true ->
    ((p <= B2Q b)%Q -> SFleb r b = true) /\
    ((B2Q b <= p)%Q -> SFleb b r = true).

(** Half-unit error bound: when the exact result [p] is below [2^k] in
    magnitude, a finite rounding [r] is within half a unit of the last
    place of that binade. *)
Definition round_error (prec emax : Z) (p : Q) (r : spec_float) : Prop :=
  is_finite r = true ->
  forall k : Z, (- pow2 k < p /\ p < pow2 k)%Q ->
    (- pow2 (SpecFloat.fexp prec emax k - 1) <= B2Q r - p /\
     B2Q r - p <= pow2 (SpecFloat.fexp prec emax k - 1))%Q.

(** A format the rounding theory covers. *)
Definition good (f : format) : Prop := 0 < prec f /\ prec f < emax f.

(** A value of format [f] that is finite. *)
Definition fin (f : format) (x : spec_float) : Prop :=
  valid f x = true /\ is_finite x = true.

(** The two rounding predicates at a format. *)
Definition rounds (f : format) := rounds_to (prec f) (emax f).

Definition within (f : format) := round_error (prec f) (emax f).
End IEEE.

(* ================================================================== *)
(** * C++ scalar types of the sketch *)
(* ================================================================== *)

Module F32.
Definition t := spec_float.
Definition fmt := IEEE.binary32.
Definition add : t -> t -> t := IEEE.fadd fmt.
Definition sub : t -> t -> t := IEEE.fsub fmt.
Definition mul : t -> t -> t := IEEE.fmul fmt.
Definition opp : t -> t := SFopp.
Definition of_int (n : Z) : t := IEEE.of_Z fmt n.
Definition valid : t -> bool := IEEE.valid fmt.
End F32.

Module F64.
Definition t := spec_float.
Definition fmt := IEEE.binary64.
Definition add : t -> t -> t := IEEE.fadd fmt.
Definition sub : t -> t -> t := IEEE.fsub fmt.
Definition mul : t -> t -> t := IEEE.fmul fmt.
Definition div : t -> t -> t := IEEE.fdiv fmt.
Definition of_int (n : Z) : t := IEEE.of_Z fmt n.
Definition valid : t -> bool := IEEE.valid fmt.

(** The [double] denoted by a decimal literal [num / den]: both integers
    are exact in binary64 and the division rounds once, so the result is
    the binary64 value nearest to the decimal. *)
Definition lit (num den : Z) : t := div (of_int num) (of_int den).
End F64.

(** [(double) x] and [(float) x]. *)
Definition to_double (x : F32.t) : F64.t := IEEE.fround F64.fmt x.
Definition to_float (x : F64.t) : F32.t := IEEE.fround F32.fmt x.

(** [(uint8_t) x] for a [float]: truncation toward zero.  C++ leaves the
    conversion undefined outside [0, 255]; the model keeps the low eight
    bits of the truncated value there and maps NaN and infinities to 0. *)
Definition f32_to_u8 (x : F32.t) : Z :=
  match x with
  | S754_finite s m e =>
      let t := match e with
               | Zneg p => Zpos m / 2 ^ Zpos p
               | _ => Zpos m * 2 ^ e
               end in
      (if s then - t else t) mod 256
  | _ => 0
  end.

(** [(int16_t) n] for an [int] [n]: reduction modulo [2^16] into
    [-32768, 32767]. *)
Definition to_int16 (n : Z) : Z := (n + 32768) mod 65536 - 32768.

(** Arduino core macros:
    [constrain(amt,low,high) ((amt)<(low)?(low):((amt)>(high)?(high):(amt)))]
    and [abs(x) ((x)>0?(x):-(x))]. *)
Definition constrain (amt low high : F32.t) : F32.t :=
  if IEEE.flt amt low then low
  else if IEEE.fgt amt high then high
  else amt.

Definition abs (x : F32.t) : F32.t :=
  if IEEE.fgt x (F32.of_int 0) then x else F32.opp x.

(** [max] on [uint8_t]: [(a < b) ? b : a]. *)
Definition max_u8 (a b : Z) : Z := if a <? b then b else a.

(* ================================================================== *)
(** * The sketch [src/main.cpp] *)
(* ================================================================== *)

(** ** Pixels *)

Module CRGB.
(** A FastLED pixel: three [uint8_t] channels. *)
Record t := RGB { r : Z; g : Z; b : Z }.
Definition Black : t := RGB 0 0 0.
Definition Blue : t := RGB 0 0 255.
End CRGB.

(** ** Library functions the sketch calls

    [sin] on a [double], [exp] on a [float] and FastLED's [CRGB::nscale8]
    are not part of the repository; the sketch is parametrised by them. *)
Class Platform := {
  sin : F64.t -> F64.t;
  exp : F32.t -> F32.t;
  nscale8 : CRGB.t -> Z -> CRGB.t
}.

(** ** Configuration and constants *)

Definition NUM_LEDS : Z := 30.
Definition MPU_ADDR : Z := 104.

Definition BOUNCE_DAMPING : F32.t := to_float (F64.lit 85 100).
Definition MAX_VELOCITY : F32.t := to_float (F64.lit 10 10).
Definition GLOW_DECAY : F32.t := to_float (F64.lit 5 10).
Definition WATER_COLOR : CRGB.t := CRGB.Blue.
Definition ASCII_STRIP_LENGTH : Z := NUM_LEDS.

(** ** Program state and observable events *)

(** The globals of the sketch, and the function-static buffer of [loop1]. *)
Record Globals := {
  g_tilt_x : F32.t;
  g_sensor_connected : bool;
  leds : list CRGB.t;
  water_pos : F32.t;
  water_vel : F32.t;
  flow_time_offset : F32.t;
  ascii_visual : list ascii
}.

Definition initial_globals : Globals := {|
  g_tilt_x := to_float (F64.lit 0 10);
  g_sensor_connected := false;
  leds := repeat CRGB.Black (Z.to_nat NUM_LEDS);
  water_pos := to_float (F64.div (to_double (F32.of_int NUM_LEDS)) (F64.lit 20 10));
  water_vel := to_float (F64.lit 0 10);
  flow_time_offset := to_float (F64.lit 0 10);
  ascii_visual := repeat zero (Z.to_nat (NUM_LEDS + 1))
|}.

(** One argument of a [Serial.print] call. *)
Inductive Printed :=
| PChar (c : ascii)
| PStr (s : string)
| PFloat (x : F32.t) (decimals : Z).

(** What a run does that another core or the outside can see: stores to
    the two shared variables, frames pushed to the strip, console output. *)
Inductive Event :=
| WriteTilt (x : F32.t)
| WriteConnected (c : bool)
| ShowFrame (frame : list CRGB.t)
| SerialPrint (p : Printed).

(** ** A state, log and failure monad for the statements of the sketch

    [None] stands for a store outside the bounds of an array. *)
Definition M (A : Type) : Type := Globals -> option (A * Globals * list Event).

Definition ret {A : Type} (x : A) : M A := fun st => Some (x, st, []).

Definition bind {A B : Type} (c : M A) (k : A -> M B) : M B :=
  fun st =>
    match c st with
    | None => None
    | Some (x, st1, ev1) =>
        match k x st1 with
        | None => None
        | Some (y, st2, ev2) => Some (y, st2, ev1 ++ ev2)
        end
    end.

Definition fail {A : Type} : M A := fun _ => None.
Definition get : M Globals := fun st => Some (st, st, []).
Definition put (st : Globals) : M unit := fun _ => Some (tt, st, []).
Definition emit (e : Event) : M unit := fun st => Some (tt, st, [e]).

Declare Scope sketch_scope.
Delimit Scope sketch_scope with sketch.
Notation "x <- c ;; k" := (bind c (fun x => k))
  (at level 61, c at next level, right associativity) : sketch_scope.
Notation "c ;; k" := (bind c (fun _ => k))
  (at level 61, right associativity) : sketch_scope.
Local Open Scope sketch_scope.

Definition load {A : Type} (field : Globals -> A) : M A :=
  st <- get ;; ret (field st).

Definition set_tilt (x : F32.t) (st : Globals) : Globals :=
  {| g_tilt_x := x; g_sensor_connected := g_sensor_connected st;
     leds := leds st; water_pos := water_pos st; water_vel := water_vel st;
     flow_time_offset := flow_time_offset st; ascii_visual := ascii_visual st |}.

Definition set_connected (c : bool) (st : Globals) : Globals :=
  {| g_tilt_x := g_tilt_x st; g_sensor_connected := c;
     leds := leds st; water_pos := water_pos st; water_vel := water_vel st;
     flow_time_offset := flow_time_offset st; ascii_visual := ascii_visual st |}.

Definition set_leds (l : list CRGB.t) (st : Globals) : Globals :=
  {| g_tilt_x := g_tilt_x st; g_sensor_connected := g_sensor_connected st;
     leds := l; water_pos := water_pos st; water_vel := water_vel st;
     flow_time_offset := flow_time_offset st; ascii_visual := ascii_visual st |}.

Definition set_pos (x : F32.t) (st : Globals) : Globals :=
  {| g_tilt_x := g_tilt_x st; g_sensor_connected := g_sensor_connected st;
     leds := leds st; water_pos := x; water_vel := water_vel st;
     flow_time_offset := flow_time_offset st; ascii_visual := ascii_visual st |}.

Definition set_vel (x : F32.t) (st : Globals) : Globals :=
  {| g_tilt_x := g_tilt_x st; g_sensor_connected := g_sensor_connected st;
     leds := leds st; water_pos := water_pos st; water_vel := x;
     flow_time_offset := flow_time_offset st; ascii_visual := ascii_visual st |}.

Definition set_offset (x : F32.t) (st : Globals) : Globals :=
  {| g_tilt_x := g_tilt_x st; g_sensor_connected := g_sensor_connected st;
     leds := leds st; water_pos := water_pos st; water_vel := water_vel st;
     flow_time_offset := x; ascii_visual := ascii_visual st |}.

Definition set_ascii (buf : list ascii) (st : Globals) : Globals :=
  {| g_tilt_x := g_tilt_x st; g_sensor_connected := g_sensor_connected st;
     leds := leds st; water_pos := water_pos st; water_vel := water_vel st;
     flow_time_offset := flow_time_offset st; ascii_visual := buf |}.

Definition store (upd : Globals -> Globals) : M unit :=
  st <- get ;; put (upd st).

(** Stores to the shared variables are logged. *)
Definition store_tilt (x : F32.t) : M unit :=
  store (set_tilt x) ;; emit (WriteTilt x).

Definition store_connected (c : bool) : M unit :=
  store (set_connected c) ;; emit (WriteConnected c).

(** [for (int i = start; i < start + n; i++) body(i)]. *)
Fixpoint for_range (start : Z) (n : nat) (body : Z -> M unit) : M unit :=
  match n with
  | O => ret tt
  | S k => body start ;; for_range (start + 1) k body
  end.

(** Array element update; the index is in range wherever the sketch
    updates [leds]. *)
Fixpoint list_set {A : Type} (i : nat) (x : A) (l : list A) : list A :=
  match l, i with
  | [], _ => []
  | _ :: t, O => x :: t
  | h :: t, S k => h :: list_set k x t
  end.

(** A store through a [char*] into an array of known extent. *)
Definition buf_write (i : Z) (c : ascii) (buf : list ascii) : option (list ascii) :=
  if (0 <=? i) && (i <? Z.of_nat (List.length buf))
  then Some (list_set (Z.to_nat i) c buf)
  else None.

(** ** Core 0: sensor reading and simulation *)

(** What the I2C bus does during one call of [read_mpu6050]: the status
    [Wire.endTransmission] returns and the bytes the device delivers to
    [Wire.requestFrom]. *)
Record BusReply := { tx_status : Z; rx_data : list Z }.

(** [Wire.read()]: the next byte received, or -1 when there is none. *)
Definition wire_read (rx : list Z) : Z * list Z :=
  match rx with
  | [] => (-1, [])
  | x :: rest => (x, rest)
  end.

(** [bool read_mpu6050(float &accX)]: [Some accX] for [true] with the
    reference assigned, [None] for [false] with the reference untouched. *)
Definition read_mpu6050 (bus : BusReply) : option F32.t :=
  if negb (tx_status bus =? 0) then None
  else if negb (Z.of_nat (List.length (rx_data bus)) =? 6) then None
  else
    let '(hi, rx1) := wire_read (rx_data bus) in
    let '(lo, rx2) := wire_read rx1 in
    let rawX := to_int16 (Z.lor (Z.shiftl hi 8) lo) in
    Some (to_float (F64.div (to_double (F32.of_int rawX)) (F64.lit 16384 1))).

(** [setup]: [probe_status] is what [Wire.endTransmission] returns for the
    empty probe transmission; the status of the wake-up write is ignored. *)
Definition setup (probe_status : Z) : M unit :=
  if probe_status =? 0
  then store_connected true
  else store_connected false.

(** Inputs of one pass of [loop]: the bus and the clock [millis()]. *)
Record Core0Input := { bus : BusReply; millis : Z }.

Section Sketch.
Context {platform : Platform}.

Definition loop (io : Core0Input) : M unit :=
  connected <- load g_sensor_connected ;;
  if connected then
    match read_mpu6050 (bus io) with
    | Some new_accel_x => store_tilt new_accel_x
    | None => ret tt
    end
  else
    let time_sec := to_float (F64.div (F64.of_int (millis io)) (F64.lit 1000 1)) in
    store_tilt
      (to_float (F64.mul (sin (F64.mul (to_double time_sec) (F64.lit 5 10)))
                         (F64.lit 8 10))).

(** ** Core 1: LED control and serial monitor *)

(** 1. Physics update. *)
Definition physics_update : M unit :=
  tilt <- load g_tilt_x ;;
  let tilt_accel := to_float (F64.mul (to_double tilt) (F64.lit 2 10)) in
  v <- load water_vel ;; store (set_vel (F32.add v tilt_accel)) ;;
  v <- load water_vel ;;
  store (set_vel (to_float (F64.mul (to_double v) (F64.lit 98 100)))) ;;
  v <- load water_vel ;;
  store (set_vel (constrain v (F32.opp MAX_VELOCITY) MAX_VELOCITY)) ;;
  p <- load water_pos ;; v <- load water_vel ;;
  store (set_pos (F32.add p v)).

(** 2. Edge reflection. *)
Definition edge_reflection : M unit :=
  p <- load water_pos ;;
  if IEEE.flt p (F32.of_int 0) then
    store (set_pos (F32.of_int 0)) ;;
    v <- load water_vel ;;
    store (set_vel (F32.mul (F32.opp v) BOUNCE_DAMPING))
  else if IEEE.fge p (F32.of_int NUM_LEDS) then
    store (set_pos (to_float (F64.sub (to_double (F32.of_int NUM_LEDS))
                                      (F64.lit 1 1000)))) ;;
    v <- load water_vel ;;
    store (set_vel (F32.mul (F32.opp v) BOUNCE_DAMPING))
  else ret tt.

(** The body of the pixel loop. *)
Definition glow_pixel (i : Z) : M unit :=
  p <- load water_pos ;;
  let dist := abs (F32.sub (F32.of_int i) p) in
  let intensity := exp (F32.mul (F32.opp dist) GLOW_DECAY) in
  phase <- load flow_time_offset ;;
  let shimmer :=
    to_float (F64.add (F64.mul (sin (F64.add (F64.mul (F64.of_int i) (F64.lit 3 10))
                                             (to_double phase)))
                               (F64.lit 2 10))
                      (F64.lit 8 10)) in
  let intensity := F32.mul intensity shimmer in
  let color := nscale8 WATER_COLOR (f32_to_u8 (F32.mul intensity (F32.of_int 255))) in
  l <- load leds ;; store (set_leds (list_set (Z.to_nat i) color l)).

(** 3. Clear the strip and apply the new glow. *)
Definition render_glow : M unit :=
  l <- load leds ;;
  store (set_leds (map (fun _ => CRGB.Black) l)) ;;
  t <- load flow_time_offset ;;
  store (set_offset (to_float (F64.add (to_double t) (F64.lit 5 100)))) ;;
  for_range 0 (Z.to_nat NUM_LEDS) glow_pixel.

Definition update_led_strip : M unit :=
  physics_update ;; edge_reflection ;; render_glow.

(** The glyph of one pixel. *)
Definition glyph (led : CRGB.t) : ascii :=
  let brightness := max_u8 (max_u8 (CRGB.r led) (CRGB.g led)) (CRGB.b led) in
  if brightness >? 180 then "~"%char
  else if brightness >? 50 then "="%char
  else if brightness >? 10 then "_"%char
  else " "%char.

(** The pixel loop of [create_ascii_visualization], on the array behind
    [buffer]. *)
Fixpoint ascii_loop (strip : list CRGB.t) (i : Z) (n : nat) (buffer : list ascii)
  : option (list ascii) :=
  match n with
  | O => Some buffer
  | S k =>
      match buf_write i (glyph (nth (Z.to_nat i) strip CRGB.Black)) buffer with
      | None => None
      | Some buffer' => ascii_loop strip (i + 1) k buffer'
      end
  end.

(** [create_ascii_visualization(buffer, buffer_size)]: [buffer] is the
    array the pointer designates, [strip] the global [leds]. *)
Definition create_ascii_visualization
    (strip : list CRGB.t) (buffer : list ascii) (buffer_size : Z)
  : option (list ascii) :=
  if buffer_size <? NUM_LEDS + 1 then Some buffer
  else
    match ascii_loop strip 0 (Z.to_nat NUM_LEDS) buffer with
    | None => None
    | Some buffer' => buf_write NUM_LEDS zero buffer'
    end.

(** The characters of a C string: up to the first NUL. *)
Fixpoint c_str (buf : list ascii) : string :=
  match buf with
  | [] => EmptyString
  | c :: rest => if Ascii.eqb c zero then EmptyString else String c (c_str rest)
  end.

Definition serial_print (p : Printed) : M unit := emit (SerialPrint p).

Definition loop1 : M unit :=
  update_led_strip ;;
  l <- load leds ;; emit (ShowFrame l) ;;
  buf <- load ascii_visual ;;
  match create_ascii_visualization l buf (Z.of_nat (List.length buf)) with
  | None => fail
  | Some buf' =>
      store (set_ascii buf') ;;
      serial_print (PChar "013"%char) ;;
      connected <- load g_sensor_connected ;;
      serial_print (PStr (if connected then "[H/W]" else "[SIM]")) ;;
      serial_print (PStr " Tilt (X): ") ;;
      tilt <- load g_tilt_x ;; serial_print (PFloat tilt 2) ;;
      serial_print (PStr " | Pos: ") ;;
      p <- load water_pos ;; serial_print (PFloat p 2) ;;
      serial_print (PStr " | Flow: [") ;;
      buf <- load ascii_visual ;; serial_print (PStr (c_str buf)) ;;
      serial_print (PStr "] ")
  end.
End Sketch.

(** ** The two cores

    Core 0 runs [setup] once and then [loop] for ever; core 1 runs [loop1]
    for ever ([setup1] only configures the peripherals).  A step of the
    system is one complete pass of one of them, in any interleaving; the
    history keeps the log of every pass. *)
Inductive Pass := PassSetup | PassLoop | PassLoop1.

Record System := {
  mem : Globals;
  core0_booted : bool;
  history : list (Pass * list Event)
}.

Definition initial_system : System :=
  {| mem := initial_globals; core0_booted := false; history := [] |}.

Inductive step {platform : Platform} : System -> System -> Prop :=
| step_setup (s : System) (probe_status : Z) (m' : Globals) (ev : list Event) :
    core0_booted s = false ->
    setup probe_status (mem s) = Some (tt, m', ev) ->
    step s {| mem := m'; core0_booted := true;
              history := history s ++ [(PassSetup, ev)] |}
| step_loop (s : System) (io : Core0Input) (m' : Globals) (ev : list Event) :
    core0_booted s = true ->
    loop io (mem s) = Some (tt, m', ev) ->
    step s {| mem := m'; core0_booted := true;
              history := history s ++ [(PassLoop, ev)] |}
| step_loop1 (s : System) (m' : Globals) (ev : list Event) :
    loop1 (mem s) = Some (tt, m', ev) ->
    step s {| mem := m'; core0_booted := core0_booted s;
              history := history s ++ [(PassLoop1, ev)] |}.

Inductive steps {platform : Platform} : System -> System -> Prop :=
| steps_refl (s : System) : steps s s
| steps_step (s1 s2 s3 : System) : steps s1 s2 -> step s2 s3 -> steps s1 s3.

Definition reachable {platform : Platform} (s : System) : Prop :=
  steps initial_system s.

(** Number of stores to the connected flag in a log, and in a history. *)
Fixpoint connected_writes (log : list Event) : nat :=
  match log with
  | [] => O
  | WriteConnected _ :: rest => S (connected_writes rest)
  | _ :: rest => connected_writes rest
  end.

Fixpoint connected_writes_in (h : list (Pass * list Event)) : nat :=
  match h with
  | [] => O
  | (_, log) :: rest => (connected_writes log + connected_writes_in rest)%nat
  end.

(** The status tag of a console line: the first string printed. *)
Fixpoint status_tag (log : list Event) : option string :=
  match log with
  | [] => None
  | SerialPrint (PStr s) :: _ => Some s
  | _ :: rest => status_tag rest
  end.


(** ** Reference values

    The signed 16-bit integer two bytes denote, high byte first, as the
    specification words the sensor sample. *)
Definition be16_signed (hi lo : Z) : Z :=
  let u := 256 * hi + lo in if u <? 32768 then u else u - 65536.

(** FastLED's [nscale8] with [FASTLED_SCALE8_FIXED]:
    [channel = (channel * (1 + scale)) >> 8]. *)
Definition fastled_nscale8 (c : CRGB.t) (scale : Z) : CRGB.t :=
  CRGB.RGB (Z.shiftr (CRGB.r c * (1 + scale)) 8)
           (Z.shiftr (CRGB.g c * (1 + scale)) 8)
           (Z.shiftr (CRGB.b c * (1 + scale)) 8).

(** A platform on which the sketch can be run on concrete inputs: FastLED's
    scaling, and constant stand-ins for the two libm functions
    ([sin = 0], [exp = 1]). *)
Definition flat_platform : Platform := {|
  sin := fun _ => S754_zero false;
  exp := fun _ => F32.of_int 1;
  nscale8 := fastled_nscale8
|}.

(* ================================================================== *)
(** * Closed forms of the passes *)
(* ================================================================== *)

(** The monadic passes above follow the sketch statement by statement.
    The functions below give the state each pass leaves, and the
    predicates the properties are stated with. *)

Section ClosedForms.
Context {platform : Platform}.
Import IEEE.

(** ** The particle *)

(** The velocity [physics_update] stores: the tilt force added, the drag
    factor applied and the result constrained, every operation in the type
    C++ gives it. *)
Definition next_velocity (tilt vel : F32.t) : F32.t :=
  let forced := F32.add vel (to_float (F64.mul (to_double tilt) (F64.lit 2 10))) in
  let damped := to_float (F64.mul (to_double forced) (F64.lit 98 100)) in
  constrain damped (F32.opp MAX_VELOCITY) MAX_VELOCITY.

(** State after the integration step, before the boundary check. *)
Definition integrated (st : Globals) : Globals :=
  let v' := next_velocity (g_tilt_x st) (water_vel st) in
  set_pos (F32.add (water_pos st) v') (set_vel v' st).

(** The position just inside the far edge, [(float)NUM_LEDS - 0.001]. *)
Definition far_edge : F32.t :=
  to_float (F64.sub (to_double (F32.of_int NUM_LEDS)) (F64.lit 1 1000)).

(** State after the boundary check, from the integrated state. *)
Definition reflected (st : Globals) : Globals :=
  if IEEE.flt (water_pos st) (F32.of_int 0) then
    set_vel (F32.mul (F32.opp (water_vel st)) BOUNCE_DAMPING)
            (set_pos (F32.of_int 0) st)
  else if IEEE.fge (water_pos st) (F32.of_int NUM_LEDS) then
    set_vel (F32.mul (F32.opp (water_vel st)) BOUNCE_DAMPING)
            (set_pos far_edge st)
  else st.

(** ** The rasteriser *)

(** The shimmer multiplier [sin(i * 0.3 + phase) * 0.2 + 0.8]. *)
Definition shimmer (phase : F32.t) (i : Z) : F32.t :=
  to_float (F64.add (F64.mul (sin (F64.add (F64.mul (F64.of_int i) (F64.lit 3 10))
                                           (to_double phase)))
                             (F64.lit 2 10))
                    (F64.lit 8 10)).

(** The exponential falloff [exp(-|i - position| * glowDecay)]. *)
Definition falloff (pos : F32.t) (i : Z) : F32.t :=
  exp (F32.mul (F32.opp (abs (F32.sub (F32.of_int i) pos))) GLOW_DECAY).

(** The colour [glow_pixel] stores at pixel [i]: the base colour scaled
    by [intensity * 255] with [intensity = falloff * shimmer]. *)
Definition glow_color (pos phase : F32.t) (i : Z) : CRGB.t :=
  nscale8 WATER_COLOR
    (f32_to_u8 (F32.mul (F32.mul (falloff pos i) (shimmer phase i)) (F32.of_int 255))).

(** The pixel loop as a function on the strip. *)
Fixpoint paint (pos phase : F32.t) (a : Z) (n : nat) (l : list CRGB.t)
  : list CRGB.t :=
  match n with
  | O => l
  | S k => paint pos phase (a + 1) k
                 (list_set (Z.to_nat a) (glow_color pos phase a) l)
  end.

(** The shimmer phase of the next frame. *)
Definition next_phase (phase : F32.t) : F32.t :=
  to_float (F64.add (to_double phase) (F64.lit 5 100)).

(** State after rasterising. *)
Definition rendered (st : Globals) : Globals :=
  set_leds (paint (water_pos st) (next_phase (flow_time_offset st)) 0
                  (Z.to_nat NUM_LEDS) (map (fun _ => CRGB.Black) (leds st)))
           (set_offset (next_phase (flow_time_offset st)) st).

(** ** The console *)

(** The console line of one frame. *)
Definition console_line (st : Globals) : list Event :=
  [SerialPrint (PChar "013"%char);
   SerialPrint (PStr (if g_sensor_connected st then "[H/W]" else "[SIM]"));
   SerialPrint (PStr " Tilt (X): ");
   SerialPrint (PFloat (g_tilt_x st) 2);
   SerialPrint (PStr " | Pos: ");
   SerialPrint (PFloat (water_pos st) 2);
   SerialPrint (PStr " | Flow: [");
   SerialPrint (PStr (c_str (ascii_visual st)));
   SerialPrint (PStr "] ")].

(** ** Ranges *)

(** Position on the strip: [0 <= p < NUM_LEDS] as the sketch compares. *)
Definition in_strip (p : F32.t) : Prop :=
  F32.valid p = true /\
  fle (F32.of_int 0) p = true /\ flt p (F32.of_int NUM_LEDS) = true.

(** Magnitude at most [MAX_VELOCITY]. *)
Definition speed_ok (v : F32.t) : Prop :=
  F32.valid v = true /\
  fle (F32.opp MAX_VELOCITY) v = true /\ fle v MAX_VELOCITY = true.

(** A tilt reading in [-1.0, 1.0]. *)
Definition tilt_ok (t : F32.t) : Prop :=
  F32.valid t = true /\
  fle (F32.of_int (-1)) t = true /\ fle t (F32.of_int 1) = true.

(** A finite value of the format with its rational value in [lo, hi]. *)
Definition enclosed (f : format) (x : spec_float) (lo hi : Q) : Prop :=
  fin f x /\ (lo <= B2Q x)%Q /\ (B2Q x <= hi)%Q.

(** The least positive normal [float], [FLT_MIN = 2^-126]: below it a
    [float] has lost precision and drag by 0.98 can round back to the same
    value. *)
Definition FLT_MIN : F32.t := S754_finite false 8388608 (-149).

(** Positive or negative zero. *)
Definition is_zero (x : spec_float) : bool :=
  match x with S754_zero _ => true | _ => false end.

(** ** The accelerometer sample *)

(** The value [read_mpu6050] computes from the first two bytes. *)
Definition sample_value (hi lo : Z) : F32.t :=
  to_float (F64.div (to_double (F32.of_int (to_int16 (Z.lor (Z.shiftl hi 8) lo))))
                    (F64.lit 16384 1)).

Definition sample_ok (hi lo : Z) : bool :=
  F32.valid (sample_value hi lo) && is_finite (sample_value hi lo) &&
  Qeq_bool (B2Q (sample_value hi lo)) (be16_signed hi lo # 16384).

Definition byte_values : list Z := map Z.of_nat (seq 0 256).

(** ** The strip with checked stores

    [list_set] leaves the array as it is when the index is outside it,
    and C++ gives such a store no meaning.  The variants below fail on
    it instead, as [buf_write] does for the console buffer: where they
    return, every [leds[i] = color] of the pass fell inside the
    array. *)
Definition led_write (i : Z) (c : CRGB.t) (strip : list CRGB.t)
  : option (list CRGB.t) :=
  if (0 <=? i) && (i <? Z.of_nat (List.length strip))
  then Some (list_set (Z.to_nat i) c strip)
  else None.

Definition glow_pixel_checked (i : Z) : M unit :=
  p <- load water_pos ;;
  let dist := abs (F32.sub (F32.of_int i) p) in
  let intensity := exp (F32.mul (F32.opp dist) GLOW_DECAY) in
  phase <- load flow_time_offset ;;
  let shimmer :=
    to_float (F64.add (F64.mul (sin (F64.add (F64.mul (F64.of_int i) (F64.lit 3 10))
                                             (to_double phase)))
                               (F64.lit 2 10))
                      (F64.lit 8 10)) in
  let intensity := F32.mul intensity shimmer in
  let color := nscale8 WATER_COLOR (f32_to_u8 (F32.mul intensity (F32.of_int 255))) in
  l <- load leds ;;
  match led_write i color l with
  | Some l' => store (set_leds l')
  | None => fail
  end.

Definition render_glow_checked : M unit :=
  l <- load leds ;;
  store (set_leds (map (fun _ => CRGB.Black) l)) ;;
  t <- load flow_time_offset ;;
  store (set_offset (to_float (F64.add (to_double t) (F64.lit 5 100)))) ;;
  for_range 0 (Z.to_nat NUM_LEDS) glow_pixel_checked.

Definition update_led_strip_checked : M unit :=
  physics_update ;; edge_reflection ;; render_glow_checked.
End ClosedForms.

(** ** Runs and histories *)

(** The two bytes of the 16-bit two's complement encoding of [n], high
    byte first: what the sensor puts on the bus for the raw sample [n]. *)
Definition be16_bytes (n : Z) : Z * Z := ((n mod 65536) / 256, n mod 256).

(** The tilts a log publishes, and those of a whole history, oldest
    first. *)
Fixpoint published (log : list Event) : list F32.t :=
  match log with
  | [] => []
  | WriteTilt x :: rest => x :: published rest
  | _ :: rest => published rest
  end.

Definition tilts_published (h : list (Pass * list Event)) : list F32.t :=
  flat_map (fun entry => published (snd entry)) h.

(** A tilt the integrator can take: a [float] other than NaN. *)
Definition usable_tilt (x : F32.t) : Prop :=
  F32.valid x = true /\ IEEE.is_nan x = false.


(** ** Sample states and inputs

    Concrete values at which the sketch is run below. *)

(** The particle half a pixel from the far edge, at full speed, with the
    board tilted fully towards that edge. *)
Definition near_far_edge : Globals :=
  set_tilt (F32.of_int 1)
    (set_vel (F32.of_int 1) (set_pos (to_float (F64.lit 295 10)) initial_globals)).

(** The particle half a pixel from the near edge, moving towards it with
    the board tilted the same way. *)
Definition near_start_edge : Globals :=
  set_tilt (F32.of_int (-1))
    (set_vel (to_float (F64.lit (-9) 10))
       (set_pos (to_float (F64.lit 5 10)) initial_globals)).

(** The particle in the middle of a level strip, at full speed. *)
Definition coasting : Globals := set_vel (F32.of_int 1) initial_globals.

(** The state once the probe has found the sensor. *)
Definition sensor_found : Globals := set_connected true initial_globals.

(** A bus that answers with a reading of 0.25 g, at one second of uptime. *)
Definition quarter_g : Core0Input :=
  {| bus := {| tx_status := 0; rx_data := [16; 0; 0; 0; 0; 0] |}; millis := 1000 |}.

(** The system after [setup] has run with the sensor answering. *)
Definition booted_system : System :=
  {| mem := sensor_found; core0_booted := true;
     history := [(PassSetup, [WriteConnected true])] |}.

(** The particle at the far edge with the tilt off the scale. *)
Definition tilt_off_scale : Globals := set_tilt (S754_infinity false) near_far_edge.

(** A tilt that is not a number. *)
Definition tilt_not_a_number : Globals := set_tilt S754_nan initial_globals.

(** A system whose velocity is NaN before [setup] has run. *)
Definition poisoned_system : System :=
  {| mem := set_vel S754_nan initial_globals; core0_booted := false; history := [] |}.

(** The system after [setup] and one pass of [loop] that read [quarter_g]. *)
Definition first_reading : System :=
  {| mem := set_tilt (sample_value 16 0) sensor_found; core0_booted := true;
     history := [(PassSetup, [WriteConnected true]);
                 (PassLoop, [WriteTilt (sample_value 16 0)])] |}.

(** One pass of [loop1] on [flat_platform], and of [setup] with the
    given probe status, as moves of the system. *)
Definition frame_on_flat (s : System) : System :=
  match @loop1 flat_platform (mem s) with
  | Some (_, m', ev) =>
      {| mem := m'; core0_booted := core0_booted s;
         history := history s ++ [(PassLoop1, ev)] |}
  | None => s
  end.

Definition boot_with (probe_status : Z) (s : System) : System :=
  if core0_booted s then s
  else
    match setup probe_status (mem s) with
    | Some (_, m', ev) =>
        {| mem := m'; core0_booted := true;
           history := history s ++ [(PassSetup, ev)] |}
    | None => s
    end.

(** A frame drawn before [setup] has run, then [setup], then a frame:
    with the sensor found, and with no sensor (the probe returns 2, the
    address was not acknowledged). *)
Definition frames_around_boot : System :=
  frame_on_flat (boot_with 0 (frame_on_flat initial_system)).


(** A strip one pixel short of [NUM_LEDS]. *)
Definition short_strip : Globals :=
  set_leds (repeat CRGB.Black 29) initial_globals.

(** A strip that has been running for days: the phase at [2^20]. *)
Definition long_running : Globals :=
  set_offset (F32.of_int 1048576) initial_globals.

(* ================================================================== *)
(** * Rounding theory *)
(* ================================================================== *)

Module RoundingFacts.
Import IEEE.

(** ** Powers of two and binary digits *)

Lemma pow2_pos_Z (n : Z) : 0 < 2 ^ n \/ n < 0.
Proof.
  destruct (Z.le_gt_cases 0 n) as [H|H]; [left|right; exact H].
  apply Z.pow_pos_nonneg; lia.
Qed.

Lemma pow2_gt0 (n : Z) : 0 <= n -> 0 < 2 ^ n.
Proof. intros H. apply Z.pow_pos_nonneg; lia. Qed.

Lemma pow2_split (a b : Z) : 0 <= a -> 0 <= b -> 2 ^ (a + b) = 2 ^ a * 2 ^ b.
Proof. intros. apply Z.pow_add_r; assumption. Qed.

Lemma pow2_le_mono (a b : Z) : 0 <= a <= b -> 2 ^ a <= 2 ^ b.
Proof. intros H. apply Z.pow_le_mono_r; lia. Qed.

Lemma pow2_lt_mono (a b : Z) : 0 <= a < b -> 2 ^ a < 2 ^ b.
Proof. intros H. apply Z.pow_lt_mono_r; lia. Qed.

Lemma pow2_lt_inv (a b : Z) : 0 <= a -> 0 <= b -> 2 ^ a < 2 ^ b -> a < b.
Proof.
  intros Ha Hb H. destruct (Z.lt_ge_cases a b) as [Hlt|Hge]; [exact Hlt|].
  assert (2 ^ b <= 2 ^ a) by (apply pow2_le_mono; lia). lia.
Qed.

Lemma digits_pos (m : positive) : 0 < digits m.
Proof. unfold digits. lia. Qed.

Lemma digits_bounds (m : positive) :
  2 ^ (digits m - 1) <= Zpos m < 2 ^ digits m.
Proof.
  unfold digits. induction m as [p IH|p IH|]; simpl digits2_pos.
  - rewrite Pos2Z.inj_succ.
    replace (Z.succ (Zpos (digits2_pos p)) - 1) with (Z.succ (Zpos (digits2_pos p) - 1)) by lia.
    rewrite !Z.pow_succ_r by lia. lia.
  - rewrite Pos2Z.inj_succ.
    replace (Z.succ (Zpos (digits2_pos p)) - 1) with (Z.succ (Zpos (digits2_pos p) - 1)) by lia.
    rewrite !Z.pow_succ_r by lia. lia.
  - simpl. lia.
Qed.

Lemma digits_unique (m : positive) (d : Z) :
  0 < d -> 2 ^ (d - 1) <= Zpos m < 2 ^ d -> digits m = d.
Proof.
  intros Hd [Hlo Hhi]. pose proof (digits_bounds m) as [Blo Bhi].
  pose proof (digits_pos m) as Hp.
  destruct (Z.lt_trichotomy (digits m) d) as [H|[H|H]]; [|exact H|].
  - assert (2 ^ digits m <= 2 ^ (d - 1)) by (apply pow2_le_mono; lia). lia.
  - assert (2 ^ d <= 2 ^ (digits m - 1)) by (apply pow2_le_mono; lia). lia.
Qed.

Lemma digits_le_iff (m : positive) (d : Z) :
  0 <= d -> (digits m <= d <-> Zpos m < 2 ^ d).
Proof.
  intros Hd. pose proof (digits_bounds m) as [Blo Bhi].
  pose proof (digits_pos m) as Hp. split; intros H.
  - assert (2 ^ digits m <= 2 ^ d) by (apply pow2_le_mono; lia). lia.
  - destruct (Z.le_gt_cases (digits m) d) as [Hle|Hgt]; [exact Hle|].
    assert (2 ^ d <= 2 ^ (digits m - 1)) by (apply pow2_le_mono; lia). lia.
Qed.

Lemma digits_mono (m1 m2 : positive) :
  (m1 <= m2)%positive -> digits m1 <= digits m2.
Proof.
  intros H. apply digits_le_iff; [pose proof (digits_pos m2); lia|].
  pose proof (digits_bounds m2). lia.
Qed.

(** ** The right shift [shr] computes quotient and location *)

Lemma iter_pos_swap {A : Type} (f : A -> A) (p : positive) (x : A) :
  iter_pos f p (f x) = f (iter_pos f p x).
Proof.
  revert x. induction p as [p IH|p IH|]; intros x; simpl.
  - rewrite !IH. reflexivity.
  - rewrite !IH. reflexivity.
  - reflexivity.
Qed.

Lemma iter_pos_succ {A : Type} (f : A -> A) (p : positive) (x : A) :
  iter_pos f (Pos.succ p) x = f (iter_pos f p x).
Proof.
  revert x. induction p as [p IH|p IH|]; intros x; simpl.
  - rewrite !IH. repeat rewrite iter_pos_swap. reflexivity.
  - repeat rewrite iter_pos_swap. reflexivity.
  - reflexivity.
Qed.

Lemma shr_1_nonneg (mrs : shr_record) :
  0 <= shr_m mrs ->
  shr_1 mrs = Build_shr_record (shr_m mrs / 2) (Z.odd (shr_m mrs))
                               (shr_r mrs || shr_s mrs).
Proof.
  destruct mrs as [m r s]. simpl. intros Hm.
  destruct m as [|[p|p|]|p]; try lia; simpl; f_equal.
  - apply Z.div_unique with 1; lia.
  - apply Z.div_unique with 0; lia.
Qed.

Lemma loc_of_rem_exact (r n : Z) (b c : bool) (m : Z) :
  loc_of_shr_record (Build_shr_record m b c) = loc_of_rem r n ->
  (r = 0 -> b = false /\ c = false) /\ (r <> 0 -> (b || c) = true).
Proof.
  unfold loc_of_rem. destruct (Z.eqb_spec r 0) as [E|E]; intros H; split; intros H'; try contradiction.
  - destruct b, c; simpl in H; try discriminate; auto.
  - destruct b, c; simpl in H; try discriminate; auto.
Qed.

Lemma shr_step (m n : Z) (mrs : shr_record) :
  0 <= m -> 0 <= n ->
  shr_m mrs = m / 2 ^ n ->
  loc_of_shr_record mrs = loc_of_rem (m mod 2 ^ n) n ->
  shr_m (shr_1 mrs) = m / 2 ^ (n + 1) /\
  loc_of_shr_record (shr_1 mrs) = loc_of_rem (m mod 2 ^ (n + 1)) (n + 1).
Proof.
  intros Hm Hn Hq Hl.
  pose proof (pow2_gt0 n Hn) as Hp.
  assert (Hq0 : 0 <= shr_m mrs) by (rewrite Hq; apply Z.div_pos; lia).
  rewrite (shr_1_nonneg mrs Hq0).
  assert (Hpow : 2 ^ (n + 1) = 2 ^ n * 2) by (rewrite Z.pow_add_r by lia; reflexivity).
  assert (Hdiv : m / 2 ^ (n + 1) = m / 2 ^ n / 2)
    by (rewrite Hpow, Z.div_div by lia; reflexivity).
  split; [simpl; rewrite Hq, Hdiv; reflexivity|].
  set (q := m / 2 ^ n) in *. set (r := m mod 2 ^ n) in *.
  assert (Hmq : m = 2 ^ n * q + r) by (apply Z.div_mod; lia).
  assert (Hr : 0 <= r < 2 ^ n) by (apply Z.mod_pos_bound; lia).
  assert (Hrem : m mod 2 ^ (n + 1) = r + 2 ^ n * (q mod 2)).
  { symmetry. apply Z.mod_unique with (q / 2).
    - left. pose proof (Z.mod_pos_bound q 2 ltac:(lia)). nia.
    - pose proof (Z.div_mod q 2 ltac:(lia)). nia. }
  rewrite Hrem. destruct mrs as [m0 b c]. simpl in Hq. subst m0.
  destruct (loc_of_rem_exact _ _ _ _ _ Hl) as [H0 H1].
  simpl shr_r. simpl shr_s. simpl shr_m.
  rewrite Zodd_mod. pose proof (Z.mod_pos_bound q 2 ltac:(lia)) as Hq2.
  unfold loc_of_rem. rewrite Hpow.
  assert (Hcase : q mod 2 = 0 \/ q mod 2 = 1) by lia.
  destruct (Z.eqb_spec r 0) as [Er|Er].
  - destruct (H0 Er) as [-> ->]. simpl orb.
    destruct Hcase as [E1|E1]; rewrite E1; simpl Z.eqb.
    + destruct (Z.eqb_spec (r + 2 ^ n * 0) 0); [reflexivity|lia].
    + destruct (Z.eqb_spec (r + 2 ^ n * 1) 0); [lia|].
      replace (2 * (r + 2 ^ n * 1) ?= 2 ^ n * 2) with Eq; [reflexivity|].
      symmetry. apply Z.compare_eq_iff. lia.
  - rewrite (H1 Er).
    destruct Hcase as [E1|E1]; rewrite E1; simpl Z.eqb.
    + destruct (Z.eqb_spec (r + 2 ^ n * 0) 0); [lia|].
      replace (2 * (r + 2 ^ n * 0) ?= 2 ^ n * 2) with Lt; [reflexivity|].
      symmetry. apply Z.compare_lt_iff. lia.
    + destruct (Z.eqb_spec (r + 2 ^ n * 1) 0); [lia|].
      replace (2 * (r + 2 ^ n * 1) ?= 2 ^ n * 2) with Gt; [reflexivity|].
      symmetry. apply Z.compare_gt_iff. lia.
Qed.

Lemma shr_iter (m : Z) (p : positive) :
  0 <= m ->
  let mrs := iter_pos shr_1 p (Build_shr_record m false false) in
  shr_m mrs = m / 2 ^ Zpos p /\
  loc_of_shr_record mrs = loc_of_rem (m mod 2 ^ Zpos p) (Zpos p).
Proof.
  intros Hm. induction p as [|p IH] using Pos.peano_ind.
  - simpl iter_pos.
    apply (shr_step m 0 (Build_shr_record m false false)); try lia.
    + simpl. rewrite Z.div_1_r. reflexivity.
    + simpl. rewrite Z.mod_1_r. reflexivity.
  - cbv zeta in *. rewrite iter_pos_succ. rewrite Pos2Z.inj_succ.
    destruct IH as [IH1 IH2].
    apply (shr_step m (Zpos p)); try lia; assumption.
Qed.

Lemma rne_of_loc (m n : Z) :
  round_nearest_even (m / 2 ^ n) (loc_of_rem (m mod 2 ^ n) n) = rne_div m n.
Proof.
  unfold rne_div, loc_of_rem. cbv zeta.
  destruct (m mod 2 ^ n =? 0); [reflexivity|].
  simpl. destruct (2 * (m mod 2 ^ n) ?= 2 ^ n); reflexivity.
Qed.

(** ** Integer rounding to nearest even *)

Section RneDiv.
Variables m n : Z.
Hypothesis Hm : 0 <= m.
Hypothesis Hn : 0 <= n.

Let Hp : 0 < 2 ^ n := pow2_gt0 n Hn.

Lemma rne_div_floor : m / 2 ^ n <= rne_div m n <= m / 2 ^ n + 1.
Proof.
  unfold rne_div. cbv zeta.
  destruct (m mod 2 ^ n =? 0); [lia|].
  destruct (2 * (m mod 2 ^ n) ?= 2 ^ n); try lia.
  destruct (Z.even (m / 2 ^ n)); lia.
Qed.

Lemma rne_div_nonneg : 0 <= rne_div m n.
Proof.
  pose proof rne_div_floor. pose proof (Z.div_pos m (2 ^ n) Hm Hp). lia.
Qed.

Lemma rne_div_exact : m mod 2 ^ n = 0 -> rne_div m n = m / 2 ^ n.
Proof. intros H. unfold rne_div. cbv zeta. rewrite H. reflexivity. Qed.

Lemma rne_div_upper (N : Z) : m <= N * 2 ^ n -> rne_div m n <= N.
Proof.
  intros H. unfold rne_div. cbv zeta.
  pose proof (Z.div_mod m (2 ^ n) ltac:(lia)) as Hdm.
  pose proof (Z.mod_pos_bound m (2 ^ n) Hp) as Hr.
  destruct (Z.eqb_spec (m mod 2 ^ n) 0) as [E|E]; [nia|].
  assert (m / 2 ^ n + 1 <= N) by nia.
  destruct (2 * (m mod 2 ^ n) ?= 2 ^ n); try lia.
  destruct (Z.even (m / 2 ^ n)); lia.
Qed.

Lemma rne_div_lower (N : Z) : N * 2 ^ n <= m -> N <= rne_div m n.
Proof.
  intros H. pose proof rne_div_floor.
  assert (N <= m / 2 ^ n) by (apply Z.div_le_lower_bound; lia). lia.
Qed.

Lemma rne_div_above_mid (N : Z) :
  (2 * N - 1) * 2 ^ n < 2 * m -> N <= rne_div m n.
Proof.
  intros H. unfold rne_div. cbv zeta.
  pose proof (Z.div_mod m (2 ^ n) ltac:(lia)) as Hdm.
  pose proof (Z.mod_pos_bound m (2 ^ n) Hp) as Hr.
  assert (Hq : N - 1 <= m / 2 ^ n) by nia.
  destruct (Z.eq_dec (m / 2 ^ n) (N - 1)) as [E|E].
  - assert (2 ^ n < 2 * (m mod 2 ^ n)) by nia.
    destruct (Z.eqb_spec (m mod 2 ^ n) 0) as [E0|E0]; [lia|].
    assert (Hc : (2 * (m mod 2 ^ n) ?= 2 ^ n) = Gt) by (apply Z.compare_gt_iff; lia).
    rewrite Hc. lia.
  - destruct (m mod 2 ^ n =? 0); [lia|].
    destruct (2 * (m mod 2 ^ n) ?= 2 ^ n); try lia.
    destruct (Z.even (m / 2 ^ n)); lia.
Qed.

Lemma rne_div_below_mid (N : Z) :
  2 * m < (2 * N + 1) * 2 ^ n -> rne_div m n <= N.
Proof.
  intros H. unfold rne_div. cbv zeta.
  pose proof (Z.div_mod m (2 ^ n) ltac:(lia)) as Hdm.
  pose proof (Z.mod_pos_bound m (2 ^ n) Hp) as Hr.
  assert (Hq : m / 2 ^ n <= N) by nia.
  destruct (Z.eq_dec (m / 2 ^ n) N) as [E|E].
  - assert (2 * (m mod 2 ^ n) < 2 ^ n) by nia.
    destruct (m mod 2 ^ n =? 0); [lia|].
    assert (Hc : (2 * (m mod 2 ^ n) ?= 2 ^ n) = Lt) by (apply Z.compare_lt_iff; lia).
    rewrite Hc. lia.
  - destruct (m mod 2 ^ n =? 0); [lia|].
    destruct (2 * (m mod 2 ^ n) ?= 2 ^ n); try lia.
    destruct (Z.even (m / 2 ^ n)); lia.
Qed.
End RneDiv.

Lemma rne_div_0 (m : Z) : rne_div m 0 = m.
Proof.
  unfold rne_div. cbv zeta. rewrite Z.pow_0_r, Z.mod_1_r, Z.div_1_r. reflexivity.
Qed.

Lemma pow2_pos (e : Z) : (0 < pow2 e)%Q.
Proof. unfold pow2. apply Qpower_0_lt. reflexivity. Qed.

Lemma pow2_add (a b : Z) : (pow2 (a + b) == pow2 a * pow2 b)%Q.
Proof. unfold pow2. apply Qpower_plus. discriminate. Qed.

Lemma pow2_inject (a : Z) : 0 <= a -> (pow2 a == inject_Z (2 ^ a))%Q.
Proof. intros H. unfold pow2. rewrite Zpower_Qpower by assumption. reflexivity. Qed.

Lemma dyadic_shift (a e k : Z) :
  k <= e -> (inject_Z a * pow2 e == inject_Z (a * 2 ^ (e - k)) * pow2 k)%Q.
Proof.
  intros H. replace e with ((e - k) + k) at 1 by lia.
  rewrite pow2_add, pow2_inject by lia. rewrite inject_Z_mult. ring.
Qed.

Lemma dyadic_compare (a b e f k : Z) :
  k <= e -> k <= f ->
  (inject_Z a * pow2 e ?= inject_Z b * pow2 f)%Q
  = (a * 2 ^ (e - k) ?= b * 2 ^ (f - k)).
Proof.
  intros He Hf.
  rewrite (Qcompare_comp _ _ (dyadic_shift a e k He) _ _ (dyadic_shift b f k Hf)).
  pose proof (pow2_pos k) as Hk.
  set (x := a * 2 ^ (e - k)). set (y := b * 2 ^ (f - k)).
  destruct (Z.compare_spec x y) as [E|E|E].
  - apply Qeq_alt. rewrite E. reflexivity.
  - apply Qlt_alt. apply Qmult_lt_compat_r; [exact Hk|]. rewrite <- Zlt_Qlt. exact E.
  - apply Qgt_alt. apply Qmult_lt_compat_r; [exact Hk|]. rewrite <- Zlt_Qlt. exact E.
Qed.

Lemma dyadic_le (a b e f k : Z) :
  k <= e -> k <= f ->
  (inject_Z a * pow2 e <= inject_Z b * pow2 f)%Q
  <-> a * 2 ^ (e - k) <= b * 2 ^ (f - k).
Proof.
  intros He Hf. rewrite Qle_alt, (dyadic_compare a b e f k He Hf).
  symmetry. apply Z.compare_le_iff.
Qed.

Lemma dyadic_lt (a b e f k : Z) :
  k <= e -> k <= f ->
  (inject_Z a * pow2 e < inject_Z b * pow2 f)%Q
  <-> a * 2 ^ (e - k) < b * 2 ^ (f - k).
Proof.
  intros He Hf. rewrite Qlt_alt, (dyadic_compare a b e f k He Hf).
  symmetry. apply Z.compare_lt_iff.
Qed.

Lemma pow2_as_dyadic (e : Z) : (pow2 e == inject_Z 1 * pow2 e)%Q.
Proof. change (inject_Z 1) with 1%Q. ring. Qed.

Lemma pow2_mono (a b : Z) : a <= b -> (pow2 a <= pow2 b)%Q.
Proof.
  intros H. rewrite (pow2_as_dyadic a), (pow2_as_dyadic b).
  apply (dyadic_le 1 1 a b a); try lia.
  rewrite Z.sub_diag, Z.pow_0_r. pose proof (pow2_gt0 (b - a) ltac:(lia)). lia.
Qed.

Lemma pow2_lt_inv_Q (a b : Z) : (pow2 a < pow2 b)%Q -> a < b.
Proof.
  intros H. destruct (Z.lt_ge_cases a b) as [Hlt|Hge]; [exact Hlt|].
  pose proof (pow2_mono b a Hge). lra.
Qed.

(** ** Sign symmetry of the comparison *)

Lemma SFcompare_opp (x y : spec_float) :
  SFcompare (SFopp x) (SFopp y) = SFcompare y x.
Proof.
  destruct x as [sx|sx| |sx mx ex], y as [sy|sy| |sy my ey]; simpl;
    try reflexivity; try (destruct sx; reflexivity); try (destruct sy; reflexivity);
    try (destruct sx, sy; reflexivity).
  destruct sx, sy; simpl; try reflexivity; f_equal;
    rewrite (Z.compare_antisym ey ex); destruct (ey ?= ex); simpl; try reflexivity.
  - rewrite (Pos.compare_cont_antisym my mx Eq). reflexivity.
  - rewrite (Pos.compare_cont_antisym mx my Eq). reflexivity.
Qed.

Lemma SFleb_opp (x y : spec_float) : SFleb (SFopp x) (SFopp y) = SFleb y x.
Proof. unfold SFleb. rewrite SFcompare_opp. reflexivity. Qed.

Lemma SFltb_opp (x y : spec_float) : SFltb (SFopp x) (SFopp y) = SFltb y x.
Proof. unfold SFltb. rewrite SFcompare_opp. reflexivity. Qed.

Lemma SFopp_involutive (x : spec_float) : SFopp (SFopp x) = x.
Proof. destruct x as [s|s| |s m e]; simpl; try rewrite negb_involutive; reflexivity. Qed.

Lemma B2Q_opp (x : spec_float) : (B2Q (SFopp x) == - B2Q x)%Q.
Proof.
  destruct x as [s|s| |s m e]; simpl; try reflexivity.
  destruct s; simpl; ring.
Qed.

Lemma is_finite_opp (x : spec_float) : is_finite (SFopp x) = is_finite x.
Proof. destruct x; reflexivity. Qed.

Lemma is_nan_opp (x : spec_float) : is_nan (SFopp x) = is_nan x.
Proof. destruct x; reflexivity. Qed.

Lemma SFleb_pinf (x : spec_float) :
  is_nan x = false -> SFleb x (S754_infinity false) = true.
Proof. destruct x as [s|s| |s m e]; try discriminate; try reflexivity; destruct s; reflexivity. Qed.

Lemma SFleb_ninf (x : spec_float) :
  is_nan x = false -> SFleb (S754_infinity true) x = true.
Proof. destruct x as [s|s| |s m e]; try discriminate; try reflexivity; destruct s; reflexivity. Qed.

(** ** Left shifts of the significand *)

Lemma iter_xO (m d : positive) : Zpos (Pos.iter xO m d) = Zpos m * 2 ^ Zpos d.
Proof.
  induction d as [|d IH] using Pos.peano_ind.
  - simpl. lia.
  - rewrite Pos.iter_succ, Pos2Z.inj_xO, IH, Pos2Z.inj_succ, Z.pow_succ_r by lia. lia.
Qed.

Lemma digits_shift (m m' : positive) (k : Z) :
  0 <= k -> Zpos m' = Zpos m * 2 ^ k -> digits m' = digits m + k.
Proof.
  intros Hk E. pose proof (digits_bounds m) as [Hlo Hhi]. pose proof (digits_pos m).
  pose proof (pow2_gt0 k Hk).
  apply digits_unique; [lia|]. rewrite E.
  replace (digits m + k - 1) with (digits m - 1 + k) by lia.
  rewrite !pow2_split by lia. nia.
Qed.

Lemma digits_mul_ge (m1 m2 : positive) :
  digits m1 + digits m2 - 1 <= digits (m1 * m2).
Proof.
  pose proof (digits_bounds m1) as [L1 _]. pose proof (digits_bounds m2) as [L2 _].
  pose proof (digits_pos m1). pose proof (digits_pos m2).
  destruct (Z.le_gt_cases (digits m1 + digits m2 - 1) (digits (m1 * m2))) as [Hle|Hgt];
    [exact Hle|exfalso].
  assert (Hlt : Zpos (m1 * m2) < 2 ^ (digits m1 + digits m2 - 2)).
  { apply digits_le_iff; lia. }
  replace (digits m1 + digits m2 - 2) with ((digits m1 - 1) + (digits m2 - 1)) in Hlt by lia.
  rewrite pow2_split in Hlt by lia. rewrite Pos2Z.inj_mul in Hlt.
  pose proof (pow2_gt0 (digits m1 - 1) ltac:(lia)).
  pose proof (pow2_gt0 (digits m2 - 1) ltac:(lia)). nia.
Qed.

Lemma finite_between (b1 r b2 : spec_float) :
  is_finite b1 = true -> is_finite b2 = true ->
  SFleb b1 r = true -> SFleb r b2 = true -> is_finite r = true.
Proof.
  destruct b1 as [s1|s1| |s1 m1 e1]; try discriminate;
  destruct b2 as [s2|s2| |s2 m2 e2]; try discriminate;
  destruct r as [s|s| |s m e]; try reflexivity; try discriminate;
  destruct s; try discriminate; intros _ _ H1 H2;
  try discriminate; try (destruct s1; discriminate); try (destruct s2; discriminate).
Qed.

Lemma rne_div_error (m n : Z) :
  0 <= m -> 0 <= n ->
  - 2 ^ n <= 2 * (rne_div m n * 2 ^ n - m) <= 2 ^ n.
Proof.
  intros Hm Hn. pose proof (pow2_gt0 n Hn) as Hp.
  unfold rne_div. cbv zeta.
  pose proof (Z.div_mod m (2 ^ n) ltac:(lia)) as Hdm.
  pose proof (Z.mod_pos_bound m (2 ^ n) Hp) as Hr.
  set (q := m / 2 ^ n) in *. set (r := m mod 2 ^ n) in *.
  destruct (Z.eqb_spec r 0) as [E|E]; [nia|].
  destruct (Z.compare_spec (2 * r) (2 ^ n)) as [C|C|C]; [|nia|nia].
  destruct (Z.even q); nia.
Qed.

(** ** [binary_round_aux] in closed form *)

Section Format.
Variables prec emax : Z.
Hypothesis Hprec : 0 < prec.

Abbreviation fexp := (SpecFloat.fexp prec emax).
Abbreviation emin := (SpecFloat.emin prec emax).
Abbreviation canonical := (IEEE.canonical prec emax).
Abbreviation round_result := (IEEE.round_result prec emax).
Abbreviation rounds_to := (IEEE.rounds_to prec emax).

Lemma fexp_ge_emin (e : Z) : emin <= fexp e.
Proof. unfold SpecFloat.fexp. lia. Qed.

Lemma fexp_ge (e : Z) : e - prec <= fexp e.
Proof. unfold SpecFloat.fexp. lia. Qed.

Lemma fexp_mono (a b : Z) : a <= b -> fexp a <= fexp b.
Proof. unfold SpecFloat.fexp. lia. Qed.

Lemma fexp_cases (e : Z) :
  (fexp e = e - prec /\ emin <= e - prec) \/ (fexp e = emin /\ e - prec <= emin).
Proof. unfold SpecFloat.fexp. lia. Qed.

Lemma shr_fexp_exact (m e : Z) :
  0 <= m ->
  let n := Z.max 0 (fexp (Zdigits2 m + e) - e) in
  shr_m (fst (shr_fexp prec emax m e loc_Exact)) = m / 2 ^ n /\
  loc_of_shr_record (fst (shr_fexp prec emax m e loc_Exact))
    = loc_of_rem (m mod 2 ^ n) n /\
  snd (shr_fexp prec emax m e loc_Exact) = e + n.
Proof.
  intros Hm n. unfold shr_fexp, shr. simpl shr_record_of_loc.
  subst n. destruct (fexp (Zdigits2 m + e) - e) as [|p|p] eqn:En.
  - simpl. rewrite Z.div_1_r, Z.mod_1_r. repeat split; lia.
  - replace (Z.max 0 (Zpos p)) with (Zpos p) by lia.
    destruct (shr_iter m p Hm) as [H1 H2]. simpl fst. simpl snd.
    repeat split; assumption.
  - replace (Z.max 0 (Zneg p)) with 0 by lia.
    simpl. rewrite Z.div_1_r, Z.mod_1_r. repeat split; lia.
Qed.

Lemma match_pos {A : Type} (z : Z) (f : positive -> A) (a b : A) :
  0 < z ->
  match z with Z0 => a | Zpos p => f p | Zneg _ => b end = f (Z.to_pos z).
Proof. destruct z; try lia. reflexivity. Qed.

Lemma quotient_lt_prec (m : positive) (n : Z) :
  0 <= n -> digits m - prec <= n -> Zpos m / 2 ^ n < 2 ^ prec.
Proof.
  intros Hn Hd. pose proof (digits_bounds m) as [_ Hhi].
  pose proof (digits_pos m) as Hdp.
  apply Z.div_lt_upper_bound; [apply pow2_gt0; lia|].
  rewrite <- pow2_split by lia.
  assert (2 ^ digits m <= 2 ^ (n + prec)) by (apply pow2_le_mono; lia). lia.
Qed.

Lemma quotient_ge_prec (m : positive) (n : Z) :
  0 <= n -> n = digits m - prec -> 2 ^ (prec - 1) <= Zpos m / 2 ^ n.
Proof.
  intros Hn Hd. pose proof (digits_bounds m) as [Hlo _].
  apply Z.div_le_lower_bound; [apply pow2_gt0; lia|].
  rewrite <- pow2_split by lia.
  replace (n + (prec - 1)) with (digits m - 1) by lia. exact Hlo.
Qed.

Lemma binary_round_aux_spec (s : bool) (m : positive) (e : Z) :
  e <= fexp (digits m + e) ->
  binary_round_aux prec emax s (Zpos m) e loc_Exact =
  round_result s (rne_div (Zpos m) (fexp (digits m + e) - e))
               (fexp (digits m + e)).
Proof.
  intros He. unfold binary_round_aux.
  destruct (shr_fexp_exact (Zpos m) e ltac:(lia)) as (H1 & H2 & H3).
  change (Zdigits2 (Zpos m)) with (digits m) in *.
  set (E := fexp (digits m + e)) in *.
  replace (Z.max 0 (E - e)) with (E - e) in * by lia.
  destruct (shr_fexp prec emax (Zpos m) e loc_Exact) as [mrs' e'].
  simpl fst in *. simpl snd in *.
  rewrite H1, H2, rne_of_loc. subst e'.
  replace (e + (E - e)) with E by lia.
  set (m1 := rne_div (Zpos m) (E - e)).
  assert (Hm1 : 0 <= m1 <= 2 ^ prec).
  { pose proof (rne_div_floor (Zpos m) (E - e)).
    pose proof (rne_div_nonneg (Zpos m) (E - e) ltac:(lia) ltac:(lia)).
    pose proof (quotient_lt_prec m (E - e) ltac:(lia)
                  ltac:(pose proof (fexp_ge (digits m + e)); lia)).
    fold m1 in H, H0. lia. }
  assert (HE : emin <= E) by apply fexp_ge_emin.
  destruct (shr_fexp_exact m1 E ltac:(lia)) as (G1 & G2 & G3).
  destruct (shr_fexp prec emax m1 E loc_Exact) as [mrs'' e''].
  simpl fst in *. simpl snd in *. rewrite G1. subst e''.
  unfold round_result.
  destruct m1 as [|p|p] eqn:Em1; try lia.
  - rewrite Z.div_0_l; [reflexivity|].
    apply Z.pow_nonzero; lia.
  - change (Zdigits2 (Zpos p)) with (digits p).
    destruct (Z.eqb_spec (Zpos p) (2 ^ prec)) as [Ep|Ep].
    + assert (Hd : digits p = prec + 1).
      { apply digits_unique; [lia|]. replace (prec + 1 - 1) with prec by lia.
        rewrite Ep. split; [lia|]. apply pow2_lt_mono; lia. }
      rewrite Hd.
      assert (Hf : fexp (prec + 1 + E) = E + 1)
        by (unfold SpecFloat.fexp in *; lia).
      rewrite Hf. replace (Z.max 0 (E + 1 - E)) with 1 by lia.
      assert (Hq : Zpos p / 2 ^ 1 = 2 ^ (prec - 1)).
      { rewrite Ep. replace prec with (prec - 1 + 1) at 1 by lia.
        rewrite pow2_split by lia. apply Z.div_mul. simpl; lia. }
      rewrite Hq. rewrite match_pos by (apply pow2_gt0; lia).
      reflexivity.
    + assert (Hd : digits p <= prec) by (apply digits_le_iff; lia).
      assert (Hf : fexp (digits p + E) <= E)
        by (unfold SpecFloat.fexp in *; lia).
      replace (Z.max 0 (fexp (digits p + E) - E)) with 0 by lia.
      rewrite Z.pow_0_r, Z.div_1_r, Z.add_0_r. reflexivity.
Qed.

Lemma bounded_canonical m e :
  bounded prec emax m e = true <-> canonical m e /\ e <= emax - prec.
Proof.
  unfold bounded, canonical_mantissa, canonical, digits.
  rewrite andb_true_iff, Z.eqb_eq, Z.leb_le. reflexivity.
Qed.

Lemma canonical_digits m e : canonical m e -> digits m <= prec /\ emin <= e.
Proof. unfold canonical, SpecFloat.fexp. lia. Qed.

Lemma canonical_normal m e :
  canonical m e -> emin < e -> digits m = prec.
Proof. unfold canonical, SpecFloat.fexp. lia. Qed.

(** Canonical representations are ordered by exponent first. *)
Lemma canonical_exp_lt m1 e1 m2 e2 :
  canonical m1 e1 -> canonical m2 e2 -> e1 < e2 ->
  Zpos m1 < Zpos m2 * 2 ^ (e2 - e1).
Proof.
  intros C1 C2 H.
  pose proof (canonical_digits _ _ C1) as [D1 E1].
  pose proof (canonical_normal _ _ C2 ltac:(lia)) as D2.
  pose proof (digits_bounds m1) as [_ B1].
  pose proof (digits_bounds m2) as [B2 _]. rewrite D2 in B2.
  pose proof (digits_pos m1).
  assert (2 ^ digits m1 <= 2 ^ prec) by (apply pow2_le_mono; lia).
  assert (2 ^ 1 <= 2 ^ (e2 - e1)) by (apply pow2_le_mono; lia).
  assert (2 ^ prec = 2 ^ (prec - 1) * 2 ^ 1) by (rewrite <- pow2_split by lia; f_equal; lia).
  nia.
Qed.

Lemma compare_canonical m1 e1 m2 e2 :
  canonical m1 e1 -> canonical m2 e2 ->
  match e1 ?= e2 with
  | Lt => Lt
  | Gt => Gt
  | Eq => Pos.compare_cont Eq m1 m2
  end = (inject_Z (Zpos m1) * pow2 e1 ?= inject_Z (Zpos m2) * pow2 e2)%Q.
Proof.
  intros C1 C2.
  rewrite (dyadic_compare _ _ e1 e2 (Z.min e1 e2)) by lia.
  destruct (Z.compare_spec e1 e2) as [E|E|E].
  - subst e2. rewrite Z.min_id, Z.sub_diag, Z.pow_0_r, !Z.mul_1_r. reflexivity.
  - replace (Z.min e1 e2) with e1 by lia.
    rewrite Z.sub_diag, Z.pow_0_r, Z.mul_1_r. symmetry.
    apply Z.compare_lt_iff. apply canonical_exp_lt; assumption.
  - replace (Z.min e1 e2) with e2 by lia.
    rewrite Z.sub_diag, Z.pow_0_r, Z.mul_1_r. symmetry.
    apply Z.compare_gt_iff. apply canonical_exp_lt; assumption.
Qed.

Lemma mag_pos m e : (0 < mag m e)%Q.
Proof.
  unfold mag. apply Qmult_lt_0_compat; [|apply pow2_pos].
  change 0%Q with (inject_Z 0). rewrite <- Zlt_Qlt. lia.
Qed.

Lemma B2Q_finite s m e :
  (B2Q (S754_finite s m e) == if s then - mag m e else mag m e)%Q.
Proof. unfold B2Q, mag. destruct s; ring. Qed.

Lemma Qcompare_lt (a b : Q) : (a < b)%Q -> (a ?= b)%Q = Lt.
Proof. intros H. apply Qlt_alt. exact H. Qed.

Lemma Qcompare_gt (a b : Q) : (b < a)%Q -> (a ?= b)%Q = Gt.
Proof. intros H. apply Qgt_alt. exact H. Qed.

Lemma Qcompare_opp (a b : Q) : (- a ?= - b)%Q = CompOpp (a ?= b)%Q.
Proof.
  destruct (Qcompare_spec a b) as [E|E|E]; simpl.
  - apply Qeq_alt. rewrite E. reflexivity.
  - apply Qcompare_gt. lra.
  - apply Qcompare_lt. lra.
Qed.

Lemma SFcompare_B2Q (x y : spec_float) :
  valid_binary prec emax x = true -> valid_binary prec emax y = true ->
  is_finite x = true -> is_finite y = true ->
  SFcompare x y = Some (B2Q x ?= B2Q y)%Q.
Proof.
  intros Vx Vy Fx Fy.
  destruct x as [sx|sx| |sx mx ex]; try discriminate;
  destruct y as [sy|sy| |sy my ey]; try discriminate.
  - reflexivity.
  - simpl SFcompare. f_equal. symmetry.
    rewrite (Qcompare_comp _ _ (Qeq_refl _) _ _ (B2Q_finite sy my ey)).
    pose proof (mag_pos my ey). simpl B2Q.
    destruct sy; [apply Qcompare_gt|apply Qcompare_lt]; lra.
  - simpl SFcompare. f_equal. symmetry.
    rewrite (Qcompare_comp _ _ (B2Q_finite sx mx ex) _ _ (Qeq_refl _)).
    pose proof (mag_pos mx ex). simpl B2Q.
    destruct sx; [apply Qcompare_lt|apply Qcompare_gt]; lra.
  - simpl in Vx, Vy.
    apply bounded_canonical in Vx, Vy. destruct Vx as [Cx _], Vy as [Cy _].
    rewrite (Qcompare_comp _ _ (B2Q_finite sx mx ex) _ _ (B2Q_finite sy my ey)).
    pose proof (mag_pos mx ex). pose proof (mag_pos my ey).
    pose proof (compare_canonical mx ex my ey Cx Cy) as Hc.
    fold (mag mx ex) in Hc. fold (mag my ey) in Hc.
    simpl SFcompare. f_equal.
    destruct sx, sy.
    + rewrite Qcompare_opp, <- Hc. destruct (ex ?= ey); reflexivity.
    + symmetry. apply Qcompare_lt. lra.
    + symmetry. apply Qcompare_gt. lra.
    + exact Hc.
Qed.

Lemma SFleb_B2Q (x y : spec_float) :
  valid_binary prec emax x = true -> valid_binary prec emax y = true ->
  is_finite x = true -> is_finite y = true ->
  (SFleb x y = true <-> (B2Q x <= B2Q y)%Q).
Proof.
  intros Vx Vy Fx Fy. unfold SFleb.
  rewrite (SFcompare_B2Q x y Vx Vy Fx Fy).
  destruct (Qcompare_spec (B2Q x) (B2Q y)) as [E|E|E]; split; intros H;
    try reflexivity; try discriminate; lra.
Qed.

Lemma SFltb_B2Q (x y : spec_float) :
  valid_binary prec emax x = true -> valid_binary prec emax y = true ->
  is_finite x = true -> is_finite y = true ->
  (SFltb x y = true <-> (B2Q x < B2Q y)%Q).
Proof.
  intros Vx Vy Fx Fy. unfold SFltb.
  rewrite (SFcompare_B2Q x y Vx Vy Fx Fy).
  destruct (Qcompare_spec (B2Q x) (B2Q y)) as [E|E|E]; split; intros H;
    try reflexivity; try discriminate; lra.
Qed.

Hypothesis Hmax : prec < emax.

Lemma emin_nonpos : emin <= 0.
Proof. unfold SpecFloat.emin. lia. Qed.

(** *** The result of rounding is a valid value of the format *)

Lemma round_result_valid (s : bool) (m1 E : Z) :
  0 <= m1 <= 2 ^ prec -> emin <= E ->
  (m1 < 2 ^ (prec - 1) -> E = emin) ->
  valid_binary prec emax (round_result s m1 E) = true.
Proof.
  intros Hm HE Hc. unfold round_result.
  destruct m1 as [|p|p]; try reflexivity.
  destruct (Z.eqb_spec (Zpos p) (2 ^ prec)) as [Ep|Ep].
  - destruct (Z.leb_spec (E + 1) (emax - prec)) as [Ho|Ho]; [|reflexivity].
    simpl. apply bounded_canonical. split; [|exact Ho].
    unfold canonical.
    assert (Hd : digits (Z.to_pos (2 ^ (prec - 1))) = prec).
    { apply digits_unique; [lia|].
      rewrite Z2Pos.id by (apply pow2_gt0; lia).
      split; [lia|]. apply pow2_lt_mono; lia. }
    rewrite Hd. unfold SpecFloat.fexp. lia.
  - destruct (Z.leb_spec E (emax - prec)) as [Ho|Ho]; [|reflexivity].
    simpl. apply bounded_canonical. split; [|exact Ho].
    unfold canonical.
    assert (Hd : digits p <= prec) by (apply digits_le_iff; lia).
    destruct (Z.lt_ge_cases (Zpos p) (2 ^ (prec - 1))) as [Hlt|Hge].
    + rewrite (Hc Hlt). unfold SpecFloat.fexp. lia.
    + assert (digits p = prec).
      { apply digits_unique; lia. }
      unfold SpecFloat.fexp. lia.
Qed.

Lemma round_result_not_nan (s : bool) (m1 E : Z) :
  0 <= m1 -> is_nan (round_result s m1 E) = false.
Proof.
  intros Hm. unfold round_result. destruct m1 as [|p|p]; try reflexivity; [|lia].
  destruct (Zpos p =? 2 ^ prec);
    [destruct (E + 1 <=? emax - prec)|destruct (E <=? emax - prec)]; reflexivity.
Qed.

(** The significand obtained from a canonical exponent. *)
Lemma rne_canonical (m : positive) (e : Z) :
  e <= fexp (digits m + e) ->
  let E := fexp (digits m + e) in
  let m1 := rne_div (Zpos m) (E - e) in
  0 <= m1 <= 2 ^ prec /\ emin <= E /\ (m1 < 2 ^ (prec - 1) -> E = emin).
Proof.
  intros He E m1.
  pose proof (rne_div_floor (Zpos m) (E - e)) as Hfl.
  pose proof (rne_div_nonneg (Zpos m) (E - e) ltac:(lia) ltac:(lia)) as Hnn.
  pose proof (quotient_lt_prec m (E - e) ltac:(lia)
                ltac:(pose proof (fexp_ge (digits m + e)); lia)) as Hq.
  fold m1 in Hfl, Hnn.
  split; [lia|]. split; [apply fexp_ge_emin|].
  intros Hlt. destruct (fexp_cases (digits m + e)) as [[H1 H2]|[H1 H2]];
    [|exact H1].
  pose proof (quotient_ge_prec m (E - e) ltac:(lia) ltac:(unfold E; lia)).
  lia.
Qed.

Lemma binary_round_aux_valid (s : bool) (m : positive) (e : Z) :
  e <= fexp (digits m + e) ->
  valid_binary prec emax (binary_round_aux prec emax s (Zpos m) e loc_Exact) = true
  /\ is_nan (binary_round_aux prec emax s (Zpos m) e loc_Exact) = false.
Proof.
  intros He. rewrite (binary_round_aux_spec s m e He).
  destruct (rne_canonical m e He) as (H1 & H2 & H3).
  split; [apply round_result_valid; assumption|apply round_result_not_nan; lia].
Qed.

(** *** Magnitudes and digits *)

Lemma mag_digits_lo (m : positive) (e : Z) : (pow2 (digits m - 1 + e) <= mag m e)%Q.
Proof.
  unfold mag. rewrite (pow2_as_dyadic (digits m - 1 + e)).
  pose proof (digits_bounds m) as [Hlo _]. pose proof (digits_pos m).
  apply (dyadic_le _ _ _ _ e); try lia.
  rewrite Z.sub_diag, Z.pow_0_r.
  replace (digits m - 1 + e - e) with (digits m - 1) by lia. lia.
Qed.

Lemma mag_digits_hi (m : positive) (e : Z) : (mag m e < pow2 (digits m + e))%Q.
Proof.
  unfold mag. rewrite (pow2_as_dyadic (digits m + e)).
  pose proof (digits_bounds m) as [_ Hhi]. pose proof (digits_pos m).
  apply (dyadic_lt _ _ _ _ e); try lia.
  rewrite Z.sub_diag, Z.pow_0_r.
  replace (digits m + e - e) with (digits m) by lia. lia.
Qed.

Lemma mag_le_digits (m1 : positive) (e1 : Z) (m2 : positive) (e2 : Z) :
  (mag m1 e1 <= mag m2 e2)%Q -> digits m1 + e1 <= digits m2 + e2.
Proof.
  intros H. pose proof (mag_digits_lo m1 e1). pose proof (mag_digits_hi m2 e2).
  assert (Hlt : (pow2 (digits m1 - 1 + e1) < pow2 (digits m2 + e2))%Q) by lra.
  apply pow2_lt_inv_Q in Hlt. lia.
Qed.

Lemma canonical_lt_emax (m : positive) (e : Z) :
  canonical m e -> e <= emax - prec -> (mag m e < pow2 emax)%Q.
Proof.
  intros C He. pose proof (mag_digits_hi m e).
  pose proof (canonical_digits m e C) as [Hd _].
  pose proof (pow2_mono (digits m + e) emax ltac:(lia)). lra.
Qed.

(** *** Value of [round_result] *)

Lemma round_result_zero (s : bool) (E : Z) : round_result s 0 E = S754_zero s.
Proof. reflexivity. Qed.

Lemma round_result_value (s : bool) (m1 E : Z) :
  0 < m1 <= 2 ^ prec ->
  is_finite (round_result s m1 E) = true ->
  (B2Q (SFabs (round_result s m1 E)) == inject_Z m1 * pow2 E)%Q.
Proof.
  intros Hm. unfold round_result. destruct m1 as [|p|p]; try lia.
  destruct (Z.eqb_spec (Zpos p) (2 ^ prec)) as [Ep|Ep].
  - destruct (E + 1 <=? emax - prec); [|discriminate]. intros _.
    simpl SFabs. unfold B2Q. rewrite Z2Pos.id by (apply pow2_gt0; lia).
    rewrite Ep. rewrite <- !pow2_inject by lia. rewrite <- !pow2_add.
    replace (prec - 1 + (E + 1)) with (prec + E) by lia. reflexivity.
  - destruct (E <=? emax - prec); [|discriminate]. intros _. reflexivity.
Qed.

Lemma round_result_overflow (s : bool) (m1 E : Z) :
  0 < m1 <= 2 ^ prec -> (m1 < 2 ^ (prec - 1) -> E = emin) ->
  is_finite (round_result s m1 E) = false ->
  round_result s m1 E = S754_infinity s /\ (pow2 emax <= inject_Z m1 * pow2 E)%Q.
Proof.
  intros Hm Hc. unfold round_result. destruct m1 as [|p|p]; try lia.
  pose proof emin_nonpos as Hemin.
  destruct (Z.eqb_spec (Zpos p) (2 ^ prec)) as [Ep|Ep].
  - destruct (Z.leb_spec (E + 1) (emax - prec)) as [Ho|Ho]; [discriminate|].
    intros _. split; [reflexivity|].
    rewrite Ep, <- pow2_inject, <- pow2_add by lia. apply pow2_mono. lia.
  - destruct (Z.leb_spec E (emax - prec)) as [Ho|Ho]; [discriminate|].
    intros _. split; [reflexivity|].
    assert (Hge : 2 ^ (prec - 1) <= Zpos p).
    { destruct (Z.lt_ge_cases (Zpos p) (2 ^ (prec - 1))) as [Hlt|Hge]; [|exact Hge].
      specialize (Hc Hlt). unfold SpecFloat.emin in *. lia. }
    rewrite (pow2_as_dyadic emax).
    apply (dyadic_le _ _ _ _ (emax - prec + 1)); try lia.
    replace (emax - (emax - prec + 1)) with (prec - 1) by lia.
    pose proof (pow2_gt0 (prec - 1) ltac:(lia)).
    assert (1 <= 2 ^ (E - (emax - prec + 1))) by (pose proof (pow2_gt0 (E - (emax - prec + 1)) ltac:(lia)); lia).
    nia.
Qed.

(** *** Rounding never crosses a representable bound *)

Lemma round_aux_upper (s : bool) (m : positive) (e : Z) (mb : positive) (eb : Z) :
  e <= fexp (digits m + e) ->
  canonical mb eb -> eb <= emax - prec ->
  (mag m e <= mag mb eb)%Q ->
  let r := binary_round_aux prec emax s (Zpos m) e loc_Exact in
  is_finite r = true /\ (B2Q (SFabs r) <= mag mb eb)%Q.
Proof.
  intros He Cb Hb Hle r. subst r. rewrite binary_round_aux_spec by exact He.
  destruct (rne_canonical m e He) as (H1 & H2 & H3). cbv zeta in *.
  set (E := fexp (digits m + e)) in *.
  set (m1 := rne_div (Zpos m) (E - e)) in *.
  assert (HEb : E <= eb).
  { pose proof (mag_le_digits _ _ _ _ Hle). unfold E.
    rewrite <- Cb. apply fexp_mono. lia. }
  assert (Hm1 : m1 <= Zpos mb * 2 ^ (eb - E)).
  { apply rne_div_upper; [lia|]. unfold mag in Hle.
    apply (dyadic_le _ _ _ _ e) in Hle; try lia.
    rewrite Z.sub_diag, Z.pow_0_r, Z.mul_1_r in Hle.
    rewrite <- Z.mul_assoc, <- pow2_split by lia.
    replace (eb - E + (E - e)) with (eb - e) by lia. exact Hle. }
  assert (Hval : (inject_Z m1 * pow2 E <= mag mb eb)%Q).
  { unfold mag. apply (dyadic_le _ _ _ _ E); try lia.
    rewrite Z.sub_diag, Z.pow_0_r, Z.mul_1_r. exact Hm1. }
  destruct (Z.eq_dec m1 0) as [Hz|Hnz].
  - rewrite Hz. simpl. split; [reflexivity|]. pose proof (mag_pos mb eb). lra.
  - destruct (is_finite (round_result s m1 E)) eqn:Fin.
    + split; [reflexivity|]. rewrite round_result_value by (lia || assumption).
      exact Hval.
    + exfalso.
      destruct (round_result_overflow s m1 E ltac:(lia) H3 Fin) as [_ Hov].
      pose proof (canonical_lt_emax mb eb Cb Hb). lra.
Qed.

Lemma round_aux_lower (s : bool) (m : positive) (e : Z) (mb : positive) (eb : Z) :
  e <= fexp (digits m + e) ->
  canonical mb eb ->
  (mag mb eb <= mag m e)%Q ->
  let r := binary_round_aux prec emax s (Zpos m) e loc_Exact in
  r = S754_infinity s \/
  (is_finite r = true /\ (mag mb eb <= B2Q (SFabs r))%Q).
Proof.
  intros He Cb Hle r. subst r. rewrite binary_round_aux_spec by exact He.
  destruct (rne_canonical m e He) as (H1 & H2 & H3). cbv zeta in *.
  set (E := fexp (digits m + e)) in *.
  set (m1 := rne_div (Zpos m) (E - e)) in *.
  assert (HEb : eb <= E).
  { pose proof (mag_le_digits _ _ _ _ Hle). unfold E.
    rewrite <- Cb. apply fexp_mono. lia. }
  pose proof (canonical_digits mb eb Cb) as [Hdb Heb].
  assert (Hm1 : Zpos mb <= m1 * 2 ^ (E - eb)).
  { destruct (Z.eq_dec eb E) as [Heq|Hne].
    - rewrite Heq, Z.sub_diag, Z.pow_0_r, Z.mul_1_r.
      apply rne_div_lower; [lia|]. unfold mag in Hle.
      apply (dyadic_le _ _ _ _ e) in Hle; try lia.
      rewrite Z.sub_diag, Z.pow_0_r, Z.mul_1_r in Hle.
      rewrite Heq in Hle. exact Hle.
    - assert (Hge : 2 ^ (prec - 1) <= m1).
      { destruct (Z.lt_ge_cases m1 (2 ^ (prec - 1))) as [Hlt|Hge]; [|exact Hge].
        specialize (H3 Hlt). lia. }
      assert (Hmb : Zpos mb < 2 ^ prec) by (apply digits_le_iff; lia).
      assert (2 ^ 1 <= 2 ^ (E - eb)) by (apply pow2_le_mono; lia).
      assert (2 ^ prec = 2 ^ (prec - 1) * 2 ^ 1)
        by (rewrite <- pow2_split by lia; f_equal; lia).
      nia. }
  assert (Hpos : 0 < m1).
  { pose proof (pow2_gt0 (E - eb) ltac:(lia)). nia. }
  assert (Hval : (mag mb eb <= inject_Z m1 * pow2 E)%Q).
  { unfold mag. apply (dyadic_le _ _ _ _ eb); try lia.
    rewrite Z.sub_diag, Z.pow_0_r, Z.mul_1_r. exact Hm1. }
  destruct (is_finite (round_result s m1 E)) eqn:Fin.
  - right. split; [reflexivity|].
    rewrite round_result_value by (lia || assumption). exact Hval.
  - left. apply (round_result_overflow s m1 E ltac:(lia) H3 Fin).
Qed.

(** Sign of the result. *)
Lemma round_result_sign (s : bool) (m1 E : Z) :
  0 <= m1 ->
  round_result s m1 E = (if s then SFopp (round_result false m1 E)
                         else round_result false m1 E).
Proof.
  intros Hm. unfold round_result. destruct m1 as [|p|p]; try lia.
  - destruct s; reflexivity.
  - destruct s; [|reflexivity].
    destruct (Zpos p =? 2 ^ prec);
      [destruct (E + 1 <=? emax - prec)|destruct (E <=? emax - prec)]; reflexivity.
Qed.

Lemma valid_opp (x : spec_float) :
  valid_binary prec emax (SFopp x) = valid_binary prec emax x.
Proof. destruct x; reflexivity. Qed.

Lemma rounds_to_opp (p : Q) (r : spec_float) :
  rounds_to p r -> rounds_to (- p) (SFopp r).
Proof.
  intros (V & N & H). split; [rewrite valid_opp; exact V|].
  split; [rewrite is_nan_opp; exact N|].
  intros b Vb Fb.
  destruct (H (SFopp b)) as [Hu Hl];
    [rewrite valid_opp; exact Vb|rewrite is_finite_opp; exact Fb|].
  rewrite B2Q_opp in Hu, Hl.
  split; intros Hp.
  - rewrite <- (SFopp_involutive b), SFleb_opp. apply Hl. lra.
  - rewrite <- (SFopp_involutive b), SFleb_opp. apply Hu. lra.
Qed.

Lemma rounds_to_eq (p q : Q) (r : spec_float) :
  (p == q)%Q -> rounds_to p r -> rounds_to q r.
Proof.
  intros E (V & N & H). split; [exact V|]. split; [exact N|].
  intros b Vb Fb. destruct (H b Vb Fb) as [Hu Hl].
  split; intros Hp; [apply Hu|apply Hl]; lra.
Qed.

Lemma round_result_pos_form (m1 E : Z) :
  0 <= m1 ->
  let r := round_result false m1 E in
  r = S754_infinity false \/
  (is_finite r = true /\ SFabs r = r /\ (0 <= B2Q r)%Q).
Proof.
  intros Hm. unfold round_result. destruct m1 as [|p|p]; try lia.
  - right. repeat split; simpl; lra.
  - assert (Hf : forall q e, (0 <= B2Q (S754_finite false q e))%Q).
    { intros q e. rewrite B2Q_finite. pose proof (mag_pos q e). lra. }
    destruct (Zpos p =? 2 ^ prec);
      [destruct (E + 1 <=? emax - prec)|destruct (E <=? emax - prec)];
      (left; reflexivity) || (right; repeat split; apply Hf).
Qed.

Lemma round_aux_rounds_pos (m : positive) (e : Z) :
  e <= fexp (digits m + e) ->
  rounds_to (mag m e) (binary_round_aux prec emax false (Zpos m) e loc_Exact).
Proof.
  intros He.
  destruct (binary_round_aux_valid false m e He) as [V N].
  split; [exact V|]. split; [exact N|].
  intros b Vb Fb.
  pose proof (round_aux_upper false m e) as HU.
  pose proof (round_aux_lower false m e) as HL.
  cbv zeta in HU, HL.
  set (r := binary_round_aux prec emax false (Zpos m) e loc_Exact) in *.
  assert (Hform : r = S754_infinity false \/
                  (is_finite r = true /\ SFabs r = r /\ (0 <= B2Q r)%Q)).
  { unfold r. rewrite binary_round_aux_spec by exact He.
    apply round_result_pos_form.
    destruct (rne_canonical m e He) as (H1 & _). cbv zeta in H1. lia. }
  pose proof (mag_pos m e) as Hp.
  destruct b as [sb|sb| |sb mb eb]; try discriminate.
  - simpl B2Q. split; intros Hb; [lra|].
    destruct Hform as [Hi|(Hf & _ & H0)].
    + rewrite Hi. reflexivity.
    + apply SFleb_B2Q; try assumption; simpl B2Q; lra.
  - simpl in Vb. apply bounded_canonical in Vb as Hcb. destruct Hcb as [Cb Eb].
    pose proof (mag_pos mb eb) as Hpb.
    split; intros Hb; rewrite B2Q_finite in Hb.
    + destruct sb; [lra|].
      destruct (HU mb eb He Cb Eb Hb) as [Hf Hle].
      apply SFleb_B2Q; try assumption.
      destruct Hform as [Hi|(_ & Ha & _)]; [rewrite Hi in Hf; discriminate|].
      rewrite Ha in Hle. rewrite B2Q_finite. exact Hle.
    + destruct Hform as [Hi|(Hf & Ha & H0)]; [rewrite Hi; destruct sb; reflexivity|].
      apply SFleb_B2Q; try assumption. rewrite B2Q_finite.
      destruct sb; [lra|].
      destruct (HL mb eb He Cb Hb) as [Hi|[_ Hle]];
        [rewrite Hi in Hf; discriminate|].
      rewrite Ha in Hle. exact Hle.
Qed.

Lemma round_aux_rounds (s : bool) (m : positive) (e : Z) :
  e <= fexp (digits m + e) ->
  rounds_to (if s then - mag m e else mag m e)%Q
            (binary_round_aux prec emax s (Zpos m) e loc_Exact).
Proof.
  intros He. destruct s; [|apply round_aux_rounds_pos; exact He].
  pose proof (round_aux_rounds_pos m e He) as H.
  apply rounds_to_opp in H.
  rewrite binary_round_aux_spec in H |- * by exact He.
  rewrite (round_result_sign true).
  - exact H.
  - destruct (rne_canonical m e He) as (H1 & _). cbv zeta in H1. lia.
Qed.

(** *** The operations round correctly *)

Lemma rounds_to_self (r : spec_float) :
  valid_binary prec emax r = true -> is_finite r = true -> rounds_to (B2Q r) r.
Proof.
  intros V F. split; [exact V|]. split; [destruct r; try discriminate; reflexivity|].
  intros b Vb Fb. split; intros H; apply SFleb_B2Q; assumption.
Qed.

Lemma rounds_to_zero (s : bool) (p : Q) : (p == 0)%Q -> rounds_to p (S754_zero s).
Proof.
  intros E. apply rounds_to_eq with (B2Q (S754_zero s)).
  - simpl. symmetry. exact E.
  - apply rounds_to_self; reflexivity.
Qed.

Lemma rounds_to_finite (p : Q) (r b1 b2 : spec_float) :
  rounds_to p r ->
  valid_binary prec emax b1 = true -> is_finite b1 = true ->
  valid_binary prec emax b2 = true -> is_finite b2 = true ->
  (B2Q b1 <= p)%Q -> (p <= B2Q b2)%Q ->
  is_finite r = true /\ (B2Q b1 <= B2Q r <= B2Q b2)%Q.
Proof.
  intros (V & N & H) V1 F1 V2 F2 H1 H2.
  destruct (H b1 V1 F1) as [_ L1]. destruct (H b2 V2 F2) as [U2 _].
  specialize (L1 H1). specialize (U2 H2).
  assert (F : is_finite r = true) by (apply (finite_between b1 r b2); assumption).
  split; [exact F|]. split; apply SFleb_B2Q; assumption.
Qed.

Lemma shl_align_spec (m : positive) (e e' : Z) :
  let '(mz, ez) := shl_align m e e' in
  ez = Z.min e e' /\ Zpos mz = Zpos m * 2 ^ (e - ez).
Proof.
  unfold shl_align. destruct (e' - e) as [|d|d] eqn:Ed.
  - split; [lia|]. replace (e - e) with 0 by lia. lia.
  - split; [lia|]. replace (e - e) with 0 by lia. lia.
  - split; [lia|]. rewrite iter_xO. f_equal. f_equal. lia.
Qed.

Lemma binary_round_rounds (s : bool) (m : positive) (e : Z) :
  rounds_to (if s then - mag m e else mag m e)%Q (binary_round prec emax s m e).
Proof.
  unfold binary_round. change (Zpos (digits2_pos m)) with (digits m).
  pose proof (shl_align_spec m e (fexp (digits m + e))) as Hs.
  destruct (shl_align m e (fexp (digits m + e))) as [mz ez].
  destruct Hs as [Hez Hmz].
  assert (Hd : digits mz = digits m + (e - ez)) by (apply digits_shift; [lia|exact Hmz]).
  assert (Hmag : (mag mz ez == mag m e)%Q).
  { unfold mag. rewrite Hmz. symmetry. apply dyadic_shift. lia. }
  apply rounds_to_eq with (if s then - mag mz ez else mag mz ez)%Q.
  - destruct s; rewrite Hmag; reflexivity.
  - apply round_aux_rounds. rewrite Hd.
    replace (digits m + (e - ez) + ez) with (digits m + e) by lia. lia.
Qed.

Lemma mul_exp_le (mx : positive) (ex : Z) (my : positive) (ey : Z) :
  canonical mx ex -> canonical my ey ->
  ex + ey <= fexp (digits (mx * my) + (ex + ey)).
Proof.
  intros Cx Cy. pose proof (digits_mul_ge mx my) as Hd.
  pose proof (digits_pos mx). pose proof (digits_pos my).
  pose proof emin_nonpos.
  unfold canonical, SpecFloat.fexp in *. lia.
Qed.

Lemma SFmul_rounds (x y : spec_float) :
  valid_binary prec emax x = true -> valid_binary prec emax y = true ->
  is_finite x = true -> is_finite y = true ->
  rounds_to (B2Q x * B2Q y)%Q (SFmul prec emax x y).
Proof.
  intros Vx Vy Fx Fy.
  destruct x as [sx|sx| |sx mx ex]; try discriminate;
  destruct y as [sy|sy| |sy my ey]; try discriminate;
  try (apply rounds_to_zero; simpl; ring).
  simpl in Vx, Vy. apply bounded_canonical in Vx, Vy.
  destruct Vx as [Cx _], Vy as [Cy _].
  simpl SFmul.
  apply rounds_to_eq with
    (if xorb sx sy then - mag (mx * my) (ex + ey) else mag (mx * my) (ex + ey))%Q.
  - rewrite !B2Q_finite.
    assert (Hm : (mag (mx * my) (ex + ey) == mag mx ex * mag my ey)%Q).
    { unfold mag. rewrite Pos2Z.inj_mul, inject_Z_mult, pow2_add. ring. }
    destruct sx, sy; simpl xorb; cbv iota; rewrite Hm; ring.
  - apply round_aux_rounds. apply mul_exp_le; assumption.
Qed.

Lemma binary_normalize_rounds (M e : Z) (sz : bool) :
  rounds_to (inject_Z M * pow2 e)%Q (binary_normalize prec emax M e sz).
Proof.
  destruct M as [|p|p]; simpl binary_normalize.
  - apply rounds_to_zero. ring.
  - apply (binary_round_rounds false).
  - apply rounds_to_eq with (- mag p e)%Q; [|apply (binary_round_rounds true)].
    unfold mag. change (Zneg p) with (- Zpos p). rewrite inject_Z_opp. ring.
Qed.

Lemma SFadd_rounds (x y : spec_float) :
  valid_binary prec emax x = true -> valid_binary prec emax y = true ->
  is_finite x = true -> is_finite y = true ->
  rounds_to (B2Q x + B2Q y)%Q (SFadd prec emax x y).
Proof.
  intros Vx Vy Fx Fy.
  destruct x as [sx|sx| |sx mx ex]; try discriminate;
  destruct y as [sy|sy| |sy my ey]; try discriminate.
  - simpl SFadd. destruct sx, sy; apply rounds_to_zero; simpl; ring.
  - simpl SFadd. apply rounds_to_eq with (B2Q (S754_finite sy my ey)).
    + simpl. ring.
    + apply rounds_to_self; assumption.
  - simpl SFadd. apply rounds_to_eq with (B2Q (S754_finite sx mx ex)).
    + simpl. ring.
    + apply rounds_to_self; assumption.
  - unfold SFadd.
    pose proof (shl_align_spec mx ex (Z.min ex ey)) as Hx.
    pose proof (shl_align_spec my ey (Z.min ex ey)) as Hy.
    destruct (shl_align mx ex (Z.min ex ey)) as [mx' ex'].
    destruct (shl_align my ey (Z.min ex ey)) as [my' ey'].
    destruct Hx as [Hex Hmx], Hy as [Hey Hmy]. simpl fst.
    eapply rounds_to_eq; [|apply binary_normalize_rounds].
    replace ex' with (Z.min ex ey) in Hmx by lia.
    replace ey' with (Z.min ex ey) in Hmy by lia.
    assert (Ex : (mag mx ex == inject_Z (Zpos mx') * pow2 (Z.min ex ey))%Q).
    { unfold mag. rewrite Hmx. apply dyadic_shift. lia. }
    assert (Ey : (mag my ey == inject_Z (Zpos my') * pow2 (Z.min ex ey))%Q).
    { unfold mag. rewrite Hmy. apply dyadic_shift. lia. }
    rewrite !B2Q_finite.
    destruct sx, sy; unfold cond_Zopp; rewrite Ex, Ey, inject_Z_plus, ?inject_Z_opp; ring.
Qed.

(** *** Half-unit error bound *)

Abbreviation round_error := (IEEE.round_error prec emax).

Lemma round_error_opp (p : Q) (r : spec_float) :
  round_error p r -> round_error (- p) (SFopp r).
Proof.
  intros H F k Hk. rewrite is_finite_opp in F.
  specialize (H F k ltac:(lra)). rewrite B2Q_opp. lra.
Qed.

Lemma round_error_eq (p q : Q) (r : spec_float) :
  (p == q)%Q -> round_error p r -> round_error q r.
Proof. intros E H F k Hk. specialize (H F k ltac:(lra)). lra. Qed.

Lemma round_error_exact (p : Q) (r : spec_float) :
  (p == B2Q r)%Q -> round_error p r.
Proof.
  intros E F k Hk. pose proof (pow2_pos (fexp k - 1)). lra.
Qed.

Lemma round_aux_error_pos (m : positive) (e : Z) :
  e <= fexp (digits m + e) ->
  round_error (mag m e) (binary_round_aux prec emax false (Zpos m) e loc_Exact).
Proof.
  intros He F k Hk. rewrite binary_round_aux_spec in F |- * by exact He.
  destruct (rne_canonical m e He) as (H1 & H2 & H3). cbv zeta in *.
  set (E := fexp (digits m + e)) in *.
  set (m1 := rne_div (Zpos m) (E - e)) in *.
  assert (HEk : E <= fexp k).
  { apply fexp_mono. pose proof (mag_digits_lo m e).
    assert (Hlt : (pow2 (digits m - 1 + e) < pow2 k)%Q) by lra.
    apply pow2_lt_inv_Q in Hlt. lia. }
  pose proof (pow2_mono (E - 1) (fexp k - 1) ltac:(lia)) as Hmono.
  assert (Hval : (B2Q (round_result false m1 E) == inject_Z m1 * pow2 E)%Q).
  { destruct (Z.eq_dec m1 0) as [Hz|Hnz].
    - rewrite Hz. simpl. ring.
    - destruct (round_result_pos_form m1 E ltac:(lia)) as [Hi|(_ & Ha & _)].
      + rewrite Hi in F. discriminate.
      + rewrite <- Ha at 1. apply round_result_value; [lia|exact F]. }
  rewrite Hval. unfold mag.
  pose proof (rne_div_error (Zpos m) (E - e) ltac:(lia) ltac:(lia)) as Herr.
  fold m1 in Herr.
  assert (Hsplit : forall x : Z,
    (inject_Z x * pow2 (E - 1) == inject_Z (x * 2 ^ (E - e)) * pow2 (e - 1))%Q).
  { intros x. rewrite (dyadic_shift x (E - 1) (e - 1)) by lia.
    replace (E - 1 - (e - 1)) with (E - e) by lia. reflexivity. }
  assert (HE : (inject_Z m1 * pow2 E == inject_Z (2 * (m1 * 2 ^ (E - e))) * pow2 (e - 1))%Q).
  { rewrite (dyadic_shift m1 E (e - 1)) by lia.
    replace (E - (e - 1)) with (E - e + 1) by lia.
    rewrite pow2_split by lia. apply Qmult_comp; [|reflexivity].
    apply inject_Z_injective. rewrite ?Z.pow_1_r. ring. }
  assert (Hm : (inject_Z (Zpos m) * pow2 e == inject_Z (2 * Zpos m) * pow2 (e - 1))%Q).
  { rewrite (dyadic_shift (Zpos m) e (e - 1)) by lia.
    replace (e - (e - 1)) with 1 by lia. apply Qmult_comp; [|reflexivity].
    apply inject_Z_injective. rewrite ?Z.pow_1_r. ring. }
  assert (Hh : (pow2 (E - 1) == inject_Z (2 ^ (E - e)) * pow2 (e - 1))%Q).
  { rewrite (pow2_as_dyadic (E - 1)), Hsplit. rewrite Z.mul_1_l. reflexivity. }
  rewrite HE, Hm.
  pose proof (pow2_pos (e - 1)) as Hpp.
  assert (Hlo : (inject_Z (2 * Zpos m) - inject_Z (2 ^ (E - e))
                 <= inject_Z (2 * (m1 * 2 ^ (E - e))))%Q).
  { unfold Qminus. rewrite <- inject_Z_opp, <- inject_Z_plus, <- Zle_Qle. lia. }
  assert (Hhi : (inject_Z (2 * (m1 * 2 ^ (E - e)))
                 <= inject_Z (2 * Zpos m) + inject_Z (2 ^ (E - e)))%Q).
  { rewrite <- inject_Z_plus, <- Zle_Qle. lia. }
  rewrite Hh in Hmono.
  set (X := pow2 (e - 1)) in *. set (A := inject_Z (2 * (m1 * 2 ^ (E - e)))) in *.
  set (B := inject_Z (2 * Zpos m)) in *. set (C := inject_Z (2 ^ (E - e))) in *.
  split; nra.
Qed.

Lemma round_aux_error (s : bool) (m : positive) (e : Z) :
  e <= fexp (digits m + e) ->
  round_error (if s then - mag m e else mag m e)%Q
              (binary_round_aux prec emax s (Zpos m) e loc_Exact).
Proof.
  intros He. destruct s; [|apply round_aux_error_pos; exact He].
  pose proof (round_aux_error_pos m e He) as H.
  apply round_error_opp in H.
  rewrite binary_round_aux_spec in H |- * by exact He.
  rewrite (round_result_sign true).
  - exact H.
  - destruct (rne_canonical m e He) as (H1 & _). cbv zeta in H1. lia.
Qed.

Lemma binary_round_error (s : bool) (m : positive) (e : Z) :
  round_error (if s then - mag m e else mag m e)%Q (binary_round prec emax s m e).
Proof.
  unfold binary_round. change (Zpos (digits2_pos m)) with (digits m).
  pose proof (shl_align_spec m e (fexp (digits m + e))) as Hs.
  destruct (shl_align m e (fexp (digits m + e))) as [mz ez].
  destruct Hs as [Hez Hmz].
  assert (Hd : digits mz = digits m + (e - ez)) by (apply digits_shift; [lia|exact Hmz]).
  assert (Hmag : (mag mz ez == mag m e)%Q).
  { unfold mag. rewrite Hmz. symmetry. apply dyadic_shift. lia. }
  apply round_error_eq with (if s then - mag mz ez else mag mz ez)%Q.
  - destruct s; rewrite Hmag; reflexivity.
  - apply round_aux_error. rewrite Hd.
    replace (digits m + (e - ez) + ez) with (digits m + e) by lia. lia.
Qed.

Lemma SFmul_error (x y : spec_float) :
  valid_binary prec emax x = true -> valid_binary prec emax y = true ->
  is_finite x = true -> is_finite y = true ->
  round_error (B2Q x * B2Q y)%Q (SFmul prec emax x y).
Proof.
  intros Vx Vy Fx Fy.
  destruct x as [sx|sx| |sx mx ex]; try discriminate;
  destruct y as [sy|sy| |sy my ey]; try discriminate;
  try (apply round_error_exact; simpl; ring).
  simpl in Vx, Vy. apply bounded_canonical in Vx, Vy.
  destruct Vx as [Cx _], Vy as [Cy _].
  simpl SFmul.
  apply round_error_eq with
    (if xorb sx sy then - mag (mx * my) (ex + ey) else mag (mx * my) (ex + ey))%Q.
  - rewrite !B2Q_finite.
    assert (Hm : (mag (mx * my) (ex + ey) == mag mx ex * mag my ey)%Q).
    { unfold mag. rewrite Pos2Z.inj_mul, inject_Z_mult, pow2_add. ring. }
    destruct sx, sy; simpl xorb; cbv iota; rewrite Hm; ring.
  - apply round_aux_error. apply mul_exp_le; assumption.
Qed.

Lemma binary_normalize_error (M e : Z) (sz : bool) :
  round_error (inject_Z M * pow2 e)%Q (binary_normalize prec emax M e sz).
Proof.
  destruct M as [|p|p]; simpl binary_normalize.
  - apply round_error_exact. simpl. ring.
  - apply (binary_round_error false).
  - apply round_error_eq with (- mag p e)%Q; [|apply (binary_round_error true)].
    unfold mag. change (Zneg p) with (- Zpos p). rewrite inject_Z_opp. ring.
Qed.

Lemma SFadd_error (x y : spec_float) :
  valid_binary prec emax x = true -> valid_binary prec emax y = true ->
  is_finite x = true -> is_finite y = true ->
  round_error (B2Q x + B2Q y)%Q (SFadd prec emax x y).
Proof.
  intros Vx Vy Fx Fy.
  destruct x as [sx|sx| |sx mx ex]; try discriminate;
  destruct y as [sy|sy| |sy my ey]; try discriminate.
  - simpl SFadd. destruct sx, sy; apply round_error_exact; simpl; ring.
  - simpl SFadd. apply round_error_exact.
    change (B2Q (S754_zero sx)) with 0%Q. ring.
  - simpl SFadd. apply round_error_exact.
    change (B2Q (S754_zero sy)) with 0%Q. ring.
  - unfold SFadd.
    pose proof (shl_align_spec mx ex (Z.min ex ey)) as Hx.
    pose proof (shl_align_spec my ey (Z.min ex ey)) as Hy.
    destruct (shl_align mx ex (Z.min ex ey)) as [mx' ex'].
    destruct (shl_align my ey (Z.min ex ey)) as [my' ey'].
    destruct Hx as [Hex Hmx], Hy as [Hey Hmy]. simpl fst.
    eapply round_error_eq; [|apply binary_normalize_error].
    replace ex' with (Z.min ex ey) in Hmx by lia.
    replace ey' with (Z.min ex ey) in Hmy by lia.
    assert (Ex : (mag mx ex == inject_Z (Zpos mx') * pow2 (Z.min ex ey))%Q).
    { unfold mag. rewrite Hmx. apply dyadic_shift. lia. }
    assert (Ey : (mag my ey == inject_Z (Zpos my') * pow2 (Z.min ex ey))%Q).
    { unfold mag. rewrite Hmy. apply dyadic_shift. lia. }
    rewrite !B2Q_finite.
    destruct sx, sy; unfold cond_Zopp; rewrite Ex, Ey, inject_Z_plus, ?inject_Z_opp; ring.
Qed.

(** *** The grid of the format *)

Lemma mag_succ (m : positive) (e : Z) :
  (mag m e + pow2 e == inject_Z (Zpos m + 1) * pow2 e)%Q.
Proof. unfold mag. rewrite inject_Z_plus. change (inject_Z 1) with 1%Q. ring. Qed.

Lemma mag_pred (m : positive) (e : Z) :
  (mag m e - pow2 e == inject_Z (Zpos m - 1) * pow2 e)%Q.
Proof.
  unfold mag, Z.sub. rewrite inject_Z_plus, inject_Z_opp.
  change (inject_Z 1) with 1%Q. ring.
Qed.

(** No value of the format lies strictly between a value and the next
    point of its own grid above it. *)
Lemma no_value_above (r : spec_float) (mb : positive) (eb : Z) :
  valid_binary prec emax r = true -> is_finite r = true ->
  canonical mb eb ->
  (B2Q r < mag mb eb + pow2 eb)%Q -> (B2Q r <= mag mb eb)%Q.
Proof.
  intros V F Cb H. pose proof (mag_pos mb eb) as Hb.
  destruct r as [s|s| |s m e]; try discriminate; [simpl; lra|].
  rewrite B2Q_finite in *. pose proof (mag_pos m e) as Hr.
  destruct s; [lra|].
  simpl in V. apply bounded_canonical in V. destruct V as [C _].
  rewrite mag_succ in H. unfold mag in *.
  destruct (Z.lt_trichotomy e eb) as [Hlt|[Heq|Hgt]].
  - apply (dyadic_le _ _ _ _ e); try lia.
    rewrite Z.sub_diag, Z.pow_0_r, Z.mul_1_r.
    pose proof (canonical_exp_lt m e mb eb C Cb Hlt). lia.
  - subst eb. apply (dyadic_lt _ _ _ _ e) in H; try lia.
    apply (dyadic_le _ _ _ _ e); try lia.
    rewrite Z.sub_diag, Z.pow_0_r, !Z.mul_1_r in *. lia.
  - exfalso. apply (dyadic_lt _ _ _ _ eb) in H; try lia.
    rewrite Z.sub_diag, Z.pow_0_r, Z.mul_1_r in H.
    pose proof (canonical_exp_lt mb eb m e Cb C Hgt). lia.
Qed.

(** The same below, for a value that is not the least of its binade. *)
Lemma no_value_below (r : spec_float) (mb : positive) (eb : Z) :
  valid_binary prec emax r = true -> is_finite r = true ->
  canonical mb eb ->
  2 ^ (prec - 1) < Zpos mb \/ eb = emin ->
  (mag mb eb - pow2 eb < B2Q r)%Q -> (mag mb eb <= B2Q r)%Q.
Proof.
  intros V F Cb Hnb H. pose proof (pow2_pos eb) as Hp.
  rewrite mag_pred in H.
  assert (Hnn : (0 <= inject_Z (Zpos mb - 1) * pow2 eb)%Q).
  { apply Qmult_le_0_compat; [|lra].
    change 0%Q with (inject_Z 0). rewrite <- Zle_Qle. lia. }
  destruct r as [s|s| |s m e]; try discriminate;
    [change (B2Q (S754_zero s)) with 0%Q in H; lra|].
  rewrite B2Q_finite in *. pose proof (mag_pos m e) as Hr.
  destruct s; [lra|].
  simpl in V. apply bounded_canonical in V. destruct V as [C _].
  unfold mag in *.
  destruct (Z.lt_trichotomy e eb) as [Hlt|[Heq|Hgt]].
  - exfalso. apply (dyadic_lt _ _ _ _ e) in H; try lia.
    rewrite Z.sub_diag, Z.pow_0_r, Z.mul_1_r in H.
    pose proof (canonical_digits m e C) as [Hd He].
    assert (Hm : Zpos m < 2 ^ prec) by (apply digits_le_iff; lia).
    assert (2 ^ 1 <= 2 ^ (eb - e)) by (apply pow2_le_mono; lia).
    assert (2 ^ prec = 2 ^ (prec - 1) * 2 ^ 1)
      by (rewrite <- pow2_split by lia; f_equal; lia).
    destruct Hnb as [Hnb|Hnb]; [nia|lia].
  - subst eb. apply (dyadic_lt _ _ _ _ e) in H; try lia.
    apply (dyadic_le _ _ _ _ e); try lia.
    rewrite Z.sub_diag, Z.pow_0_r, !Z.mul_1_r in *. lia.
  - apply (dyadic_le _ _ _ _ eb); try lia.
    rewrite Z.sub_diag, Z.pow_0_r, Z.mul_1_r.
    pose proof (canonical_exp_lt mb eb m e Cb C Hgt). lia.
Qed.

(** *** Exact results *)

Lemma rounds_to_exact (p : Q) (r b : spec_float) :
  rounds_to p r ->
  valid_binary prec emax b = true -> is_finite b = true -> (B2Q b == p)%Q ->
  is_finite r = true /\ (B2Q r == p)%Q.
Proof.
  intros H V F E.
  destruct (rounds_to_finite p r b b H V F V F) as [Fr Hr]; try lra.
  split; [exact Fr|lra].
Qed.

(** A dyadic number that fits the format has a representative in it. *)
Lemma representable (s : bool) (m : positive) (e : Z) :
  fexp (digits m + e) <= e -> digits m + e <= emax ->
  exists b, valid_binary prec emax b = true /\ is_finite b = true /\
            (B2Q b == B2Q (S754_finite s m e))%Q.
Proof.
  intros He Hd. set (E := fexp (digits m + e)) in *.
  assert (Hpos : 0 < Zpos m * 2 ^ (e - E)).
  { pose proof (pow2_gt0 (e - E) ltac:(lia)). nia. }
  exists (S754_finite s (Z.to_pos (Zpos m * 2 ^ (e - E))) E).
  assert (Hz : Zpos (Z.to_pos (Zpos m * 2 ^ (e - E))) = Zpos m * 2 ^ (e - E))
    by (apply Z2Pos.id; exact Hpos).
  assert (Hdg : digits (Z.to_pos (Zpos m * 2 ^ (e - E))) = digits m + (e - E))
    by (apply digits_shift; [lia|exact Hz]).
  split; [|split; [reflexivity|]].
  - unfold valid_binary. apply bounded_canonical. split.
    + unfold IEEE.canonical. rewrite Hdg.
      replace (digits m + (e - E) + E) with (digits m + e) by lia. reflexivity.
    + pose proof emin_nonpos. unfold E, SpecFloat.fexp, SpecFloat.emin in *. lia.
  - rewrite !B2Q_finite.
    assert (Hm : (mag (Z.to_pos (Zpos m * 2 ^ (e - E))) E == mag m e)%Q).
    { unfold mag. rewrite Hz. symmetry. apply dyadic_shift. lia. }
    destruct s; rewrite Hm; reflexivity.
Qed.

Lemma binary_round_exact (s : bool) (m : positive) (e : Z) :
  fexp (digits m + e) <= e -> digits m + e <= emax ->
  is_finite (binary_round prec emax s m e) = true /\
  (B2Q (binary_round prec emax s m e) == B2Q (S754_finite s m e))%Q.
Proof.
  intros He Hd. destruct (representable s m e He Hd) as (b & V & F & E).
  apply (rounds_to_exact _ _ b); try assumption.
  apply rounds_to_eq with (if s then - mag m e else mag m e)%Q.
  - rewrite B2Q_finite. reflexivity.
  - apply binary_round_rounds.
Qed.

End Format.

End RoundingFacts.

(* ================================================================== *)
(** * Facts about binary32 and binary64 *)
(* ================================================================== *)

Module FloatFacts.
Import IEEE RoundingFacts.

Lemma good32 : good binary32.
Proof. split; reflexivity. Qed.

Lemma good64 : good binary64.
Proof. split; reflexivity. Qed.

#[global] Instance rounds_proper (f : format) :
  Proper (Qeq ==> eq ==> iff) (rounds f).
Proof.
  intros p q E r r' <-. unfold rounds. split; intros (V & N & H); split; try assumption;
    split; try assumption; intros b Vb Fb; destruct (H b Vb Fb) as [Hu Hl];
    split; intros Hp; [apply Hu|apply Hl|apply Hu|apply Hl]; lra.
Qed.

#[global] Instance within_proper (f : format) :
  Proper (Qeq ==> eq ==> iff) (within f).
Proof.
  intros p q E r r' <-. unfold within, round_error.
  split; intros H F k Hk; specialize (H F k ltac:(lra)); lra.
Qed.

Section Generic.
Variable f : format.
Hypothesis Hf : good f.

Let Hprec : 0 < prec f := proj1 Hf.
Let Hmax : prec f < emax f := proj2 Hf.

Lemma fmul_rounds (x y : spec_float) :
  fin f x -> fin f y -> rounds f (B2Q x * B2Q y)%Q (fmul f x y).
Proof. intros [Vx Fx] [Vy Fy]. apply SFmul_rounds; assumption. Qed.

Lemma fadd_rounds (x y : spec_float) :
  fin f x -> fin f y -> rounds f (B2Q x + B2Q y)%Q (fadd f x y).
Proof. intros [Vx Fx] [Vy Fy]. apply SFadd_rounds; assumption. Qed.

Lemma fmul_within (x y : spec_float) :
  fin f x -> fin f y -> within f (B2Q x * B2Q y)%Q (fmul f x y).
Proof. intros [Vx Fx] [Vy Fy]. apply SFmul_error; assumption. Qed.

Lemma fadd_within (x y : spec_float) :
  fin f x -> fin f y -> within f (B2Q x + B2Q y)%Q (fadd f x y).
Proof. intros [Vx Fx] [Vy Fy]. apply SFadd_error; assumption. Qed.

Lemma fround_rounds (x : spec_float) :
  is_finite x = true -> rounds f (B2Q x) (fround f x).
Proof.
  intros F. destruct x as [s|s| |s m e]; try discriminate.
  - apply rounds_to_zero; [exact Hprec|reflexivity].
  - unfold fround. eapply rounds_to_eq; [|apply binary_round_rounds; assumption].
    rewrite B2Q_finite. reflexivity.
Qed.

Lemma fround_within (x : spec_float) :
  is_finite x = true -> within f (B2Q x) (fround f x).
Proof.
  intros F. destruct x as [s|s| |s m e]; try discriminate.
  - apply round_error_exact. reflexivity.
  - unfold fround. eapply round_error_eq; [|apply binary_round_error; assumption].
    rewrite B2Q_finite. reflexivity.
Qed.

Lemma of_Z_rounds (n : Z) : rounds f (inject_Z n) (of_Z f n).
Proof.
  unfold of_Z. eapply rounds_to_eq; [|apply binary_normalize_rounds; assumption].
  unfold pow2. simpl. ring.
Qed.

(** A rounding enclosed by two finite values of the format is finite and
    enclosed by them. *)
Lemma rounds_between (p : Q) (r b1 b2 : spec_float) (q1 q2 : Q) :
  rounds f p r -> fin f b1 -> fin f b2 ->
  (B2Q b1 == q1)%Q -> (B2Q b2 == q2)%Q -> (q1 <= p)%Q -> (p <= q2)%Q ->
  fin f r /\ (q1 <= B2Q r)%Q /\ (B2Q r <= q2)%Q.
Proof.
  intros H [V1 F1] [V2 F2] E1 E2 H1 H2.
  destruct (rounds_to_finite (prec f) (emax f) Hprec p r b1 b2 H V1 F1 V2 F2)
    as [Fr [L U]]; try lra.
  destruct H as (V & _). repeat split; try assumption; lra.
Qed.

Lemma fle_iff (x y : spec_float) :
  fin f x -> fin f y -> (fle x y = true <-> (B2Q x <= B2Q y)%Q).
Proof. intros [Vx Fx] [Vy Fy]. apply (SFleb_B2Q (prec f) (emax f)); assumption. Qed.

Lemma flt_iff (x y : spec_float) :
  fin f x -> fin f y -> (flt x y = true <-> (B2Q x < B2Q y)%Q).
Proof. intros [Vx Fx] [Vy Fy]. apply (SFltb_B2Q (prec f) (emax f)); assumption. Qed.

Lemma flt_false_iff (x y : spec_float) :
  fin f x -> fin f y -> (flt x y = false <-> (B2Q y <= B2Q x)%Q).
Proof.
  intros Hx Hy. pose proof (flt_iff x y Hx Hy) as H.
  destruct (flt x y); split; intros H'; try reflexivity; try discriminate.
  - assert (B2Q x < B2Q y)%Q by (apply H; reflexivity). lra.
  - destruct (Qlt_le_dec (B2Q x) (B2Q y)) as [Hlt|Hle]; [|exact Hle].
    apply H in Hlt. discriminate.
Qed.

Lemma fle_false_iff (x y : spec_float) :
  fin f x -> fin f y -> (fle x y = false <-> (B2Q y < B2Q x)%Q).
Proof.
  intros Hx Hy. pose proof (fle_iff x y Hx Hy) as H.
  destruct (fle x y); split; intros H'; try reflexivity; try discriminate.
  - assert (B2Q x <= B2Q y)%Q by (apply H; reflexivity). lra.
  - destruct (Qlt_le_dec (B2Q y) (B2Q x)) as [Hlt|Hle]; [exact Hlt|].
    apply H in Hle. discriminate.
Qed.

Lemma fin_opp (x : spec_float) : fin f x -> fin f (SFopp x).
Proof.
  intros [V F]. split.
  - unfold valid. rewrite valid_opp. exact V.
  - rewrite is_finite_opp. exact F.
Qed.
End Generic.

(** Comparisons that hold leave no room for a NaN or an infinity. *)
Lemma finite_of_bounds (lo x hi : spec_float) :
  is_finite lo = true -> is_finite hi = true ->
  fle lo x = true -> fle x hi = true -> is_finite x = true.
Proof. intros Hlo Hhi H1 H2. apply (finite_between lo x hi); assumption. Qed.

Lemma finite_of_lt_bounds (lo x hi : spec_float) :
  is_finite lo = true -> is_finite hi = true ->
  fle lo x = true -> flt x hi = true -> is_finite x = true.
Proof.
  intros Hlo Hhi H1 H2. apply (finite_between lo x hi); try assumption.
  unfold flt, SFltb in H2. unfold SFleb. destruct (SFcompare x hi) as [[| |]|]; try discriminate.
  reflexivity.
Qed.

(** Widening a [float] to [double] is exact. *)
Lemma to_double_exact (x : spec_float) :
  fin binary32 x -> fin binary64 (to_double x) /\ (B2Q (to_double x) == B2Q x)%Q.
Proof.
  intros [V F]. destruct x as [s|s| |s m e]; try discriminate.
  - split; [split; reflexivity|reflexivity].
  - unfold valid in V. simpl in V.
    apply (bounded_canonical 24 128) in V. destruct V as [C E].
    pose proof (canonical_digits 24 128 m e C) as [Hd He].
    unfold SpecFloat.emin in He.
    destruct (binary_round_exact 53 1024 ltac:(lia) ltac:(lia) s m e) as [Fr Er].
    + unfold SpecFloat.fexp, SpecFloat.emin. lia.
    + lia.
    + destruct (binary_round_rounds 53 1024 ltac:(lia) ltac:(lia) s m e) as (Vr & _).
      split; [split; assumption|exact Er].
Qed.

End FloatFacts.

(* ================================================================== *)
(** * Running the statements of the sketch *)
(* ================================================================== *)

(** Floating-point operations and constants stay folded under [simpl]. *)
Arguments F32.add : simpl never.
Arguments F32.sub : simpl never.
Arguments F32.mul : simpl never.
Arguments F32.opp : simpl never.
Arguments F32.of_int : simpl never.
Arguments F64.add : simpl never.
Arguments F64.sub : simpl never.
Arguments F64.mul : simpl never.
Arguments F64.div : simpl never.
Arguments F64.of_int : simpl never.
Arguments F64.lit : simpl never.
Arguments to_double : simpl never.
Arguments to_float : simpl never.
Arguments constrain : simpl never.
Arguments abs : simpl never.
Arguments f32_to_u8 : simpl never.
Arguments IEEE.flt : simpl never.
Arguments IEEE.fle : simpl never.
Arguments IEEE.fgt : simpl never.
Arguments IEEE.fge : simpl never.
Arguments BOUNCE_DAMPING : simpl never.
Arguments MAX_VELOCITY : simpl never.
Arguments GLOW_DECAY : simpl never.
Arguments NUM_LEDS : simpl never.

Section MonadFacts.
Local Open Scope sketch_scope.

Lemma bind_some {A B : Type} (c : M A) (k : A -> M B) (st st1 st2 : Globals)
      (x : A) (y : B) (ev1 ev2 : list Event) :
  c st = Some (x, st1, ev1) -> k x st1 = Some (y, st2, ev2) ->
  bind c k st = Some (y, st2, ev1 ++ ev2).
Proof. intros H1 H2. unfold bind. rewrite H1, H2. reflexivity. Qed.
End MonadFacts.

(** ** The particle *)

Lemma physics_update_spec (st : Globals) :
  physics_update st = Some (tt, integrated st, []).
Proof. reflexivity. Qed.

Lemma edge_reflection_spec (st : Globals) :
  edge_reflection st = Some (tt, reflected st, []).
Proof.
  unfold edge_reflection, reflected, bind, load, get, ret. simpl.
  destruct (IEEE.flt (water_pos st) (F32.of_int 0)); [reflexivity|].
  destruct (IEEE.fge (water_pos st) (F32.of_int NUM_LEDS)); reflexivity.
Qed.

(** ** The rasteriser *)

Section Render.
Context {platform : Platform}.

Lemma glow_pixel_spec (i : Z) (st : Globals) :
  glow_pixel i st =
  Some (tt, set_leds (list_set (Z.to_nat i)
                        (glow_color (water_pos st) (flow_time_offset st) i)
                        (leds st)) st, []).
Proof. reflexivity. Qed.

Lemma for_range_glow (n : nat) (a : Z) (st : Globals) :
  for_range a n glow_pixel st =
  Some (tt, set_leds (paint (water_pos st) (flow_time_offset st) a n (leds st)) st, []).
Proof.
  revert a st. induction n as [|k IH]; intros a st.
  - destruct st; reflexivity.
  - simpl for_range. unfold bind. rewrite glow_pixel_spec, IH. reflexivity.
Qed.

Lemma render_glow_spec (st : Globals) :
  render_glow st = Some (tt, rendered st, []).
Proof.
  cbv beta iota delta [render_glow bind load store get put ret].
  rewrite for_range_glow. reflexivity.
Qed.

Lemma update_led_strip_spec (st : Globals) :
  update_led_strip st = Some (tt, rendered (reflected (integrated st)), []).
Proof.
  unfold update_led_strip, bind.
  rewrite physics_update_spec, edge_reflection_spec, render_glow_spec.
  reflexivity.
Qed.

(** *** What the pixel loop leaves in the strip *)

Lemma list_set_length {A : Type} (i : nat) (x : A) (l : list A) :
  List.length (list_set i x l) = List.length l.
Proof.
  revert i. induction l as [|h t IH]; intros i; [destruct i; reflexivity|].
  destruct i; simpl; [reflexivity|]. rewrite IH. reflexivity.
Qed.

Lemma list_set_nth_same {A : Type} (i : nat) (x d : A) (l : list A) :
  (i < List.length l)%nat -> nth i (list_set i x l) d = x.
Proof.
  revert i. induction l as [|h t IH]; intros i H; simpl in H; [lia|].
  destruct i; simpl; [reflexivity|]. apply IH. lia.
Qed.

Lemma list_set_nth_other {A : Type} (i j : nat) (x d : A) (l : list A) :
  i <> j -> nth j (list_set i x l) d = nth j l d.
Proof.
  revert i j. induction l as [|h t IH]; intros i j H; [destruct i; reflexivity|].
  destruct i, j; simpl; try reflexivity; try lia. apply IH. lia.
Qed.

Lemma paint_length (pos phase : F32.t) (n : nat) (a : Z) (l : list CRGB.t) :
  List.length (paint pos phase a n l) = List.length l.
Proof.
  revert a l. induction n as [|k IH]; intros a l; [reflexivity|].
  simpl. rewrite IH. apply list_set_length.
Qed.

Lemma paint_nth_before (pos phase : F32.t) (n : nat) (a : Z) (l : list CRGB.t)
      (j : nat) (d : CRGB.t) :
  0 <= a -> (j < Z.to_nat a)%nat ->
  nth j (paint pos phase a n l) d = nth j l d.
Proof.
  revert a l. induction n as [|k IH]; intros a l Ha Hj; [reflexivity|].
  simpl. rewrite IH by lia. apply list_set_nth_other. lia.
Qed.

Lemma paint_nth (pos phase : F32.t) (n : nat) (a : Z) (l : list CRGB.t)
      (i : Z) (d : CRGB.t) :
  0 <= a -> a <= i < a + Z.of_nat n -> (Z.to_nat i < List.length l)%nat ->
  nth (Z.to_nat i) (paint pos phase a n l) d = glow_color pos phase i.
Proof.
  revert a l. induction n as [|k IH]; intros a l Ha Hi Hl; [lia|].
  simpl. destruct (Z.eq_dec i a) as [E|E].
  - subst i. rewrite paint_nth_before by lia.
    apply list_set_nth_same. exact Hl.
  - apply IH; try lia. rewrite list_set_length. exact Hl.
Qed.
End Render.

(* ================================================================== *)
(** * The particle stays on the strip *)
(* ================================================================== *)

Section Bounds.
Import IEEE RoundingFacts FloatFacts.

Ltac fin_const := split; vm_compute; reflexivity.
Ltac qval := vm_compute; reflexivity.

Lemma speed_ok_enclosed (v : F32.t) :
  speed_ok v <-> enclosed binary32 v (-1) 1.
Proof.
  assert (F1 : fin binary32 MAX_VELOCITY) by fin_const.
  assert (Fm : fin binary32 (F32.opp MAX_VELOCITY)) by fin_const.
  assert (E1 : (B2Q MAX_VELOCITY == 1)%Q) by qval.
  assert (Em : (B2Q (F32.opp MAX_VELOCITY) == -1)%Q) by qval.
  split.
  - intros (V & L & U).
    assert (F : fin binary32 v).
    { split; [exact V|]. apply (finite_of_bounds (F32.opp MAX_VELOCITY) v MAX_VELOCITY);
        try assumption; reflexivity. }
    apply (fle_iff binary32 good32) in L, U; try assumption.
    rewrite E1 in U. rewrite Em in L. repeat split; try assumption; apply F.
  - intros (F & L & U). split; [apply F|]. split.
    + apply (fle_iff binary32 good32); try assumption; rewrite Em; exact L.
    + apply (fle_iff binary32 good32); try assumption; rewrite E1; exact U.
Qed.

Lemma tilt_ok_enclosed (t : F32.t) :
  tilt_ok t -> enclosed binary32 t (-1) 1.
Proof.
  assert (F1 : fin binary32 (F32.of_int 1)) by fin_const.
  assert (Fm : fin binary32 (F32.of_int (-1))) by fin_const.
  assert (E1 : (B2Q (F32.of_int 1) == 1)%Q) by qval.
  assert (Em : (B2Q (F32.of_int (-1)) == -1)%Q) by qval.
  intros (V & L & U).
  assert (F : fin binary32 t).
  { split; [exact V|]. apply (finite_of_bounds (F32.of_int (-1)) t (F32.of_int 1));
      try assumption; reflexivity. }
  apply (fle_iff binary32 good32) in L, U; try assumption.
  rewrite E1 in U. rewrite Em in L. repeat split; try assumption; apply F.
Qed.

Lemma in_strip_enclosed (p : F32.t) :
  in_strip p <->
  fin binary32 p /\ (0 <= B2Q p)%Q /\ (B2Q p < 30)%Q.
Proof.
  assert (F0 : fin binary32 (F32.of_int 0)) by fin_const.
  assert (F30 : fin binary32 (F32.of_int NUM_LEDS)) by fin_const.
  assert (E0 : (B2Q (F32.of_int 0) == 0)%Q) by qval.
  assert (E30 : (B2Q (F32.of_int NUM_LEDS) == 30)%Q) by qval.
  split.
  - intros (V & L & U).
    assert (F : fin binary32 p).
    { split; [exact V|].
      apply (finite_of_lt_bounds (F32.of_int 0) p (F32.of_int NUM_LEDS));
        try assumption; reflexivity. }
    apply (fle_iff binary32 good32) in L; try assumption.
    apply (flt_iff binary32 good32) in U; try assumption.
    rewrite E0 in L. rewrite E30 in U. repeat split; try assumption; apply F.
  - intros (F & L & U). split; [apply F|]. split.
    + apply (fle_iff binary32 good32); try assumption; rewrite E0; exact L.
    + apply (flt_iff binary32 good32); try assumption; rewrite E30; exact U.
Qed.

(** Enclosure of a rounding by two small integers of the format. *)
Lemma rounds_enclosed (f : format) (Hf : good f) (p : Q) (r : spec_float)
      (lo hi : Z) :
  rounds f p r ->
  fin f (of_Z f lo) -> fin f (of_Z f hi) ->
  (B2Q (of_Z f lo) == inject_Z lo)%Q -> (B2Q (of_Z f hi) == inject_Z hi)%Q ->
  (inject_Z lo <= p)%Q -> (p <= inject_Z hi)%Q ->
  enclosed f r (inject_Z lo) (inject_Z hi).
Proof.
  intros H F1 F2 E1 E2 L U.
  exact (rounds_between f Hf p r _ _ _ _ H F1 F2 E1 E2 L U).
Qed.

Ltac enclose32 H lo hi :=
  apply (rounds_enclosed binary32 good32 _ _ lo hi) in H;
  [ cbv [inject_Z] in H | fin_const | fin_const | qval | qval
  | cbv [inject_Z] | cbv [inject_Z] ].

Ltac enclose64 H lo hi :=
  apply (rounds_enclosed binary64 good64 _ _ lo hi) in H;
  [ cbv [inject_Z] in H | fin_const | fin_const | qval | qval
  | cbv [inject_Z] | cbv [inject_Z] ].

Lemma constrain_enclosed (x : F32.t) :
  fin binary32 x ->
  enclosed binary32 (constrain x (F32.opp MAX_VELOCITY) MAX_VELOCITY) (-1) 1.
Proof.
  intros F.
  assert (F1 : fin binary32 MAX_VELOCITY) by fin_const.
  assert (Fm : fin binary32 (F32.opp MAX_VELOCITY)) by fin_const.
  assert (E1 : (B2Q MAX_VELOCITY == 1)%Q) by qval.
  assert (Em : (B2Q (F32.opp MAX_VELOCITY) == -1)%Q) by qval.
  unfold constrain, fgt.
  change (SFltb MAX_VELOCITY x) with (flt MAX_VELOCITY x).
  destruct (flt x (F32.opp MAX_VELOCITY)) eqn:Hlo.
  - split; [exact Fm|]. rewrite Em. split; lra.
  - destruct (flt MAX_VELOCITY x) eqn:Hhi.
    + split; [exact F1|]. rewrite E1. split; lra.
    + apply (flt_false_iff binary32 good32) in Hlo, Hhi; try assumption.
      rewrite Em in Hlo. rewrite E1 in Hhi. split; [exact F|]. split; assumption.
Qed.

(** The velocity that leaves the integration step is finite and clamped. *)
Lemma next_velocity_enclosed (tilt vel : F32.t) :
  enclosed binary32 tilt (-1) 1 -> enclosed binary32 vel (-1) 1 ->
  enclosed binary32 (next_velocity tilt vel) (-1) 1.
Proof.
  intros (Ft & Lt & Ut) (Fv & Lv & Uv). unfold next_velocity. cbv zeta.
  apply constrain_enclosed.
  destruct (to_double_exact tilt Ft) as [Ftd Etd].
  assert (Fc2 : fin binary64 (F64.lit 2 10)) by fin_const.
  assert (Ec2 : (B2Q (F64.lit 2 10) == 3602879701896397 # 18014398509481984)%Q) by qval.
  pose proof (fmul_rounds binary64 good64 _ _ Ftd Fc2) as H1.
  rewrite Etd, Ec2 in H1.
  enclose64 H1 (-1) 1; try lra.
  destruct H1 as (F1 & L1 & U1).
  pose proof (fround_rounds binary32 good32 _ (proj2 F1)) as H2.
  enclose32 H2 (-1) 1; try lra.
  destruct H2 as (F2 & L2 & U2).
  pose proof (fadd_rounds binary32 good32 _ _ Fv F2) as H3.
  enclose32 H3 (-2) 2; try lra.
  destruct H3 as (F3 & L3 & U3).
  destruct (to_double_exact _ F3) as [F3d E3d].
  assert (Fc98 : fin binary64 (F64.lit 98 100)) by fin_const.
  assert (Ec98 : (B2Q (F64.lit 98 100) == 8827055269646172 # 9007199254740992)%Q) by qval.
  pose proof (fmul_rounds binary64 good64 _ _ F3d Fc98) as H4.
  rewrite E3d, Ec98 in H4.
  enclose64 H4 (-2) 2; try lra.
  destruct H4 as (F4 & L4 & U4).
  pose proof (fround_rounds binary32 good32 _ (proj2 F4)) as H5.
  enclose32 H5 (-2) 2; try lra.
  apply H5.
Qed.

(** A bounce keeps the velocity within the limit. *)
Lemma bounce_enclosed (v : F32.t) :
  enclosed binary32 v (-1) 1 ->
  enclosed binary32 (F32.mul (F32.opp v) BOUNCE_DAMPING) (-1) 1.
Proof.
  intros (F & L & U).
  assert (Fc : fin binary32 BOUNCE_DAMPING) by fin_const.
  assert (Ec : (B2Q BOUNCE_DAMPING == 14260634 # 16777216)%Q) by qval.
  pose proof (fmul_rounds binary32 good32 _ _ (fin_opp binary32 v F) Fc) as H.
  rewrite B2Q_opp, Ec in H.
  enclose32 H (-1) 1; try lra. exact H.
Qed.

(** The integration step keeps the position finite. *)
Lemma integrated_position (p v : F32.t) :
  fin binary32 p -> (0 <= B2Q p)%Q -> (B2Q p < 30)%Q ->
  enclosed binary32 v (-1) 1 ->
  fin binary32 (F32.add p v).
Proof.
  intros F L U (Fv & Lv & Uv).
  pose proof (fadd_rounds binary32 good32 _ _ F Fv) as H.
  enclose32 H (-1) 31; try lra. apply H.
Qed.
End Bounds.

(* ================================================================== *)
(** * The operations in exact arithmetic *)
(* ================================================================== *)

(** What the operations of the sketch compute, stated on the rational
    values of their operands: the lemmas the properties below rest on
    when they speak of sums, products, signs and integer parts. *)

Section Meaning.
Import IEEE RoundingFacts FloatFacts.

Ltac fin_const := split; vm_compute; reflexivity.
Ltac qval := vm_compute; reflexivity.

Lemma B2Q_abs_cases (x : spec_float) :
  ((B2Q (SFabs x) == B2Q x)%Q /\ (0 <= B2Q x)%Q) \/
  ((B2Q (SFabs x) == - B2Q x)%Q /\ (B2Q x <= 0)%Q).
Proof.
  destruct x as [s|s| |s m e]; try (left; split; simpl; lra).
  pose proof (mag_pos m e) as Hm.
  change (SFabs (S754_finite s m e)) with (S754_finite false m e).
  rewrite !B2Q_finite. destruct s; [right|left]; split; lra.
Qed.

Lemma fin_abs (f : format) (x : spec_float) : fin f x -> fin f (SFabs x).
Proof. intros [V F]. destruct x; try discriminate; split; assumption. Qed.

(** A finite [float] is below [2^128] in magnitude. *)
Lemma float_magnitude (x : F32.t) :
  fin binary32 x -> (- pow2 128 < B2Q x /\ B2Q x < pow2 128)%Q.
Proof.
  intros [V F].
  assert (P : (0 < pow2 128)%Q) by apply pow2_pos.
  destruct x as [s|s| |s m e]; try discriminate.
  - change (B2Q (S754_zero s)) with 0%Q. lra.
  - unfold F32.valid, valid, valid_binary in V.
    apply bounded_canonical in V. destruct V as [C E].
    pose proof (canonical_lt_emax _ _ _ _ C E) as H.
    pose proof (mag_pos m e) as H0.
    change (emax binary32) with 128 in H.
    rewrite B2Q_finite. destruct s; lra.
Qed.

(** [x - y] is [x + (-y)], bit for bit. *)
Lemma sub_is_add_opp (x y : F32.t) : F32.sub x y = F32.add x (F32.opp y).
Proof.
  unfold F32.sub, F32.add, F32.opp, fsub, fadd.
  destruct x as [sx|sx| |sx mx ex], y as [sy|sy| |sy my ey];
    try reflexivity; destruct sx, sy; reflexivity.
Qed.

Lemma fsub_rounds (x y : F32.t) :
  fin binary32 x -> fin binary32 y ->
  rounds binary32 (B2Q x - B2Q y) (F32.sub x y).
Proof.
  intros Fx Fy. rewrite sub_is_add_opp.
  pose proof (fadd_rounds binary32 good32 _ _ Fx (fin_opp binary32 y Fy)) as R.
  rewrite B2Q_opp in R. exact R.
Qed.

(** The macro [abs] on a finite [float]. *)
Lemma abs_value (x : F32.t) :
  fin binary32 x ->
  fin binary32 (abs x) /\ (0 <= B2Q (abs x))%Q /\
  ((0 <= B2Q x)%Q -> (B2Q (abs x) == B2Q x)%Q) /\
  ((B2Q x <= 0)%Q -> (B2Q (abs x) == - B2Q x)%Q).
Proof.
  intros F.
  assert (F0 : fin binary32 (F32.of_int 0)) by fin_const.
  assert (E0 : (B2Q (F32.of_int 0) == 0)%Q) by qval.
  unfold abs, fgt. change (SFltb (F32.of_int 0) x) with (flt (F32.of_int 0) x).
  destruct (flt (F32.of_int 0) x) eqn:H.
  - apply (flt_iff binary32 good32) in H; try assumption. rewrite E0 in H.
    split; [exact F|]. split; [lra|]. split; intros; lra.
  - apply (flt_false_iff binary32 good32) in H; try assumption. rewrite E0 in H.
    split; [apply fin_opp; exact F|]. unfold F32.opp. rewrite B2Q_opp.
    split; [lra|]. split; intros; lra.
Qed.

(** The macro [constrain] at the velocity limit. *)
Lemma constrain_cases (w : F32.t) :
  fin binary32 w ->
  let c := constrain w (F32.opp MAX_VELOCITY) MAX_VELOCITY in
  ((B2Q w < -1)%Q -> (B2Q c == -1)%Q) /\
  ((1 < B2Q w)%Q -> (B2Q c == 1)%Q) /\
  ((-1 <= B2Q w)%Q -> (B2Q w <= 1)%Q -> c = w).
Proof.
  intros F c. subst c.
  assert (F1 : fin binary32 MAX_VELOCITY) by fin_const.
  assert (Fm : fin binary32 (F32.opp MAX_VELOCITY)) by fin_const.
  assert (E1 : (B2Q MAX_VELOCITY == 1)%Q) by qval.
  assert (Em : (B2Q (F32.opp MAX_VELOCITY) == -1)%Q) by qval.
  unfold constrain, fgt.
  change (SFltb MAX_VELOCITY w) with (flt MAX_VELOCITY w).
  destruct (flt w (F32.opp MAX_VELOCITY)) eqn:Hlo.
  - apply (flt_iff binary32 good32) in Hlo; try assumption. rewrite Em in Hlo.
    split; [intros _; exact Em|]. split; intros; lra.
  - apply (flt_false_iff binary32 good32) in Hlo; try assumption. rewrite Em in Hlo.
    destruct (flt MAX_VELOCITY w) eqn:Hhi.
    + apply (flt_iff binary32 good32) in Hhi; try assumption. rewrite E1 in Hhi.
      split; [intros; lra|]. split; [intros _; exact E1|]. intros; lra.
    + apply (flt_false_iff binary32 good32) in Hhi; try assumption. rewrite E1 in Hhi.
      split; [intros; lra|]. split; [intros; lra|]. reflexivity.
Qed.

(** The reflected velocity [-v * BOUNCE_DAMPING]. *)
Lemma bounce_value (v : F32.t) :
  fin binary32 v ->
  let r := F32.mul (F32.opp v) BOUNCE_DAMPING in
  rounds binary32 (- B2Q v * (14260634 # 16777216)) r /\ fin binary32 r /\
  ((0 <= B2Q v)%Q -> (B2Q r <= 0)%Q) /\ ((B2Q v <= 0)%Q -> (0 <= B2Q r)%Q).
Proof.
  intros F r. subst r.
  assert (Fc : fin binary32 BOUNCE_DAMPING) by fin_const.
  assert (Ec : (B2Q BOUNCE_DAMPING == 14260634 # 16777216)%Q) by qval.
  assert (F0 : fin binary32 (F32.of_int 0)) by fin_const.
  assert (E0 : (B2Q (F32.of_int 0) == 0)%Q) by qval.
  pose proof (fmul_rounds binary32 good32 _ _ (fin_opp binary32 v F) Fc) as R.
  rewrite B2Q_opp, Ec in R.
  change (fmul binary32 (SFopp v) BOUNCE_DAMPING)
    with (F32.mul (F32.opp v) BOUNCE_DAMPING) in R.
  split; [exact R|].
  pose proof (fin_abs _ _ F) as Fa. pose proof (fin_opp _ _ Fa) as Fna.
  pose proof (B2Q_opp (SFabs v)) as Eo.
  assert (Fr : fin binary32 (F32.mul (F32.opp v) BOUNCE_DAMPING)).
  { destruct (B2Q_abs_cases v) as [[E1 E2]|[E1 E2]];
      destruct (rounds_between binary32 good32 _ _ _ _ _ _ R Fna Fa Eo (Qeq_refl _))
        as (Fv & _); try lra; exact Fv. }
  split; [exact Fr|]. split; intros H.
  - destruct (rounds_between binary32 good32 _ _ _ _ _ _ R Fna F0 Eo E0)
      as (_ & _ & U); try lra.
    destruct (B2Q_abs_cases v) as [[E1 E2]|[E1 E2]]; lra.
  - destruct (rounds_between binary32 good32 _ _ _ _ _ _ R F0 Fa E0 (Qeq_refl _))
      as (_ & L & _); try lra.
    destruct (B2Q_abs_cases v) as [[E1 E2]|[E1 E2]]; lra.
Qed.

Ltac enclose32 H lo hi :=
  apply (rounds_enclosed binary32 good32 _ _ lo hi) in H;
  [ cbv [inject_Z] in H | fin_const | fin_const | qval | qval
  | cbv [inject_Z] | cbv [inject_Z] ].

Ltac enclose64 H lo hi :=
  apply (rounds_enclosed binary64 good64 _ _ lo hi) in H;
  [ cbv [inject_Z] in H | fin_const | fin_const | qval | qval
  | cbv [inject_Z] | cbv [inject_Z] ].

(** The integration of the velocity, step by step, in exact
    arithmetic: each operation returns a rounding of the exact result
    of its operands. *)
Lemma velocity_steps (tilt vel : F32.t) :
  fin binary32 tilt -> fin binary32 vel ->
  (- (85070591730234615865843651857942052864) <= B2Q vel)%Q ->
  (B2Q vel <= 85070591730234615865843651857942052864)%Q ->
  let accel := to_float (F64.mul (to_double tilt) (F64.lit 2 10)) in
  let forced := F32.add vel accel in
  let damped := to_float (F64.mul (to_double forced) (F64.lit 98 100)) in
  (exists a d : F64.t,
     rounds binary64 (B2Q tilt * (3602879701896397 # 18014398509481984)) a /\
     rounds binary32 (B2Q a) accel /\
     rounds binary32 (B2Q vel + B2Q accel) forced /\
     rounds binary64 (B2Q forced * (8827055269646172 # 9007199254740992)) d /\
     rounds binary32 (B2Q d) damped) /\
  fin binary32 accel /\ fin binary32 forced /\ fin binary32 damped.
Proof.
  intros Ft Fv Lv Uv accel forced damped.
  destruct (float_magnitude tilt Ft) as [Lt Ut].
  assert (E128 : (pow2 128 == 340282366920938463463374607431768211456)%Q) by qval.
  rewrite E128 in Lt, Ut.
  destruct (to_double_exact tilt Ft) as [Ftd Etd].
  assert (Fc2 : fin binary64 (F64.lit 2 10)) by fin_const.
  assert (Ec2 : (B2Q (F64.lit 2 10) == 3602879701896397 # 18014398509481984)%Q)
    by qval.
  pose proof (fmul_rounds binary64 good64 _ _ Ftd Fc2) as R1.
  rewrite Etd, Ec2 in R1. pose proof R1 as H1.
  enclose64 H1 (-85070591730234615865843651857942052864)
               85070591730234615865843651857942052864; try lra.
  destruct H1 as (G1 & L1 & U1).
  pose proof (fround_rounds binary32 good32 _ (proj2 G1)) as R2. pose proof R2 as H2.
  enclose32 H2 (-85070591730234615865843651857942052864)
               85070591730234615865843651857942052864; try lra.
  destruct H2 as (G2 & L2 & U2).
  pose proof (fadd_rounds binary32 good32 _ _ Fv G2) as R3. pose proof R3 as H3.
  enclose32 H3 (-170141183460469231731687303715884105728)
               170141183460469231731687303715884105728; try lra.
  destruct H3 as (G3 & L3 & U3).
  destruct (to_double_exact _ G3) as [G3d E3d].
  assert (Fc98 : fin binary64 (F64.lit 98 100)) by fin_const.
  assert (Ec98 : (B2Q (F64.lit 98 100) == 8827055269646172 # 9007199254740992)%Q)
    by qval.
  pose proof (fmul_rounds binary64 good64 _ _ G3d Fc98) as R4.
  rewrite E3d, Ec98 in R4. pose proof R4 as H4.
  enclose64 H4 (-170141183460469231731687303715884105728)
               170141183460469231731687303715884105728; try lra.
  destruct H4 as (G4 & L4 & U4).
  pose proof (fround_rounds binary32 good32 _ (proj2 G4)) as R5. pose proof R5 as H5.
  enclose32 H5 (-170141183460469231731687303715884105728)
               170141183460469231731687303715884105728; try lra.
  destruct H5 as (G5 & _).
  split; [|split; [exact G2|split; [exact G3|exact G5]]].
  exists (F64.mul (to_double tilt) (F64.lit 2 10)),
         (F64.mul (to_double forced) (F64.lit 98 100)).
  split; [exact R1|]. split; [exact R2|]. split; [exact R3|].
  split; [exact R4|exact R5].
Qed.

(** A valid finite value equal to a positive canonical one is that
    value. *)
Lemma canonical_unique (prec emax : Z) (r : spec_float) (m : positive) (e : Z) :
  0 < prec ->
  valid_binary prec emax r = true -> is_finite r = true ->
  canonical prec emax m e ->
  (B2Q r == mag m e)%Q -> r = S754_finite false m e.
Proof.
  intros Hp V F C E. pose proof (mag_pos m e) as Hm.
  destruct r as [s|s| |s mr er]; try discriminate.
  - change (B2Q (S754_zero s)) with 0%Q in E. lra.
  - rewrite B2Q_finite in E. pose proof (mag_pos mr er) as Hr.
    destruct s; [lra|].
    unfold valid_binary in V. apply bounded_canonical in V. destruct V as [Cr _].
    pose proof (compare_canonical prec emax Hp mr er m e Cr C) as H.
    unfold mag in E. apply Qeq_alt in E. rewrite E in H.
    destruct (er ?= e) eqn:Ee; try discriminate.
    apply Z.compare_eq in Ee. apply Pos.compare_eq in H. subst. reflexivity.
Qed.

(** From [2^20] on, adding [0.05] to a [float] gives the same [float]
    back: the increment is less than half the spacing of the values. *)
Lemma phase_absorbs_increment (x : F32.t) :
  fin binary32 x -> (1048576 <= B2Q x)%Q ->
  (B2Q x <= 85070591730234615865843651857942052864)%Q ->
  next_phase x = x.
Proof.
  intros Fx L U.
  destruct x as [s|s| |s m e]; try (destruct Fx; discriminate).
  { change (B2Q (S754_zero s)) with 0%Q in L. lra. }
  pose proof (mag_pos m e) as Hm. rewrite B2Q_finite in L, U.
  destruct s; [lra|].
  assert (C : canonical 24 128 m e).
  { destruct Fx as [V _]. unfold valid, valid_binary in V.
    apply bounded_canonical in V. apply V. }
  destruct (canonical_digits _ _ _ _ C) as [Hd24 _].
  assert (He : -3 <= e).
  { pose proof (mag_digits_hi m e) as Hh.
    assert (P20 : (pow2 20 == 1048576)%Q) by (vm_compute; reflexivity).
    assert (Hlt : (pow2 20 < pow2 (digits m + e))%Q) by (rewrite P20; lra).
    apply pow2_lt_inv_Q in Hlt. lia. }
  assert (Hd : digits m = 24).
  { apply (canonical_normal _ _ _ _ C). unfold SpecFloat.emin. lia. }
  pose proof (digits_bounds m) as [_ Hb]. rewrite Hd in Hb.
  change (2 ^ 24) with 16777216 in Hb.
  pose proof (pow2_pos e) as HP.
  assert (HP8 : (1 # 8 <= pow2 e)%Q).
  { assert (P3 : (pow2 (-3) == 1 # 8)%Q) by (vm_compute; reflexivity).
    rewrite <- P3. apply pow2_mono. exact He. }
  assert (Ha : (mag m e <= 16777215 * pow2 e)%Q).
  { unfold mag. apply Qmult_le_compat_r; [|lra].
    change 16777215%Q with (inject_Z 16777215). rewrite <- Zle_Qle. lia. }
  assert (P24 : (pow2 (24 + e) == 16777216 * pow2 e)%Q).
  { rewrite pow2_add.
    assert (P : (pow2 24 == 16777216)%Q) by (vm_compute; reflexivity).
    rewrite P. reflexivity. }
  set (x := S754_finite false m e) in *.
  assert (Ex : (B2Q x == mag m e)%Q) by (unfold x; rewrite B2Q_finite; reflexivity).
  set (a := mag m e) in *. set (P := pow2 e) in *.
  (* widening and the sum in binary64 *)
  destruct (to_double_exact x Fx) as [Fy Ey]. rewrite Ex in Ey.
  assert (Fc : fin binary64 (F64.lit 5 100)) by (split; vm_compute; reflexivity).
  assert (Ec : (B2Q (F64.lit 5 100) == 3602879701896397 # 72057594037927936)%Q)
    by (vm_compute; reflexivity).
  assert (Fb : fin binary64 (of_Z binary64 170141183460469231731687303715884105728))
    by (split; vm_compute; reflexivity).
  assert (Eb : (B2Q (of_Z binary64 170141183460469231731687303715884105728)
                == 170141183460469231731687303715884105728)%Q)
    by (vm_compute; reflexivity).
  pose proof (fadd_rounds binary64 good64 _ _ Fy Fc) as R64.
  pose proof (fadd_within binary64 good64 _ _ Fy Fc) as W64.
  rewrite Ey, Ec in R64, W64.
  destruct (rounds_between binary64 good64 _ _ _ _ _ _ R64 Fy Fb Ey Eb)
    as (Fz & Lz & Uz); try lra.
  set (z := fadd binary64 (to_double x) (F64.lit 5 100)) in *.
  specialize (W64 (proj2 Fz) (24 + e) ltac:(rewrite P24; lra)).
  replace (SpecFloat.fexp (prec binary64) (emax binary64) (24 + e) - 1)
    with (e + -30) in W64
    by (unfold SpecFloat.fexp, SpecFloat.emin;
        change (prec binary64) with 53; change (emax binary64) with 1024; lia).
  rewrite pow2_add in W64. fold P in W64.
  assert (E30 : (pow2 (-30) == 1 # 1073741824)%Q) by (vm_compute; reflexivity).
  rewrite E30 in W64.
  (* back to binary32 *)
  assert (Gb : fin binary32 (of_Z binary32 170141183460469231731687303715884105728))
    by (split; vm_compute; reflexivity).
  assert (Hb32 : (B2Q (of_Z binary32 170141183460469231731687303715884105728)
                == 170141183460469231731687303715884105728)%Q)
    by (vm_compute; reflexivity).
  pose proof (fround_rounds binary32 good32 z (proj2 Fz)) as R32.
  pose proof (fround_within binary32 good32 z (proj2 Fz)) as W32.
  destruct (rounds_between binary32 good32 _ _ _ _ _ _ R32 Fx Gb Ex Hb32)
    as (Fr & Lr & Ur); try lra.
  set (r := fround binary32 z) in *.
  specialize (W32 (proj2 Fr) (24 + e) ltac:(rewrite P24; lra)).
  replace (SpecFloat.fexp (prec binary32) (emax binary32) (24 + e) - 1)
    with (e + -1) in W32
    by (unfold SpecFloat.fexp, SpecFloat.emin;
        change (prec binary32) with 24; change (emax binary32) with 128; lia).
  rewrite pow2_add in W32. fold P in W32.
  assert (E1 : (pow2 (-1) == 1 # 2)%Q) by (vm_compute; reflexivity).
  rewrite E1 in W32.
  (* no float lies strictly between x and its successor *)
  assert (Hle : (B2Q r <= a)%Q).
  { apply (no_value_above 24 128 eq_refl r m e); [apply Fr|apply Fr|exact C|].
    fold a. fold P. lra. }
  change (next_phase x) with r.
  apply (canonical_unique 24 128); [reflexivity|apply Fr|apply Fr|exact C|].
  fold a. lra.
Qed.

(** Truncation of a [float] in [0, 255] to [uint8_t] is its integer
    part: nothing wraps. *)
Lemma f32_to_u8_floor (x : F32.t) :
  fin binary32 x -> (0 <= B2Q x)%Q -> (B2Q x <= 255)%Q ->
  0 <= f32_to_u8 x <= 255 /\
  (inject_Z (f32_to_u8 x) <= B2Q x)%Q /\ (B2Q x < inject_Z (f32_to_u8 x) + 1)%Q.
Proof.
  intros [V F] L U.
  destruct x as [s|s| |s m e]; try discriminate.
  - change (B2Q (S754_zero s)) with 0%Q. unfold f32_to_u8.
    change (inject_Z 0) with 0%Q. split; [lia|]. split; lra.
  - pose proof (mag_pos m e) as Hm. rewrite B2Q_finite in *.
    destruct s; [lra|].
    assert (T : exists t : Z,
               f32_to_u8 (S754_finite false m e) = t mod 256 /\ 0 <= t /\
               (inject_Z t <= mag m e)%Q /\ (mag m e < inject_Z t + 1)%Q).
    { unfold f32_to_u8, mag. destruct e as [|p|p].
      - exists (Z.pos m). split; [rewrite Z.pow_0_r, Z.mul_1_r; reflexivity|].
        split; [lia|]. change (pow2 0) with 1%Q. split; lra.
      - exists (Z.pos m * 2 ^ Z.pos p). split; [reflexivity|].
        split; [lia|]. rewrite pow2_inject by lia. rewrite <- inject_Z_mult.
        split; [lra|]. lra.
      - exists (Z.pos m / 2 ^ Z.pos p). split; [reflexivity|].
        assert (P : 0 < 2 ^ Z.pos p) by (apply Z.pow_pos_nonneg; lia).
        pose proof (Z.mul_div_le (Z.pos m) (2 ^ Z.pos p) P) as D1.
        pose proof (Z.mul_succ_div_gt (Z.pos m) (2 ^ Z.pos p) P) as D2.
        split; [apply Z.div_pos; lia|]. split.
        + assert (Q1 : (inject_Z (Z.pos m / 2 ^ Z.pos p)
                        == inject_Z (Z.pos m / 2 ^ Z.pos p) * pow2 0)%Q)
            by (change (pow2 0) with 1%Q; ring).
          rewrite Q1.
          apply (dyadic_le _ _ _ _ (Z.neg p)); try lia.
          change (0 - Z.neg p) with (Z.pos p).
          rewrite Z.sub_diag, Z.pow_0_r. lia.
        + assert (Q1 : (inject_Z (Z.pos m / 2 ^ Z.pos p) + 1
                        == inject_Z (Z.pos m / 2 ^ Z.pos p + 1) * pow2 0)%Q)
            by (rewrite inject_Z_plus; change (pow2 0) with 1%Q;
                change (inject_Z 1) with 1%Q; ring).
          rewrite Q1.
          apply (dyadic_lt _ _ _ _ (Z.neg p)); try lia.
          change (0 - Z.neg p) with (Z.pos p).
          rewrite Z.sub_diag, Z.pow_0_r. lia. }
    destruct T as (t & Et & T0 & T1 & T2).
    assert (T255 : t <= 255).
    { rewrite Zle_Qle. change (inject_Z 255) with 255%Q. lra. }
    rewrite Et, Z.mod_small by lia.
    split; [lia|]. split; assumption.
Qed.

Lemma pow2_0 : (pow2 0 == 1)%Q.
Proof. reflexivity. Qed.

(** A non-zero integer of at most 16 bits, scaled by a power of two, is
    a value of any format with room for it. *)
Lemma small_representable (f : format) (n e : Z) :
  good f -> 16 <= prec f -> SpecFloat.emin (prec f) (emax f) <= e ->
  16 + e <= emax f ->
  n <> 0 -> -65536 < n < 65536 ->
  exists b : spec_float,
    fin f b /\ (B2Q b == inject_Z n * pow2 e)%Q.
Proof.
  intros [Hp Hm] H16 Hemin Hemax Hn Hr.
  set (m := Z.to_pos (Z.abs n)).
  assert (Em : Z.pos m = Z.abs n) by (unfold m; rewrite Z2Pos.id; lia).
  assert (Hd : digits m <= 16).
  { apply digits_le_iff; [lia|]. rewrite Em. change (2 ^ 16) with 65536. lia. }
  pose proof (digits_bounds m) as Hb.
  assert (Hd0 : 0 < digits m).
  { destruct (Z_lt_le_dec 0 (digits m)) as [L|L]; [exact L|].
    assert (2 ^ digits m <= 2 ^ 0) by (apply Z.pow_le_mono_r; lia).
    change (2 ^ 0) with 1 in *. lia. }
  destruct (representable (prec f) (emax f) Hp Hm (n <? 0) m e) as (b & V & F & E).
  - unfold SpecFloat.fexp. lia.
  - lia.
  - exists b. split; [split; assumption|].
    rewrite E, B2Q_finite. unfold mag. rewrite Em.
    destruct (n <? 0) eqn:S; [apply Z.ltb_lt in S|apply Z.ltb_ge in S].
    + rewrite Z.abs_neq by lia. rewrite inject_Z_opp. ring.
    + rewrite Z.abs_eq by lia. ring.
Qed.

(** A 16-bit integer converts exactly to either format. *)
Lemma of_int_exact (f : format) (n : Z) :
  good f -> 16 <= prec f -> SpecFloat.emin (prec f) (emax f) <= 0 ->
  16 <= emax f -> -65536 < n < 65536 ->
  fin f (of_Z f n) /\ (B2Q (of_Z f n) == inject_Z n)%Q.
Proof.
  intros Hf H16 Hemin Hemax Hn.
  pose proof (of_Z_rounds f Hf n) as R.
  destruct (Z.eq_dec n 0) as [->|NZ].
  - split; [split; [apply R|reflexivity]|reflexivity].
  - destruct (small_representable f n 0 Hf H16 Hemin ltac:(lia) NZ Hn)
      as (b & [V F] & E).
    assert (E' : (B2Q b == inject_Z n)%Q)
      by (rewrite E; change (pow2 0) with 1%Q; ring).
    destruct (rounds_to_exact (prec f) (emax f) (proj1 Hf) _ _ _ R V F E')
      as [G Q].
    split; [split; [apply R|exact G]|exact Q].
Qed.

(** [flow_time_offset += 0.05], in exact arithmetic. *)
Lemma phase_steps (x : F32.t) :
  fin binary32 x -> (0 <= B2Q x)%Q ->
  (B2Q x <= 85070591730234615865843651857942052864)%Q ->
  (exists d : F64.t,
     rounds binary64 (B2Q x + (3602879701896397 # 72057594037927936)) d /\
     rounds binary32 (B2Q d) (next_phase x)) /\
  fin binary32 (next_phase x) /\
  (B2Q x <= B2Q (next_phase x))%Q /\
  ((B2Q x <= 524288)%Q ->
   (B2Q x + (1 # 100) <= B2Q (next_phase x))%Q /\
   (B2Q (next_phase x) <= B2Q x + (1 # 10))%Q) /\
  ((1048576 <= B2Q x)%Q -> next_phase x = x).
Proof.
  intros Fx L U.
  destruct (to_double_exact x Fx) as [Fy Ey].
  assert (Fc : fin binary64 (F64.lit 5 100)) by fin_const.
  assert (Ec : (B2Q (F64.lit 5 100) == 3602879701896397 # 72057594037927936)%Q)
    by qval.
  assert (Fb : fin binary64 (of_Z binary64 170141183460469231731687303715884105728))
    by fin_const.
  assert (Eb : (B2Q (of_Z binary64 170141183460469231731687303715884105728)
                == 170141183460469231731687303715884105728)%Q) by qval.
  pose proof (fadd_rounds binary64 good64 _ _ Fy Fc) as R64.
  pose proof (fadd_within binary64 good64 _ _ Fy Fc) as W64.
  rewrite Ey, Ec in R64, W64.
  destruct (rounds_between binary64 good64 _ _ _ _ _ _ R64 Fy Fb Ey Eb)
    as (Fz & Lz & Uz); try lra.
  set (z := fadd binary64 (to_double x) (F64.lit 5 100)) in *.
  assert (Gb : fin binary32 (of_Z binary32 170141183460469231731687303715884105728))
    by fin_const.
  assert (Hb : (B2Q (of_Z binary32 170141183460469231731687303715884105728)
                == 170141183460469231731687303715884105728)%Q) by qval.
  pose proof (fround_rounds binary32 good32 z (proj2 Fz)) as R32.
  pose proof (fround_within binary32 good32 z (proj2 Fz)) as W32.
  destruct (rounds_between binary32 good32 _ _ _ _ _ _ R32 Fx Gb (Qeq_refl _) Hb)
    as (Fr & Lr & Ur); try lra.
  change (fround binary32 z) with (next_phase x) in *.
  split; [exists z; split; assumption|].
  split; [exact Fr|]. split; [exact Lr|]. split.
  - intros Hs.
    assert (F9 : fin binary64 (of_Z binary64 524289)) by fin_const.
    assert (E9 : (B2Q (of_Z binary64 524289) == 524289)%Q) by qval.
    destruct (rounds_between binary64 good64 _ _ _ _ _ _ R64 Fy F9 Ey E9)
      as (_ & _ & Uz9); try lra.
    assert (P20 : (pow2 20 == 1048576)%Q) by qval.
    specialize (W64 (proj2 Fz) 20 ltac:(rewrite P20; lra)).
    change (SpecFloat.fexp (prec binary64) (emax binary64) 20 - 1) with (-34) in W64.
    assert (P34 : (pow2 (-34) == 1 # 17179869184)%Q) by qval.
    rewrite P34 in W64.
    specialize (W32 (proj2 Fr) 20 ltac:(rewrite P20; lra)).
    change (SpecFloat.fexp (prec binary32) (emax binary32) 20 - 1) with (-5) in W32.
    assert (P5 : (pow2 (-5) == 1 # 32)%Q) by qval.
    rewrite P5 in W32.
    split; lra.
  - intros Hl. apply phase_absorbs_increment; assumption.
Qed.

(** The distance of pixel [i] from a particle on the strip, and the
    argument handed to [exp]. *)
Lemma pixel_distance (pos : F32.t) (i : Z) :
  in_strip pos -> 0 <= i < NUM_LEDS ->
  let delta := F32.sub (F32.of_int i) pos in
  let dist := abs delta in
  let arg := F32.mul (F32.opp dist) GLOW_DECAY in
  rounds binary32 (inject_Z i - B2Q pos) delta /\ fin binary32 delta /\
  fin binary32 dist /\ (0 <= B2Q dist)%Q /\
  ((0 <= B2Q delta)%Q -> (B2Q dist == B2Q delta)%Q) /\
  ((B2Q delta <= 0)%Q -> (B2Q dist == - B2Q delta)%Q) /\
  rounds binary32 (- B2Q dist * (1 # 2)) arg /\ fin binary32 arg /\
  (B2Q arg <= 0)%Q.
Proof.
  intros Hp Hi delta dist arg.
  apply in_strip_enclosed in Hp. destruct Hp as (Fp & Lp & Up).
  assert (HN : NUM_LEDS = 30) by reflexivity. rewrite HN in Hi.
  destruct (of_int_exact binary32 i good32) as [Fi Ei];
    try discriminate; try lia.
  change (of_Z binary32 i) with (F32.of_int i) in Fi, Ei.
  assert (Li : (0 <= inject_Z i)%Q)
    by (change 0%Q with (inject_Z 0); rewrite <- Zle_Qle; lia).
  assert (Ui : (inject_Z i <= 30)%Q)
    by (change 30%Q with (inject_Z 30); rewrite <- Zle_Qle; lia).
  pose proof (fsub_rounds _ _ Fi Fp) as Rd. rewrite Ei in Rd. fold delta in Rd.
  assert (Fm : fin binary32 (F32.of_int (-30))) by fin_const.
  assert (F30 : fin binary32 (F32.of_int 30)) by fin_const.
  assert (F0 : fin binary32 (F32.of_int 0)) by fin_const.
  assert (Em : (B2Q (F32.of_int (-30)) == -30)%Q) by qval.
  assert (E30 : (B2Q (F32.of_int 30) == 30)%Q) by qval.
  assert (E0 : (B2Q (F32.of_int 0) == 0)%Q) by qval.
  destruct (rounds_between binary32 good32 _ _ _ _ _ _ Rd Fm F30 Em E30)
    as (Fd & Ld & Ud); try lra.
  destruct (abs_value delta Fd) as (Fa & La & Ap & An). fold dist in Fa, La, Ap, An.
  assert (Ua : (B2Q dist <= 30)%Q).
  { destruct (Qlt_le_dec (B2Q delta) 0) as [H|H].
    - rewrite An by lra. lra.
    - rewrite Ap by lra. lra. }
  assert (Fg : fin binary32 GLOW_DECAY) by fin_const.
  assert (Eg : (B2Q GLOW_DECAY == 1 # 2)%Q) by qval.
  pose proof (fmul_rounds binary32 good32 _ _ (fin_opp binary32 dist Fa) Fg) as Ra.
  rewrite B2Q_opp, Eg in Ra.
  change (fmul binary32 (SFopp dist) GLOW_DECAY) with arg in Ra.
  destruct (rounds_between binary32 good32 _ _ _ _ _ _ Ra Fm F0 Em E0)
    as (Fr & Lr & Ur); try lra.
  split; [exact Rd|]. split; [exact Fd|]. split; [exact Fa|]. split; [exact La|].
  split; [exact Ap|]. split; [exact An|]. split; [exact Ra|]. split; [exact Fr|].
  exact Ur.
Qed.

(** The argument handed to [sin] for pixel [i]. *)
Lemma pixel_angle (phase : F32.t) (i : Z) :
  fin binary32 phase ->
  (- (85070591730234615865843651857942052864) <= B2Q phase)%Q ->
  (B2Q phase <= 85070591730234615865843651857942052864)%Q ->
  0 <= i < NUM_LEDS ->
  let angle := F64.add (F64.mul (F64.of_int i) (F64.lit 3 10)) (to_double phase) in
  (exists t : F64.t,
     rounds binary64 (inject_Z i * (5404319552844595 # 18014398509481984)) t /\
     rounds binary64 (B2Q t + B2Q phase) angle) /\
  fin binary64 angle.
Proof.
  intros Fp Lp Up Hi angle.
  assert (HN : NUM_LEDS = 30) by reflexivity. rewrite HN in Hi.
  destruct (of_int_exact binary64 i good64) as [Fi Ei];
    try discriminate; try lia.
  change (of_Z binary64 i) with (F64.of_int i) in Fi, Ei.
  assert (Li : (0 <= inject_Z i)%Q)
    by (change 0%Q with (inject_Z 0); rewrite <- Zle_Qle; lia).
  assert (Ui : (inject_Z i <= 30)%Q)
    by (change 30%Q with (inject_Z 30); rewrite <- Zle_Qle; lia).
  assert (Fc : fin binary64 (F64.lit 3 10)) by fin_const.
  assert (Ec : (B2Q (F64.lit 3 10) == 5404319552844595 # 18014398509481984)%Q)
    by qval.
  pose proof (fmul_rounds binary64 good64 _ _ Fi Fc) as Rt. rewrite Ei, Ec in Rt.
  assert (F0 : fin binary64 (F64.of_int 0)) by fin_const.
  assert (F9 : fin binary64 (F64.of_int 9)) by fin_const.
  assert (E0 : (B2Q (F64.of_int 0) == 0)%Q) by qval.
  assert (E9 : (B2Q (F64.of_int 9) == 9)%Q) by qval.
  destruct (rounds_between binary64 good64 _ _ _ _ _ _ Rt F0 F9 E0 E9)
    as (Ft & Lt & Ut); try lra.
  destruct (to_double_exact phase Fp) as [Fpd Epd].
  pose proof (fadd_rounds binary64 good64 _ _ Ft Fpd) as Ra. rewrite Epd in Ra.
  change (fadd binary64 (fmul binary64 (F64.of_int i) (F64.lit 3 10))
               (to_double phase)) with angle in Ra.
  assert (Fb : fin binary64 (of_Z binary64 170141183460469231731687303715884105728))
    by fin_const.
  assert (Eb : (B2Q (of_Z binary64 170141183460469231731687303715884105728)
                == 170141183460469231731687303715884105728)%Q) by qval.
  assert (Fnb : fin binary64
                  (of_Z binary64 (-170141183460469231731687303715884105728)))
    by fin_const.
  assert (Enb : (B2Q (of_Z binary64 (-170141183460469231731687303715884105728))
                 == -170141183460469231731687303715884105728)%Q) by qval.
  destruct (rounds_between binary64 good64 _ _ _ _ _ _ Ra Fnb Fb Enb Eb)
    as (Fa & _); try lra.
  split; [|exact Fa].
  exists (F64.mul (F64.of_int i) (F64.lit 3 10)). split; assumption.
Qed.
End Meaning.

(* ================================================================== *)
(** * Claims about the physics integrator *)
(* ================================================================== *)

Section Integrator.
Context {platform : Platform}.
Import IEEE RoundingFacts FloatFacts.

(** C1.  Every tick, [update_led_strip] first integrates: the state that
    enters the boundary check has velocity
    [v' = clamp(0.98 * (vel + 0.2 * tilt), -1.0, 1.0)] (force, then drag,
    then clamp) and position [pos + v'], nothing else has changed, and
    the rest of the tick is the boundary check and the rasteriser run
    from that state.  In exact arithmetic, for finite operands: the
    force is a rounding of [tilt * 0.2], the forced velocity a rounding
    of [vel + force], the damped one a rounding of [forced * 0.98]
    (0.2 and 0.98 being the nearest [double]s); the velocity stored is
    -1 when the damped one is below -1, 1 when it is above 1 and the
    damped one itself in between; and the position is a rounding of
    [pos + v']. *)
Theorem integration_order (st : Globals) :
  exists st1 : Globals,
    physics_update st = Some (tt, st1, []) /\
    water_vel st1 =
      constrain
        (to_float (F64.mul
           (to_double (F32.add (water_vel st)
              (to_float (F64.mul (to_double (g_tilt_x st)) (F64.lit 2 10)))))
           (F64.lit 98 100)))
        (F32.opp MAX_VELOCITY) MAX_VELOCITY /\
    water_pos st1 = F32.add (water_pos st) (water_vel st1) /\
    g_tilt_x st1 = g_tilt_x st /\
    g_sensor_connected st1 = g_sensor_connected st /\
    leds st1 = leds st /\
    flow_time_offset st1 = flow_time_offset st /\
    ascii_visual st1 = ascii_visual st /\
    update_led_strip st = bind edge_reflection (fun _ => render_glow) st1 /\
    (fin binary32 (g_tilt_x st) -> fin binary32 (water_vel st) ->
     fin binary32 (water_pos st) ->
     (- (85070591730234615865843651857942052864) <= B2Q (water_vel st))%Q ->
     (B2Q (water_vel st) <= 85070591730234615865843651857942052864)%Q ->
     let force := to_float (F64.mul (to_double (g_tilt_x st)) (F64.lit 2 10)) in
     let forced := F32.add (water_vel st) force in
     let damped := to_float (F64.mul (to_double forced) (F64.lit 98 100)) in
     (exists a d : F64.t,
        rounds binary64
          (B2Q (g_tilt_x st) * (3602879701896397 # 18014398509481984)) a /\
        rounds binary32 (B2Q a) force /\
        rounds binary32 (B2Q (water_vel st) + B2Q force) forced /\
        rounds binary64
          (B2Q forced * (8827055269646172 # 9007199254740992)) d /\
        rounds binary32 (B2Q d) damped) /\
     fin binary32 damped /\
     ((B2Q damped < -1)%Q -> (B2Q (water_vel st1) == -1)%Q) /\
     ((1 < B2Q damped)%Q -> (B2Q (water_vel st1) == 1)%Q) /\
     ((-1 <= B2Q damped)%Q -> (B2Q damped <= 1)%Q -> water_vel st1 = damped) /\
     fin binary32 (water_vel st1) /\
     (-1 <= B2Q (water_vel st1))%Q /\ (B2Q (water_vel st1) <= 1)%Q /\
     rounds binary32 (B2Q (water_pos st) + B2Q (water_vel st1)) (water_pos st1)).
Proof.
  exists (integrated st). split; [apply physics_update_spec|].
  split; [reflexivity|]. split; [reflexivity|]. split; [reflexivity|].
  split; [reflexivity|]. split; [reflexivity|]. split; [reflexivity|].
  split; [reflexivity|]. split.
  { unfold update_led_strip, bind at 1. rewrite physics_update_spec.
    destruct (bind edge_reflection (fun _ => render_glow) (integrated st))
      as [[[u s] e]|]; reflexivity. }
  intros Ft Fv Fp Lv Uv force forced damped.
  destruct (velocity_steps _ _ Ft Fv Lv Uv) as (Hsteps & _ & _ & Fd).
  fold force forced damped in Hsteps, Fd.
  destruct (constrain_cases damped Fd) as (Clo & Chi & Cin).
  destruct (constrain_enclosed damped Fd) as (Fc & Lc & Uc).
  change (water_vel (integrated st))
    with (constrain damped (F32.opp MAX_VELOCITY) MAX_VELOCITY).
  split; [exact Hsteps|]. split; [exact Fd|].
  split; [exact Clo|]. split; [exact Chi|]. split; [exact Cin|].
  split; [exact Fc|]. split; [exact Lc|]. split; [exact Uc|].
  change (water_pos (integrated st))
    with (F32.add (water_pos st)
            (constrain damped (F32.opp MAX_VELOCITY) MAX_VELOCITY)).
  exact (fadd_rounds binary32 good32 _ _ Fp Fc).
Qed.

(** C2.  From a position in [0, 30) and a velocity of magnitude at most
    1.0, with a tilt in [-1.0, 1.0], a tick ends with the position again
    in [0, NUM_LEDS) and the velocity magnitude at most [MAX_VELOCITY]. *)
Theorem tick_preserves_bounds (st : Globals) :
  in_strip (water_pos st) -> speed_ok (water_vel st) -> tilt_ok (g_tilt_x st) ->
  exists (st' : Globals) (ev : list Event),
    update_led_strip st = Some (tt, st', ev) /\
    in_strip (water_pos st') /\ speed_ok (water_vel st').
Proof.
  intros Hp Hv Ht.
  exists (rendered (reflected (integrated st))), [].
  split; [apply update_led_strip_spec|].
  apply in_strip_enclosed in Hp. destruct Hp as (Fp & Lp & Up).
  apply speed_ok_enclosed in Hv. apply tilt_ok_enclosed in Ht.
  pose proof (next_velocity_enclosed _ _ Ht Hv) as Hv'.
  pose proof (integrated_position _ _ Fp Lp Up Hv') as Fp'.
  change (water_pos (rendered (reflected (integrated st))))
    with (water_pos (reflected (integrated st))).
  change (water_vel (rendered (reflected (integrated st))))
    with (water_vel (reflected (integrated st))).
  unfold reflected.
  change (water_pos (integrated st))
    with (F32.add (water_pos st) (next_velocity (g_tilt_x st) (water_vel st))).
  change (water_vel (integrated st))
    with (next_velocity (g_tilt_x st) (water_vel st)).
  set (v' := next_velocity (g_tilt_x st) (water_vel st)) in *.
  set (p' := F32.add (water_pos st) v') in *.
  assert (F0 : fin binary32 (F32.of_int 0)) by (split; vm_compute; reflexivity).
  assert (F30 : fin binary32 (F32.of_int NUM_LEDS)) by (split; vm_compute; reflexivity).
  assert (E0 : (B2Q (F32.of_int 0) == 0)%Q) by (vm_compute; reflexivity).
  assert (E30 : (B2Q (F32.of_int NUM_LEDS) == 30)%Q) by (vm_compute; reflexivity).
  destruct (flt p' (F32.of_int 0)) eqn:Hneg.
  - simpl water_pos. simpl water_vel. split.
    + apply in_strip_enclosed. split; [exact F0|]. rewrite E0. split; lra.
    + apply speed_ok_enclosed. apply bounce_enclosed. exact Hv'.
  - destruct (fge p' (F32.of_int NUM_LEDS)) eqn:Hfar;
      simpl water_pos; simpl water_vel.
    + split.
      * unfold in_strip. repeat split; vm_compute; reflexivity.
      * apply speed_ok_enclosed. apply bounce_enclosed. exact Hv'.
    + split.
      * apply in_strip_enclosed. split; [exact Fp'|].
        apply (flt_false_iff binary32 good32) in Hneg; try assumption.
        apply (fle_false_iff binary32 good32) in Hfar; try assumption.
        rewrite E0 in Hneg. rewrite E30 in Hfar. split; assumption.
      * apply speed_ok_enclosed. exact Hv'.
Qed.

Lemma far_side_not_negative (p : F32.t) :
  fge p (F32.of_int NUM_LEDS) = true -> flt p (F32.of_int 0) = false.
Proof.
  unfold fge, flt. change (F32.of_int NUM_LEDS) with (S754_finite false 15728640 (-19)).
  change (F32.of_int 0) with (S754_zero false).
  destruct p as [s|s| |s m e]; try discriminate; try reflexivity.
  - destruct s; [discriminate|reflexivity].
  - destruct s; [discriminate|reflexivity].
Qed.

(** C3.  When the integration step takes the position to [NUM_LEDS] or
    beyond, the tick ends at [(float)NUM_LEDS - 0.001] with velocity
    [-v * 0.85], [v] the clamped velocity; when it takes the position
    below 0, the tick ends at exactly 0 with velocity [-v * 0.85].  The
    far position is the binary32 value 29.99900054931640625.  In exact
    arithmetic, for a finite position and velocity: the two tests are
    [30 <= pos] and [pos < 0]; the velocity after a bounce is a
    rounding of [-v * 0.85] (0.85 being the nearest [float]), so it is
    negative or zero when [v] was positive and positive or zero when
    [v] was negative; and the position after it is 29.999... at the far
    edge and 0 at the near one. *)
Theorem boundary_reflection (st st1 : Globals) :
  physics_update st = Some (tt, st1, []) ->
  exists (st' : Globals) (ev : list Event),
    update_led_strip st = Some (tt, st', ev) /\
    (fge (water_pos st1) (F32.of_int NUM_LEDS) = true ->
       water_pos st' =
         to_float (F64.sub (to_double (F32.of_int NUM_LEDS)) (F64.lit 1 1000)) /\
       water_vel st' = F32.mul (F32.opp (water_vel st1)) BOUNCE_DAMPING) /\
    (flt (water_pos st1) (F32.of_int 0) = true ->
       water_pos st' = F32.of_int 0 /\
       water_vel st' = F32.mul (F32.opp (water_vel st1)) BOUNCE_DAMPING) /\
    (B2Q (to_float (F64.sub (to_double (F32.of_int NUM_LEDS)) (F64.lit 1 1000)))
     == 15728116 # 524288)%Q /\
    (B2Q BOUNCE_DAMPING == 14260634 # 16777216)%Q /\
    (fin binary32 (water_pos st1) -> fin binary32 (water_vel st1) ->
     (fge (water_pos st1) (F32.of_int NUM_LEDS) = true
      <-> (30 <= B2Q (water_pos st1))%Q) /\
     (flt (water_pos st1) (F32.of_int 0) = true
      <-> (B2Q (water_pos st1) < 0)%Q) /\
     ((30 <= B2Q (water_pos st1))%Q ->
      (B2Q (water_pos st') == 15728116 # 524288)%Q /\
      rounds binary32 (- B2Q (water_vel st1) * (14260634 # 16777216))
             (water_vel st') /\
      ((0 <= B2Q (water_vel st1))%Q -> (B2Q (water_vel st') <= 0)%Q) /\
      ((B2Q (water_vel st1) <= 0)%Q -> (0 <= B2Q (water_vel st'))%Q)) /\
     ((B2Q (water_pos st1) < 0)%Q ->
      (B2Q (water_pos st') == 0)%Q /\
      rounds binary32 (- B2Q (water_vel st1) * (14260634 # 16777216))
             (water_vel st') /\
      ((0 <= B2Q (water_vel st1))%Q -> (B2Q (water_vel st') <= 0)%Q) /\
      ((B2Q (water_vel st1) <= 0)%Q -> (0 <= B2Q (water_vel st'))%Q)) /\
     ((0 <= B2Q (water_pos st1))%Q -> (B2Q (water_pos st1) < 30)%Q ->
      water_pos st' = water_pos st1 /\ water_vel st' = water_vel st1)).
Proof.
  intros H1. rewrite physics_update_spec in H1.
  injection H1 as <-.
  exists (rendered (reflected (integrated st))), [].
  split; [apply update_led_strip_spec|].
  change (water_pos (rendered (reflected (integrated st))))
    with (water_pos (reflected (integrated st))).
  change (water_vel (rendered (reflected (integrated st))))
    with (water_vel (reflected (integrated st))).
  assert (Efar : (B2Q (to_float (F64.sub (to_double (F32.of_int NUM_LEDS))
                                         (F64.lit 1 1000)))
                  == 15728116 # 524288)%Q) by (vm_compute; reflexivity).
  split; [|split; [|split; [exact Efar|split; [vm_compute; reflexivity|]]]].
  - intros Hfar. unfold reflected.
    rewrite (far_side_not_negative _ Hfar), Hfar. split; reflexivity.
  - intros Hneg. unfold reflected. rewrite Hneg. split; reflexivity.
  - intros Fp Fv.
    assert (F0 : fin binary32 (F32.of_int 0)) by (split; vm_compute; reflexivity).
    assert (F30 : fin binary32 (F32.of_int NUM_LEDS))
      by (split; vm_compute; reflexivity).
    assert (E0 : (B2Q (F32.of_int 0) == 0)%Q) by (vm_compute; reflexivity).
    assert (E30 : (B2Q (F32.of_int NUM_LEDS) == 30)%Q) by (vm_compute; reflexivity).
    assert (Tfar : fge (water_pos (integrated st)) (F32.of_int NUM_LEDS) = true
                   <-> (30 <= B2Q (water_pos (integrated st)))%Q).
    { unfold fge. rewrite (fle_iff binary32 good32 _ _ F30 Fp).
      rewrite E30; reflexivity. }
    assert (Tneg : flt (water_pos (integrated st)) (F32.of_int 0) = true
                   <-> (B2Q (water_pos (integrated st)) < 0)%Q).
    { rewrite (flt_iff binary32 good32 _ _ Fp F0). rewrite E0; reflexivity. }
    destruct (bounce_value _ Fv) as (Rb & _ & Sp & Sn). cbv zeta in Rb, Sp, Sn.
    split; [exact Tfar|]. split; [exact Tneg|]. split; [|split].
    + intros Hge. apply Tfar in Hge. unfold reflected.
      rewrite (far_side_not_negative _ Hge), Hge. cbn [water_pos water_vel set_vel set_pos].
      split; [exact Efar|]. split; [exact Rb|]. split; assumption.
    + intros Hlt. apply Tneg in Hlt. unfold reflected. rewrite Hlt.
      cbn [water_pos water_vel set_vel set_pos].
      split; [exact E0|]. split; [exact Rb|]. split; assumption.
    + intros Hge Hlt. unfold reflected.
      assert (N1 : flt (water_pos (integrated st)) (F32.of_int 0) = false).
      { apply (proj2 (flt_false_iff binary32 good32 _ _ Fp F0)). rewrite E0. exact Hge. }
      assert (N2 : fge (water_pos (integrated st)) (F32.of_int NUM_LEDS) = false).
      { apply (proj2 (fle_false_iff binary32 good32 _ _ F30 Fp)).
        rewrite E30. exact Hlt. }
      rewrite N1, N2. split; reflexivity.
Qed.
End Integrator.

(* ================================================================== *)
(** * Damping-only decay *)
(* ================================================================== *)

Section Decay.
Context {platform : Platform}.
Import IEEE RoundingFacts FloatFacts.

(** A [float] of magnitude at least [FLT_MIN] is a normal number. *)
Lemma normal_of_FLT_MIN (v : F32.t) :
  fin binary32 v -> fle FLT_MIN (SFabs v) = true ->
  exists (s : bool) (m : positive) (e : Z),
    v = S754_finite s m e /\ -149 <= e /\
    (inject_Z 8388608 * pow2 e <= mag m e)%Q /\ (mag m e < pow2 (24 + e))%Q.
Proof.
  intros F H. pose proof (fin_abs _ _ F) as Fa.
  apply (fle_iff binary32 good32) in H; [|split; reflexivity|exact Fa].
  destruct v as [s|s| |s m e]; try (destruct F; discriminate).
  - exfalso. change (B2Q (SFabs (S754_zero s))) with 0%Q in H.
    assert (Hpos : (0 < B2Q FLT_MIN)%Q) by (vm_compute; reflexivity). lra.
  - exists s, m, e. split; [reflexivity|].
    change (SFabs (S754_finite s m e)) with (S754_finite false m e) in H.
    rewrite !B2Q_finite in H.
    destruct F as [V _]. unfold valid in V. simpl in V.
    apply (bounded_canonical 24 128) in V. destruct V as [C _].
    pose proof (canonical_digits 24 128 m e C) as [Hd He].
    change (SpecFloat.emin 24 128) with (-149) in He.
    assert (Hdig : digits m = 24).
    { destruct (Z.eq_dec e (-149)) as [E|E].
      - subst e. unfold mag in H.
        apply (dyadic_le _ _ _ _ (-149)) in H; try lia.
        rewrite Z.sub_diag, Z.pow_0_r, !Z.mul_1_r in H.
        assert (24 <= digits m); [|lia].
        destruct (Z.le_gt_cases 24 (digits m)) as [Hle|Hgt]; [exact Hle|].
        assert (Zpos m < 2 ^ 23) by (apply digits_le_iff; lia). lia.
      - apply (canonical_normal 24 128 m e C).
        change (SpecFloat.emin 24 128) with (-149). lia. }
    pose proof (digits_bounds m) as [Hlo Hhi]. rewrite Hdig in Hlo, Hhi.
    split; [exact He|]. split.
    + unfold mag. apply (dyadic_le _ _ _ _ e); try lia.
      rewrite Z.sub_diag, Z.pow_0_r, !Z.mul_1_r. simpl in Hlo. lia.
    + pose proof (mag_digits_hi m e) as Hh. rewrite Hdig in Hh. exact Hh.
Qed.

(** One application of the drag, [(float)((double)v * 0.98)], strictly
    reduces the magnitude of a normal [float]. *)
Lemma drag_decreases (v : F32.t) :
  fin binary32 v -> fle FLT_MIN (SFabs v) = true ->
  let w := to_float (F64.mul (to_double v) (F64.lit 98 100)) in
  fin binary32 w /\
  (- B2Q (SFabs v) < B2Q w)%Q /\ (B2Q w < B2Q (SFabs v))%Q.
Proof.
  intros F H w.
  destruct (normal_of_FLT_MIN v F H) as (s & m & e & Ev & He & Ha1 & Ha2).
  pose proof (fin_abs _ _ F) as Fa.
  pose proof (fin_opp _ _ Fa) as Fna.
  assert (EA : (B2Q (SFabs v) == mag m e)%Q).
  { rewrite Ev. change (SFabs (S754_finite s m e)) with (S754_finite false m e).
    rewrite B2Q_finite. reflexivity. }
  assert (EnA : (B2Q (SFopp (SFabs v)) == - mag m e)%Q)
    by (rewrite B2Q_opp, EA; reflexivity).
  assert (Ex : (B2Q v == mag m e)%Q \/ (B2Q v == - mag m e)%Q).
  { rewrite Ev, B2Q_finite. destruct s; [right|left]; reflexivity. }
  pose proof (mag_pos m e) as Hap. pose proof (pow2_pos e) as Hu.
  set (a := mag m e) in *. set (u := pow2 e) in *.
  destruct (to_double_exact v F) as [Fd Ed].
  pose proof (fin_abs _ _ Fd) as Fda. pose proof (fin_opp _ _ Fda) as Fnda.
  assert (EdA : (B2Q (SFabs (to_double v)) == a)%Q).
  { destruct (B2Q_abs_cases (to_double v)) as [[E1 E2]|[E1 E2]];
      rewrite E1, Ed; rewrite Ed in E2; destruct Ex as [Ex|Ex]; lra. }
  assert (EndA : (B2Q (SFopp (SFabs (to_double v))) == - a)%Q)
    by (rewrite B2Q_opp, EdA; reflexivity).
  assert (Fc : fin binary64 (F64.lit 98 100)) by (split; vm_compute; reflexivity).
  assert (Ec : (B2Q (F64.lit 98 100) == 8827055269646172 # 9007199254740992)%Q)
    by (vm_compute; reflexivity).
  pose proof (fmul_rounds binary64 good64 _ _ Fd Fc) as R64.
  pose proof (fmul_within binary64 good64 _ _ Fd Fc) as W64.
  rewrite Ed, Ec in R64, W64.
  set (p := (B2Q v * (8827055269646172 # 9007199254740992))%Q) in *.
  assert (Hp : (- a * (8827055269646172 # 9007199254740992) <= p /\
                p <= a * (8827055269646172 # 9007199254740992))%Q)
    by (unfold p; destruct Ex as [Ex|Ex]; rewrite Ex; split; lra).
  destruct (rounds_between binary64 good64 p _ _ _ (- a) a R64 Fnda Fda EndA EdA)
    as (F64m & L64 & U64); try lra.
  set (m64 := F64.mul (to_double v) (F64.lit 98 100)) in *.
  change (fmul binary64 (to_double v) (F64.lit 98 100)) with m64 in *.
  specialize (W64 (proj2 F64m) (24 + e) ltac:(lra)).
  replace (SpecFloat.fexp (prec binary64) (emax binary64) (24 + e) - 1)
    with (e + -30) in W64
    by (unfold SpecFloat.fexp, SpecFloat.emin;
        change (prec binary64) with 53; change (emax binary64) with 1024; lia).
  rewrite pow2_add in W64. fold u in W64.
  assert (E30 : (pow2 (-30) == 1 # 1073741824)%Q) by (vm_compute; reflexivity).
  rewrite E30 in W64.
  pose proof (fround_rounds binary32 good32 m64 (proj2 F64m)) as R32.
  pose proof (fround_within binary32 good32 m64 (proj2 F64m)) as W32.
  destruct (rounds_between binary32 good32 _ _ _ _ (- a) a R32 Fna Fa EnA EA)
    as (F32w & L32 & U32); try lra.
  change (fround binary32 m64) with w in *.
  specialize (W32 (proj2 F32w) (24 + e) ltac:(lra)).
  replace (SpecFloat.fexp (prec binary32) (emax binary32) (24 + e) - 1)
    with (e + -1) in W32
    by (unfold SpecFloat.fexp, SpecFloat.emin;
        change (prec binary32) with 24; change (emax binary32) with 128; lia).
  rewrite pow2_add in W32. fold u in W32.
  assert (E1 : (pow2 (-1) == 1 # 2)%Q) by (vm_compute; reflexivity).
  rewrite E1 in W32.
  split; [exact F32w|]. rewrite EA.
  change (inject_Z 8388608) with (8388608 # 1)%Q in Ha1.
  split; lra.
Qed.

Lemma zero_tilt_no_force (s : bool) :
  to_float (F64.mul (to_double (S754_zero s)) (F64.lit 2 10)) = S754_zero s.
Proof. destruct s; vm_compute; reflexivity. Qed.

Lemma constrain_shrinks (w : F32.t) (A : Q) :
  fin binary32 w -> (- A < B2Q w)%Q -> (B2Q w < A)%Q ->
  let c := constrain w (F32.opp MAX_VELOCITY) MAX_VELOCITY in
  fin binary32 c /\ (- A < B2Q c)%Q /\ (B2Q c < A)%Q.
Proof.
  intros F L U c. subst c.
  assert (F1 : fin binary32 MAX_VELOCITY) by (split; vm_compute; reflexivity).
  assert (Fm : fin binary32 (F32.opp MAX_VELOCITY)) by (split; vm_compute; reflexivity).
  assert (E1 : (B2Q MAX_VELOCITY == 1)%Q) by (vm_compute; reflexivity).
  assert (Em : (B2Q (F32.opp MAX_VELOCITY) == -1)%Q) by (vm_compute; reflexivity).
  unfold constrain, fgt.
  change (SFltb MAX_VELOCITY w) with (flt MAX_VELOCITY w).
  destruct (flt w (F32.opp MAX_VELOCITY)) eqn:Hlo.
  - apply (flt_iff binary32 good32) in Hlo; try assumption.
    rewrite Em in *. split; [exact Fm|]. split; lra.
  - destruct (flt MAX_VELOCITY w) eqn:Hhi.
    + apply (flt_iff binary32 good32) in Hhi; try assumption.
      rewrite E1 in *. split; [exact F1|]. split; lra.
    + split; [exact F|]. split; assumption.
Qed.

Lemma bounce_shrinks (c : F32.t) (A : Q) :
  fin binary32 c -> (- A < B2Q c)%Q -> (B2Q c < A)%Q ->
  let v := F32.mul (F32.opp c) BOUNCE_DAMPING in
  fin binary32 v /\ (- A < B2Q v)%Q /\ (B2Q v < A)%Q.
Proof.
  intros F L U v. subst v. unfold F32.mul, F32.opp, F32.fmt.
  assert (Fc : fin binary32 BOUNCE_DAMPING) by (split; vm_compute; reflexivity).
  assert (Ec : (B2Q BOUNCE_DAMPING == 14260634 # 16777216)%Q) by (vm_compute; reflexivity).
  pose proof (fmul_rounds binary32 good32 _ _ (fin_opp binary32 c F) Fc) as R.
  rewrite B2Q_opp, Ec in R.
  pose proof (fin_abs _ _ F) as Fa. pose proof (fin_opp _ _ Fa) as Fna.
  pose proof (B2Q_opp (SFabs c)) as Eo.
  destruct (B2Q_abs_cases c) as [[E1 E2]|[E1 E2]].
  - destruct (rounds_between binary32 good32 _ _ _ _ (- B2Q c) (B2Q c) R Fna Fa)
      as (Fv & Lv & Uv); try lra.
    split; [exact Fv|]. split; lra.
  - destruct (rounds_between binary32 good32 _ _ _ _ (B2Q c) (- B2Q c) R Fna Fa)
      as (Fv & Lv & Uv); try lra.
    split; [exact Fv|]. split; lra.
Qed.

(** C4.  With a tilt of 0 and a velocity of magnitude at least [FLT_MIN],
    a tick strictly reduces the magnitude of the velocity, across the
    drag and across a bounce; the velocity stays a finite [float] and the
    tilt is not touched, so the same holds at the next tick for as long
    as the magnitude has not fallen below [FLT_MIN]. *)
Theorem damping_only_decay (st : Globals) :
  is_zero (g_tilt_x st) = true ->
  F32.valid (water_vel st) = true -> is_finite (water_vel st) = true ->
  fle FLT_MIN (SFabs (water_vel st)) = true ->
  exists (st' : Globals) (ev : list Event),
    update_led_strip st = Some (tt, st', ev) /\
    flt (SFabs (water_vel st')) (SFabs (water_vel st)) = true /\
    F32.valid (water_vel st') = true /\ is_finite (water_vel st') = true /\
    g_tilt_x st' = g_tilt_x st.
Proof.
  intros Hz V Fi Hmin.
  exists (rendered (reflected (integrated st))), [].
  split; [apply update_led_strip_spec|].
  assert (F : fin binary32 (water_vel st)) by (split; assumption).
  destruct (drag_decreases _ F Hmin) as (Fw & Lw & Uw). cbv zeta in *.
  destruct (normal_of_FLT_MIN _ F Hmin) as (s & m & e & Ev & _).
  assert (Hnv : next_velocity (g_tilt_x st) (water_vel st)
                = constrain (to_float (F64.mul (to_double (water_vel st)) (F64.lit 98 100)))
                            (F32.opp MAX_VELOCITY) MAX_VELOCITY).
  { unfold next_velocity. cbv zeta.
    destruct (g_tilt_x st) as [s0| | |]; try discriminate.
    rewrite zero_tilt_no_force, Ev. reflexivity. }
  destruct (constrain_shrinks _ _ Fw Lw Uw) as (Fc & Lc & Uc). cbv zeta in *.
  rewrite <- Hnv in Fc, Lc, Uc.
  destruct (bounce_shrinks _ _ Fc Lc Uc) as (Fb & Lb & Ub). cbv zeta in *.
  change (water_vel (rendered (reflected (integrated st))))
    with (water_vel (reflected (integrated st))).
  change (g_tilt_x (rendered (reflected (integrated st))))
    with (g_tilt_x (reflected (integrated st))).
  assert (Hv' : fin binary32 (water_vel (reflected (integrated st))) /\
                (- B2Q (SFabs (water_vel st)) < B2Q (water_vel (reflected (integrated st))))%Q /\
                (B2Q (water_vel (reflected (integrated st))) < B2Q (SFabs (water_vel st)))%Q /\
                g_tilt_x (reflected (integrated st)) = g_tilt_x st).
  { unfold reflected.
    destruct (flt (water_pos (integrated st)) (F32.of_int 0));
      [|destruct (fge (water_pos (integrated st)) (F32.of_int NUM_LEDS))];
      simpl water_vel; simpl g_tilt_x;
      (split; [assumption|split; [assumption|split; [assumption|reflexivity]]]). }
  destruct Hv' as (Fv' & Lv' & Uv' & Ht).
  split; [|split; [apply Fv'|split; [apply Fv'|exact Ht]]].
  apply (flt_iff binary32 good32); [apply fin_abs; exact Fv'|apply fin_abs; exact F|].
  destruct (B2Q_abs_cases (water_vel (reflected (integrated st)))) as [[E1 _]|[E1 _]];
    rewrite E1; lra.
Qed.

(** Below [FLT_MIN] the decay can stall: the least positive [float],
    [2^-149], is a fixed point of the drag. *)
Lemma decay_stalls_at_least_subnormal :
  let tiny := S754_finite false 1 (-149) in
  water_vel (reflected (integrated (set_vel tiny initial_globals))) = tiny.
Proof. vm_compute. reflexivity. Qed.
End Decay.

(* ================================================================== *)
(** * Claims about the sensor loop *)
(* ================================================================== *)

Section Sensor.
Context {platform : Platform}.
Import IEEE RoundingFacts FloatFacts.

(** Division of a normal [double] by [16384.0] is a division of
    significands that leaves no remainder. *)
Lemma div_core_16384 (mx : positive) (ex : Z) :
  digits mx = 53 -> -1059 <= ex ->
  SFdiv_core_binary 53 1024 (Z.pos mx) ex 4503599627370496 (-38)
  = (Z.pos mx~0, ex - 15, loc_Exact).
Proof.
  intros Hd He. unfold SFdiv_core_binary.
  change (Zdigits2 (Z.pos mx)) with (digits mx). rewrite Hd.
  change (Zdigits2 4503599627370496) with 53.
  cbv zeta.
  assert (E : Z.min (SpecFloat.fexp 53 1024 (53 + ex - (53 + -38))) (ex - -38)
              = ex - 15).
  { unfold SpecFloat.fexp, SpecFloat.emin. lia. }
  change (IntDef.Z.min (SpecFloat.fexp 53 1024 (53 + ex - (53 + -38))) (ex - -38))
    with (Z.min (SpecFloat.fexp 53 1024 (53 + ex - (53 + -38))) (ex - -38)).
  rewrite E.
  replace (ex - -38 - (ex - 15)) with 53 by lia.
  change (IntDef.Z.shiftl (Z.pos mx) 53) with (Z.shiftl (Z.pos mx) 53).
  rewrite Z.shiftl_mul_pow2 by lia.
  change (IntDef.Z.div_eucl (Z.pos mx * 2 ^ 53) 4503599627370496)
    with (Z.div_eucl (Z.pos mx * 2 ^ 53) 4503599627370496).
  pose proof (Z_div_mod (Z.pos mx * 2 ^ 53) 4503599627370496 eq_refl) as H.
  destruct (Z.div_eucl (Z.pos mx * 2 ^ 53) 4503599627370496) as [q r].
  destruct H as [H1 H2].
  change (2 ^ 53) with 9007199254740992 in H1.
  assert (r = 0) by lia. assert (q = Z.pos mx~0) by lia. subst q r.
  reflexivity.
Qed.

(** A [double] of magnitude at least 1 is normal. *)
Lemma normal_above_one (s : bool) (m : positive) (e : Z) :
  F64.valid (S754_finite s m e) = true -> (1 <= mag m e)%Q ->
  digits m = 53 /\ -52 <= e.
Proof.
  intros V H. unfold F64.valid, valid, valid_binary in V.
  apply bounded_canonical in V. destruct V as [C _].
  change (prec F64.fmt) with 53 in C. change (emax F64.fmt) with 1024 in C.
  destruct (canonical_digits _ _ _ _ C) as [Hd _].
  pose proof (mag_digits_hi m e) as Hhi.
  assert (He : 0 < digits m + e).
  { destruct (Z_lt_le_dec 0 (digits m + e)) as [L|L]; [exact L|].
    pose proof (pow2_mono _ _ L) as P. rewrite pow2_0 in P. lra. }
  split; [|lia].
  apply (canonical_normal _ _ _ _ C). unfold SpecFloat.emin. lia.
Qed.

Lemma sixteen_k : F64.lit 16384 1 = S754_finite false 4503599627370496 (-38).
Proof. vm_compute. reflexivity. Qed.

(** Dividing a [double] of magnitude at least 1 by [16384.0] rounds the
    exact quotient. *)
Lemma div_16384_rounds (x : F64.t) :
  fin binary64 x -> (1 <= B2Q (SFabs x))%Q ->
  rounds binary64 (B2Q x * (1 # 16384))%Q (F64.div x (F64.lit 16384 1)).
Proof.
  intros [V F] H. rewrite sixteen_k.
  destruct x as [s|s| |s m e]; try discriminate.
  - change (B2Q (SFabs (S754_zero s))) with 0%Q in H. lra.
  - change (SFabs (S754_finite s m e)) with (S754_finite false m e) in H.
    rewrite B2Q_finite in H.
    destruct (normal_above_one s m e V H) as [Hd He].
    unfold F64.div, fdiv, SFdiv.
    change (prec F64.fmt) with 53. change (emax F64.fmt) with 1024.
    rewrite (div_core_16384 m e Hd) by lia.
    rewrite xorb_false_r.
    assert (D : digits m~0 = 54).
    { rewrite (digits_shift m m~0 1); [lia|lia|rewrite Z.pow_1_r; lia]. }
    assert (R : rounds_to 53 1024 (if s then - mag m~0 (e - 15) else mag m~0 (e - 15))
                  (binary_round_aux 53 1024 s (Z.pos m~0) (e - 15) loc_Exact)).
    { apply round_aux_rounds; try lia. rewrite D.
      unfold SpecFloat.fexp, SpecFloat.emin. lia. }
    assert (E : (mag m~0 (e - 15) == mag m e * (1 # 16384))%Q).
    { unfold mag. replace (e - 15) with (e + -15) by lia. rewrite pow2_add.
      assert (P : (pow2 (-15) == 1 # 32768)%Q) by (vm_compute; reflexivity).
      rewrite P. change (Z.pos m~0) with (2 * Z.pos m). rewrite inject_Z_mult.
      change (inject_Z 2) with 2%Q. field. }
    rewrite B2Q_finite.
    unfold rounds. change (prec binary64) with 53. change (emax binary64) with 1024.
    eapply rounds_to_eq; [|exact R].
    destruct s; rewrite E; ring.
Qed.

(** The two bytes assembled by [<< 8 |] and narrowed to [int16_t]. *)
Lemma raw_sample (hi lo : Z) :
  0 <= hi < 256 -> 0 <= lo < 256 ->
  to_int16 (Z.lor (Z.shiftl hi 8) lo) = be16_signed hi lo.
Proof.
  intros Hhi Hlo.
  assert (L : Z.land (Z.shiftl hi 8) lo = 0).
  { apply Z.bits_inj'. intros n Hn. rewrite Z.land_spec, Z.bits_0.
    destruct (Z_lt_le_dec n 8) as [Hlt|Hge].
    - rewrite Z.shiftl_spec_low by exact Hlt. reflexivity.
    - assert (T : Z.testbit lo n = false).
      { apply Z.testbit_false; [exact Hn|].
        rewrite Z.div_small; [reflexivity|].
        split; [lia|]. apply Z.lt_le_trans with (2 ^ 8); [simpl; lia|].
        apply Z.pow_le_mono_r; lia. }
      rewrite T. apply andb_false_r. }
  pose proof (Z.add_lor_land (Z.shiftl hi 8) lo) as A. rewrite L in A.
  assert (S : Z.shiftl hi 8 = hi * 256)
    by (rewrite Z.shiftl_mul_pow2 by lia; reflexivity).
  replace (Z.lor (Z.shiftl hi 8) lo) with (256 * hi + lo) by lia.
  unfold to_int16, be16_signed. cbv zeta.
  destruct (256 * hi + lo <? 32768) eqn:E;
    [apply Z.ltb_lt in E|apply Z.ltb_ge in E];
    Z.div_mod_to_equations; lia.
Qed.

Lemma sample_exact (hi lo : Z) :
  0 <= hi < 256 -> 0 <= lo < 256 ->
  F32.valid (sample_value hi lo) = true /\
  is_finite (sample_value hi lo) = true /\
  (B2Q (sample_value hi lo) == be16_signed hi lo # 16384)%Q.
Proof.
  intros Hhi Hlo. unfold sample_value. rewrite (raw_sample hi lo Hhi Hlo).
  assert (Hn : -32768 <= be16_signed hi lo <= 32767).
  { unfold be16_signed. cbv zeta. destruct (256 * hi + lo <? 32768) eqn:E;
      [apply Z.ltb_lt in E|apply Z.ltb_ge in E]; lia. }
  set (n := be16_signed hi lo) in *.
  destruct (Z.eq_dec n 0) as [Z0|NZ].
  - rewrite Z0. repeat split; vm_compute; reflexivity.
  - assert (P0 : (inject_Z n * pow2 0 == inject_Z n)%Q) by (rewrite pow2_0; ring).
    assert (P14 : (inject_Z n * pow2 (-14) == n # 16384)%Q).
    { assert (P : (pow2 (-14) == 1 # 16384)%Q) by (vm_compute; reflexivity).
      rewrite P. unfold Qeq, Qmult, inject_Z. simpl. lia. }
    (* (float) rawX *)
    pose proof (of_Z_rounds binary32 good32 n) as R1.
    assert (B1 : exists b, fin binary32 b /\ (B2Q b == inject_Z n * pow2 0)%Q).
    { apply small_representable;
        [exact good32|discriminate|discriminate|discriminate|exact NZ|lia]. }
    destruct B1 as (b1 & [V1 F1] & E1).
    rewrite P0 in E1.
    destruct (rounds_to_exact 24 128 eq_refl _ _ _ R1 V1 F1 E1) as [G1 Q1].
    assert (X1 : fin binary32 (F32.of_int n)) by (split; [apply R1|exact G1]).
    (* widened *)
    destruct (to_double_exact _ X1) as [X2 Q2]. rewrite Q1 in Q2.
    (* / 16384.0 *)
    assert (A : (1 <= B2Q (SFabs (to_double (F32.of_int n))))%Q).
    { assert (I : (inject_Z n <= -1 \/ 1 <= inject_Z n)%Q).
      { destruct (Z_lt_le_dec n 0) as [L|L]; [left|right].
        - change (-1)%Q with (inject_Z (-1)). rewrite <- Zle_Qle. lia.
        - change 1%Q with (inject_Z 1). rewrite <- Zle_Qle. lia. }
      destruct (B2Q_abs_cases (to_double (F32.of_int n))) as [[E _]|[E _]];
        rewrite E, Q2; destruct I; try lra.
      - destruct (B2Q_abs_cases (to_double (F32.of_int n))) as [[E' C]|[E' C]];
          rewrite Q2 in C; lra.
      - destruct (B2Q_abs_cases (to_double (F32.of_int n))) as [[E' C]|[E' C]];
          rewrite Q2 in C; lra. }
    pose proof (div_16384_rounds _ X2 A) as R3. rewrite Q2 in R3.
    assert (B3 : exists b, fin binary64 b /\ (B2Q b == inject_Z n * pow2 (-14))%Q).
    { apply small_representable;
        [exact good64|discriminate|discriminate|discriminate|exact NZ|lia]. }
    destruct B3 as (b3 & [V3 F3] & E3).
    rewrite P14 in E3.
    assert (E3' : (B2Q b3 == inject_Z n * (1 # 16384))%Q).
    { rewrite E3. unfold Qeq, Qmult, inject_Z. simpl. lia. }
    destruct (rounds_to_exact 53 1024 eq_refl _ _ _ R3 V3 F3 E3') as [G3 Q3].
    (* back to float *)
    pose proof (fround_rounds binary32 good32 _ G3) as R4.
    assert (B4 : exists b, fin binary32 b /\ (B2Q b == inject_Z n * pow2 (-14))%Q).
    { apply small_representable;
        [exact good32|discriminate|discriminate|discriminate|exact NZ|lia]. }
    destruct B4 as (b4 & [V4 F4] & E4).
    rewrite P14 in E4.
    assert (E4' : (B2Q b4 ==
                   B2Q (F64.div (to_double (F32.of_int n)) (F64.lit 16384 1)))%Q).
    { rewrite E4, Q3. unfold Qeq, Qmult, inject_Z. simpl. lia. }
    destruct (rounds_to_exact 24 128 eq_refl _ _ _ R4 V4 F4 E4') as [G4 Q4].
    split; [apply R4|]. split; [exact G4|].
    rewrite Q4, Q3. unfold Qeq, Qmult, inject_Z. simpl. lia.
Qed.

(** The executable check of a sample, and the table of all of them. *)
Lemma byte_values_in (b : Z) : In b byte_values <-> 0 <= b < 256.
Proof.
  unfold byte_values. rewrite in_map_iff. split.
  - intros (k & E & H). apply in_seq in H. lia.
  - intros H. exists (Z.to_nat b). split; [lia|]. apply in_seq. lia.
Qed.

Lemma all_samples_ok :
  forallb (fun hi => forallb (sample_ok hi) byte_values) byte_values = true.
Proof.
  apply forallb_forall. intros hi Hhi. apply forallb_forall. intros lo Hlo.
  apply byte_values_in in Hhi, Hlo.
  destruct (sample_exact hi lo Hhi Hlo) as (V & F & E).
  unfold sample_ok. rewrite V, F. apply Qeq_bool_iff in E. rewrite E. reflexivity.
Qed.


(** *** Passes of the three entry points *)

Lemma setup_spec (probe_status : Z) (st : Globals) :
  setup probe_status st =
  Some (tt, set_connected (probe_status =? 0) st,
        [WriteConnected (probe_status =? 0)]).
Proof. unfold setup. destruct (probe_status =? 0); reflexivity. Qed.

Lemma loop_keeps_flag (io : Core0Input) (st st' : Globals) (ev : list Event) :
  loop io st = Some (tt, st', ev) ->
  g_sensor_connected st' = g_sensor_connected st /\ connected_writes ev = O.
Proof.
  cbv beta iota delta [loop bind load get ret].
  destruct (g_sensor_connected st) eqn:Hc.
  - destruct (read_mpu6050 (bus io)) as [x|]; intros H; injection H as <- <-;
      split; (exact Hc || reflexivity).
  - intros H. injection H as <- <-. split; (exact Hc || reflexivity).
Qed.

Lemma loop1_spec (st : Globals) :
  let st2 := rendered (reflected (integrated st)) in
  loop1 st =
  match create_ascii_visualization (leds st2) (ascii_visual st2)
                                   (Z.of_nat (List.length (ascii_visual st2))) with
  | None => None
  | Some buf' =>
      Some (tt, set_ascii buf' st2,
            ShowFrame (leds st2) :: console_line (set_ascii buf' st2))
  end.
Proof.
  cbv zeta. unfold loop1. unfold bind at 1. rewrite update_led_strip_spec.
  cbv beta iota delta [bind load get ret emit].
  set (st2 := rendered (reflected (integrated st))).
  destruct (create_ascii_visualization (leds st2) (ascii_visual st2)
              (Z.of_nat (List.length (ascii_visual st2)))) as [buf'|];
    reflexivity.
Qed.

Lemma flag_through_tick (st : Globals) :
  g_sensor_connected (rendered (reflected (integrated st))) = g_sensor_connected st.
Proof.
  change (g_sensor_connected (rendered (reflected (integrated st))))
    with (g_sensor_connected (reflected (integrated st))).
  unfold reflected.
  destruct (flt (water_pos (integrated st)) (F32.of_int 0));
    [|destruct (fge (water_pos (integrated st)) (F32.of_int NUM_LEDS))];
    reflexivity.
Qed.

Lemma loop1_keeps_flag (st st' : Globals) (ev : list Event) :
  loop1 st = Some (tt, st', ev) ->
  g_sensor_connected st' = g_sensor_connected st /\
  connected_writes ev = O /\
  status_tag ev = Some (if g_sensor_connected st then "[H/W]" else "[SIM]")%string.
Proof.
  rewrite loop1_spec. cbv zeta.
  set (st2 := rendered (reflected (integrated st))).
  destruct (create_ascii_visualization (leds st2) (ascii_visual st2)
              (Z.of_nat (List.length (ascii_visual st2)))) as [buf'|];
    [|discriminate].
  intros H. injection H as <- <-.
  pose proof (flag_through_tick st) as Hf. fold st2 in Hf.
  split; [exact Hf|]. split; [reflexivity|].
  rewrite <- Hf. reflexivity.
Qed.

Lemma connected_writes_in_app (h : list (Pass * list Event)) (k : Pass)
      (ev : list Event) :
  connected_writes_in (h ++ [(k, ev)])
  = (connected_writes_in h + connected_writes ev)%nat.
Proof.
  induction h as [|[k' ev'] t IH]; simpl; [lia|]. rewrite IH. lia.
Qed.

(** *** Invariants of the runs *)

Lemma step_flag (s s' : System) :
  step s s' ->
  core0_booted s' = true \/ core0_booted s' = core0_booted s.
Proof. intros H. destruct H; simpl; auto. Qed.


Lemma booted_steps_keep_flag (s s' : System) :
  steps s s' -> core0_booted s = true ->
  g_sensor_connected (mem s') = g_sensor_connected (mem s) /\
  core0_booted s' = true.
Proof.
  intros H. induction H as [s|s1 s2 s3 H12 IH H23]; intros Hb.
  - split; [reflexivity|exact Hb].
  - destruct (IH Hb) as [Hf Hb2].
    destruct H23 as [s pr m' ev Hnb Hs|s io m' ev Hbt Hl|s m' ev Hl]; simpl.
    + rewrite Hb2 in Hnb. discriminate.
    + apply loop_keeps_flag in Hl. destruct Hl as [Hl _].
      split; [rewrite Hl; exact Hf|reflexivity].
    + apply loop1_keeps_flag in Hl. destruct Hl as (Hl & _).
      split; [rewrite Hl; exact Hf|exact Hb2].
Qed.

Lemma writes_counted (s : System) :
  reachable s ->
  connected_writes_in (history s) = (if core0_booted s then 1 else 0)%nat /\
  Forall (fun entry => fst entry <> PassSetup -> connected_writes (snd entry) = O)
         (history s).
Proof.
  intros H. unfold reachable in H.
  remember initial_system as s0 eqn:E0.
  induction H as [s|s1 s2 s3 H12 IH H23].
  - subst s. split; [reflexivity|constructor].
  - destruct (IH E0) as [Hn Hall].
    destruct H23 as [s pr m' ev Hnb Hs|s io m' ev Hbt Hl|s m' ev Hl]; simpl;
      rewrite connected_writes_in_app, Hn.
    + rewrite setup_spec in Hs. injection Hs as <- <-. rewrite Hnb.
      split; [reflexivity|].
      apply Forall_app. split; [exact Hall|].
      constructor; [|constructor]. simpl. intros Hk. exfalso. apply Hk. reflexivity.
    + apply loop_keeps_flag in Hl. destruct Hl as [_ Hw]. rewrite Hw, Hbt.
      split; [reflexivity|].
      apply Forall_app. split; [exact Hall|].
      constructor; [|constructor]. simpl. intros _. exact Hw.
    + apply loop1_keeps_flag in Hl. destruct Hl as (_ & Hw & _). rewrite Hw.
      split; [destruct (core0_booted s); reflexivity|].
      apply Forall_app. split; [exact Hall|].
      constructor; [|constructor]. simpl. intros _. exact Hw.
Qed.



(** C7.  In every run the connected flag is stored exactly once, by
    [setup]: no pass of [loop] or [loop1] stores it, and once [setup] has
    run the flag keeps its value whatever the bus does afterwards, so a
    failed read never turns the hardware path into the simulated one. *)
Theorem connected_flag_assigned_once (s : System) :
  reachable s ->
  connected_writes_in (history s) = (if core0_booted s then 1 else 0)%nat /\
  Forall (fun entry => fst entry <> PassSetup -> connected_writes (snd entry) = O)
         (history s) /\
  (forall s' : System,
      core0_booted s = true -> steps s s' ->
      g_sensor_connected (mem s') = g_sensor_connected (mem s) /\
      core0_booted s' = true).
Proof.
  intros H. destruct (writes_counted s H) as [Hn Hall].
  split; [exact Hn|]. split; [exact Hall|].
  intros s' Hb Hs. apply booted_steps_keep_flag; assumption.
Qed.
End Sensor.

(* ================================================================== *)
(** * Claims about the rasteriser and the text visualiser *)
(* ================================================================== *)

Section Raster.
Context {platform : Platform}.
Import IEEE RoundingFacts FloatFacts.

(** The shimmer multiplier computed from a sine in [-1, 1] lies in
    [0.6, 1.0]. *)
Lemma shimmer_range (s : F64.t) :
  fin binary64 s -> (-1 <= B2Q s)%Q -> (B2Q s <= 1)%Q ->
  let sh := to_float (F64.add (F64.mul s (F64.lit 2 10)) (F64.lit 8 10)) in
  fin binary32 sh /\ (3 # 5 <= B2Q sh)%Q /\ (B2Q sh <= 1)%Q.
Proof.
  intros Fs Ls Us sh. subst sh.
  unfold to_float, F64.add, F64.mul, F64.fmt, F32.fmt.
  assert (Fc2 : fin binary64 (F64.lit 2 10)) by (split; vm_compute; reflexivity).
  assert (Fn2 : fin binary64 (SFopp (F64.lit 2 10))) by (split; vm_compute; reflexivity).
  assert (Ec2 : (B2Q (F64.lit 2 10) == 7205759403792794 # 36028797018963968)%Q)
    by (vm_compute; reflexivity).
  assert (En2 : (B2Q (SFopp (F64.lit 2 10)) == - (7205759403792794 # 36028797018963968))%Q)
    by (vm_compute; reflexivity).
  assert (Fc8 : fin binary64 (F64.lit 8 10)) by (split; vm_compute; reflexivity).
  assert (Ec8 : (B2Q (F64.lit 8 10) == 7205759403792794 # 9007199254740992)%Q)
    by (vm_compute; reflexivity).
  assert (Fc6 : fin binary64 (F64.lit 6 10)) by (split; vm_compute; reflexivity).
  assert (Ec6 : (B2Q (F64.lit 6 10) == 5404319552844595 # 9007199254740992)%Q)
    by (vm_compute; reflexivity).
  assert (F2 : fin binary64 (F64.of_int 2)) by (split; vm_compute; reflexivity).
  assert (E2 : (B2Q (F64.of_int 2) == 2)%Q) by (vm_compute; reflexivity).
  (* the product *)
  pose proof (fmul_rounds binary64 good64 _ _ Fs Fc2) as R1.
  rewrite Ec2 in R1.
  destruct (rounds_between binary64 good64 _ _ _ _ _ _ R1 Fn2 Fc2 En2 Ec2)
    as (Fm & Lm & Um); try lra.
  set (m := fmul binary64 s (F64.lit 2 10)) in *.
  (* the sum *)
  pose proof (fadd_rounds binary64 good64 _ _ Fm Fc8) as R2.
  pose proof (fadd_within binary64 good64 _ _ Fm Fc8) as W2.
  rewrite Ec8 in R2, W2.
  destruct (rounds_between binary64 good64 _ _ _ _ _ _ R2 Fc6 F2 Ec6 E2)
    as (Fy & Ly & Uy); try lra.
  set (y := fadd binary64 m (F64.lit 8 10)) in *.
  assert (P1 : (pow2 1 == 2)%Q) by (vm_compute; reflexivity).
  specialize (W2 (proj2 Fy) 1 ltac:(rewrite P1; lra)).
  change (SpecFloat.fexp (prec binary64) (emax binary64) 1 - 1) with (-53) in W2.
  assert (P53 : (pow2 (-53) == 1 # 9007199254740992)%Q) by (vm_compute; reflexivity).
  rewrite P53 in W2.
  assert (Uy1 : (B2Q y <= 1)%Q).
  { assert (Hm : (mag 4503599627370496 (-52) == 1)%Q) by (vm_compute; reflexivity).
    assert (P52 : (pow2 (-52) == 1 # 4503599627370496)%Q) by (vm_compute; reflexivity).
    rewrite <- Hm.
    apply (no_value_above 53 1024 ltac:(lia) y 4503599627370496 (-52));
      [apply Fy|apply Fy|reflexivity|].
    rewrite Hm, P52. lra. }
  (* the conversion to float *)
  pose proof (fround_rounds binary32 good32 y (proj2 Fy)) as R3.
  pose proof (fround_within binary32 good32 y (proj2 Fy)) as W3.
  assert (F0 : fin binary32 (F32.of_int 0)) by (split; vm_compute; reflexivity).
  assert (E0 : (B2Q (F32.of_int 0) == 0)%Q) by (vm_compute; reflexivity).
  assert (F1 : fin binary32 (F32.of_int 1)) by (split; vm_compute; reflexivity).
  assert (E1 : (B2Q (F32.of_int 1) == 1)%Q) by (vm_compute; reflexivity).
  destruct (rounds_between binary32 good32 _ _ _ _ _ _ R3 F0 F1 E0 E1)
    as (Fsh & Lsh & Ush); try lra.
  split; [exact Fsh|]. split; [|exact Ush].
  destruct (Qlt_le_dec (B2Q y) 1) as [Hlt|Hge].
  - assert (P0 : (pow2 0 == 1)%Q) by (vm_compute; reflexivity).
    specialize (W3 (proj2 Fsh) 0 ltac:(rewrite P0; lra)).
    change (SpecFloat.fexp (prec binary32) (emax binary32) 0 - 1) with (-25) in W3.
    assert (P25 : (pow2 (-25) == 1 # 33554432)%Q) by (vm_compute; reflexivity).
    rewrite P25 in W3.
    assert (Hm : (mag 10066330 (-24) == 10066330 # 16777216)%Q) by (vm_compute; reflexivity).
    assert (P24 : (pow2 (-24) == 1 # 16777216)%Q) by (vm_compute; reflexivity).
    assert (Hb : (mag 10066330 (-24) <= B2Q (fround binary32 y))%Q).
    { apply (no_value_below 24 128 ltac:(lia) _ 10066330 (-24));
        [apply Fsh|apply Fsh|reflexivity|left; reflexivity|].
      rewrite Hm, P24. lra. }
    rewrite Hm in Hb. lra.
  - destruct (rounds_between binary32 good32 _ _ _ _ _ _ R3 F1 F1 E1 E1)
      as (_ & L1 & _); try lra.
Qed.

(** The intensity of a pixel and the scale handed to [nscale8], from a
    falloff in [0, 1] and a sine in [-1, 1]. *)
Lemma pixel_intensity (e : F32.t) (s : F64.t) :
  fin binary32 e -> (0 <= B2Q e)%Q -> (B2Q e <= 1)%Q ->
  fin binary64 s -> (-1 <= B2Q s)%Q -> (B2Q s <= 1)%Q ->
  let shimmer := to_float (F64.add (F64.mul s (F64.lit 2 10)) (F64.lit 8 10)) in
  let intensity := F32.mul e shimmer in
  let scale := F32.mul intensity (F32.of_int 255) in
  (exists m y : F64.t,
     rounds binary64 (B2Q s * (3602879701896397 # 18014398509481984)) m /\
     rounds binary64 (B2Q m + (3602879701896397 # 4503599627370496)) y /\
     rounds binary32 (B2Q y) shimmer) /\
  fin binary32 shimmer /\ (3 # 5 <= B2Q shimmer)%Q /\ (B2Q shimmer <= 1)%Q /\
  rounds binary32 (B2Q e * B2Q shimmer) intensity /\
  fin binary32 intensity /\ (0 <= B2Q intensity)%Q /\ (B2Q intensity <= 1)%Q /\
  rounds binary32 (B2Q intensity * 255) scale /\
  fin binary32 scale /\ (0 <= B2Q scale)%Q /\ (B2Q scale <= 255)%Q /\
  0 <= f32_to_u8 scale <= 255 /\
  (inject_Z (f32_to_u8 scale) <= B2Q scale)%Q /\
  (B2Q scale < inject_Z (f32_to_u8 scale) + 1)%Q.
Proof.
  intros Fe Le Ue Fs Ls Us shimmer intensity scale.
  destruct (shimmer_range s Fs Ls Us) as (Fsh & Lsh & Ush).
  fold shimmer in Fsh, Lsh, Ush.
  assert (Fc2 : fin binary64 (F64.lit 2 10)) by (split; vm_compute; reflexivity).
  assert (Fn2 : fin binary64 (SFopp (F64.lit 2 10)))
    by (split; vm_compute; reflexivity).
  assert (Ec2 : (B2Q (F64.lit 2 10) == 3602879701896397 # 18014398509481984)%Q)
    by (vm_compute; reflexivity).
  assert (En2 : (B2Q (SFopp (F64.lit 2 10))
                 == - (3602879701896397 # 18014398509481984))%Q)
    by (vm_compute; reflexivity).
  assert (Fc8 : fin binary64 (F64.lit 8 10)) by (split; vm_compute; reflexivity).
  assert (Ec8 : (B2Q (F64.lit 8 10) == 3602879701896397 # 4503599627370496)%Q)
    by (vm_compute; reflexivity).
  pose proof (fmul_rounds binary64 good64 _ _ Fs Fc2) as R1. rewrite Ec2 in R1.
  destruct (rounds_between binary64 good64 _ _ _ _ _ _ R1 Fn2 Fc2 En2 Ec2)
    as (Fm & Lm & Um); try lra.
  pose proof (fadd_rounds binary64 good64 _ _ Fm Fc8) as R2. rewrite Ec8 in R2.
  assert (F0d : fin binary64 (F64.of_int 0)) by (split; vm_compute; reflexivity).
  assert (F2d : fin binary64 (F64.of_int 2)) by (split; vm_compute; reflexivity).
  assert (E0d : (B2Q (F64.of_int 0) == 0)%Q) by (vm_compute; reflexivity).
  assert (E2d : (B2Q (F64.of_int 2) == 2)%Q) by (vm_compute; reflexivity).
  destruct (rounds_between binary64 good64 _ _ _ _ _ _ R2 F0d F2d E0d E2d)
    as (Fy & _); try lra.
  pose proof (fround_rounds binary32 good32 _ (proj2 Fy)) as R3.
  change (fround binary32 (fadd binary64 (fmul binary64 s (F64.lit 2 10))
                                (F64.lit 8 10))) with shimmer in R3.
  assert (F0 : fin binary32 (F32.of_int 0)) by (split; vm_compute; reflexivity).
  assert (F1 : fin binary32 (F32.of_int 1)) by (split; vm_compute; reflexivity).
  assert (F255 : fin binary32 (F32.of_int 255)) by (split; vm_compute; reflexivity).
  assert (E0 : (B2Q (F32.of_int 0) == 0)%Q) by (vm_compute; reflexivity).
  assert (E1 : (B2Q (F32.of_int 1) == 1)%Q) by (vm_compute; reflexivity).
  assert (E255 : (B2Q (F32.of_int 255) == 255)%Q) by (vm_compute; reflexivity).
  pose proof (fmul_rounds binary32 good32 _ _ Fe Fsh) as R4.
  change (fmul binary32 e shimmer) with intensity in R4.
  destruct (rounds_between binary32 good32 _ _ _ _ _ _ R4 F0 F1 E0 E1)
    as (G1 & L1 & U1); try nra.
  pose proof (fmul_rounds binary32 good32 _ _ G1 F255) as R5. rewrite E255 in R5.
  change (fmul binary32 intensity (F32.of_int 255)) with scale in R5.
  destruct (rounds_between binary32 good32 _ _ _ _ _ _ R5 F0 F255 E0 E255)
    as (G2 & L2 & U2); try lra.
  destruct (f32_to_u8_floor scale G2 L2 U2) as (B & T1 & T2).
  split.
  { exists (F64.mul s (F64.lit 2 10)),
           (F64.add (F64.mul s (F64.lit 2 10)) (F64.lit 8 10)).
    split; [exact R1|]. split; [exact R2|exact R3]. }
  split; [exact Fsh|]. split; [exact Lsh|]. split; [exact Ush|].
  split; [exact R4|]. split; [exact G1|]. split; [exact L1|]. split; [exact U1|].
  split; [exact R5|]. split; [exact G2|]. split; [exact L2|]. split; [exact U2|].
  split; [exact B|]. split; assumption.
Qed.

Lemma map_black (l1 l2 : list CRGB.t) :
  List.length l1 = List.length l2 ->
  map (fun _ => CRGB.Black) l1 = map (fun _ => CRGB.Black) l2.
Proof.
  revert l2. induction l1 as [|h t IH]; intros [|h2 t2] H; try discriminate.
  - reflexivity.
  - simpl. f_equal. apply IH. simpl in H. lia.
Qed.

(** C8.  After a tick, pixel [i] of the strip is the base colour
    (blue) scaled by [(uint8_t)(intensity * 255)], with
    [intensity = exp(-|i - position| * glowDecay) * shimmer],
    [glowDecay = 0.5] and [shimmer = sin(i * 0.3 + phase) * 0.2 + 0.8],
    for the position and phase of the frame; the shimmer lies in
    [0.6, 1.0] whenever the sine lies in [-1, 1]; and the strip is a
    function of position and phase alone: two states that agree on them
    (and on the length of the strip) rasterise to the same strip.  The
    phase is advanced once per tick, by a [float] addition: the new
    phase is [(float)((double)phase + 0.05)], never below the old one;
    it exceeds it by between 0.01 and 0.1 while the phase is at most
    [2^19], and it is the old phase itself from [2^20] on.  In exact
    arithmetic, for a position on the strip: the distance is the
    absolute value of a rounding of [i - position], the argument of
    [exp] a rounding of [-distance * 0.5], the argument of [sin] a
    rounding of [i * 0.3 + phase]; and for a falloff in [0, 1] and a
    sine in [-1, 1], the intensity is a rounding of [falloff * shimmer]
    in [0, 1], and the scale is the integer part of a rounding of
    [intensity * 255] in [0, 255]. *)
Theorem glow_rasteriser (st : Globals) :
  List.length (leds st) = Z.to_nat NUM_LEDS ->
  exists (st' : Globals) (ev : list Event),
    update_led_strip st = Some (tt, st', ev) /\
    flow_time_offset st' =
      to_float (F64.add (to_double (flow_time_offset st)) (F64.lit 5 100)) /\
    (fin binary32 (flow_time_offset st) ->
     (0 <= B2Q (flow_time_offset st))%Q ->
     (B2Q (flow_time_offset st) <= 85070591730234615865843651857942052864)%Q ->
     (exists d : F64.t,
        rounds binary64
          (B2Q (flow_time_offset st) + (3602879701896397 # 72057594037927936)) d /\
        rounds binary32 (B2Q d) (flow_time_offset st')) /\
     fin binary32 (flow_time_offset st') /\
     (B2Q (flow_time_offset st) <= B2Q (flow_time_offset st'))%Q /\
     ((B2Q (flow_time_offset st) <= 524288)%Q ->
      (B2Q (flow_time_offset st) + (1 # 100) <= B2Q (flow_time_offset st'))%Q /\
      (B2Q (flow_time_offset st') <= B2Q (flow_time_offset st) + (1 # 10))%Q) /\
     ((1048576 <= B2Q (flow_time_offset st))%Q ->
      flow_time_offset st' = flow_time_offset st)) /\
    List.length (leds st') = Z.to_nat NUM_LEDS /\
    WATER_COLOR = CRGB.RGB 0 0 255 /\
    (B2Q GLOW_DECAY == 1 # 2)%Q /\
    (forall i : Z, 0 <= i < NUM_LEDS ->
       let delta := F32.sub (F32.of_int i) (water_pos st') in
       let dist := abs delta in
       let arg := F32.mul (F32.opp dist) GLOW_DECAY in
       let angle := F64.add (F64.mul (F64.of_int i) (F64.lit 3 10))
                            (to_double (flow_time_offset st')) in
       let shimmer_i :=
         to_float (F64.add (F64.mul (sin angle) (F64.lit 2 10)) (F64.lit 8 10)) in
       let intensity := F32.mul (exp arg) shimmer_i in
       let scale := F32.mul intensity (F32.of_int 255) in
       nth (Z.to_nat i) (leds st') CRGB.Black
         = nscale8 WATER_COLOR (f32_to_u8 scale) /\
       (in_strip (water_pos st') ->
        rounds binary32 (inject_Z i - B2Q (water_pos st')) delta /\
        fin binary32 delta /\
        fin binary32 dist /\ (0 <= B2Q dist)%Q /\
        ((0 <= B2Q delta)%Q -> (B2Q dist == B2Q delta)%Q) /\
        ((B2Q delta <= 0)%Q -> (B2Q dist == - B2Q delta)%Q) /\
        rounds binary32 (- B2Q dist * (1 # 2)) arg /\ fin binary32 arg /\
        (B2Q arg <= 0)%Q) /\
       (fin binary32 (flow_time_offset st') ->
        (- (85070591730234615865843651857942052864)
         <= B2Q (flow_time_offset st'))%Q ->
        (B2Q (flow_time_offset st') <= 85070591730234615865843651857942052864)%Q ->
        (exists t : F64.t,
           rounds binary64
             (inject_Z i * (5404319552844595 # 18014398509481984)) t /\
           rounds binary64 (B2Q t + B2Q (flow_time_offset st')) angle) /\
        fin binary64 angle) /\
       (fin binary32 (exp arg) ->
        (0 <= B2Q (exp arg))%Q -> (B2Q (exp arg) <= 1)%Q ->
        fin binary64 (sin angle) ->
        (-1 <= B2Q (sin angle))%Q -> (B2Q (sin angle) <= 1)%Q ->
        (exists m y : F64.t,
           rounds binary64
             (B2Q (sin angle) * (3602879701896397 # 18014398509481984)) m /\
           rounds binary64 (B2Q m + (3602879701896397 # 4503599627370496)) y /\
           rounds binary32 (B2Q y) shimmer_i) /\
        fin binary32 shimmer_i /\
        (3 # 5 <= B2Q shimmer_i)%Q /\ (B2Q shimmer_i <= 1)%Q /\
        rounds binary32 (B2Q (exp arg) * B2Q shimmer_i) intensity /\
        fin binary32 intensity /\
        (0 <= B2Q intensity)%Q /\ (B2Q intensity <= 1)%Q /\
        rounds binary32 (B2Q intensity * 255) scale /\
        fin binary32 scale /\ (0 <= B2Q scale)%Q /\ (B2Q scale <= 255)%Q /\
        0 <= f32_to_u8 scale <= 255 /\
        (inject_Z (f32_to_u8 scale) <= B2Q scale)%Q /\
        (B2Q scale < inject_Z (f32_to_u8 scale) + 1)%Q)) /\
    (forall x : F64.t,
       fin binary64 (sin x) -> (-1 <= B2Q (sin x))%Q -> (B2Q (sin x) <= 1)%Q ->
       (3 # 5 <= B2Q (to_float (F64.add (F64.mul (sin x) (F64.lit 2 10)) (F64.lit 8 10))))%Q /\
       (B2Q (to_float (F64.add (F64.mul (sin x) (F64.lit 2 10)) (F64.lit 8 10))) <= 1)%Q) /\
    (forall a b : Globals,
       List.length (leds a) = List.length (leds b) ->
       water_pos a = water_pos b -> flow_time_offset a = flow_time_offset b ->
       exists a' b' : Globals,
         render_glow a = Some (tt, a', []) /\ render_glow b = Some (tt, b', []) /\
         leds a' = leds b').
Proof.
  intros Hlen.
  exists (rendered (reflected (integrated st))), [].
  split; [apply update_led_strip_spec|].
  set (st2 := reflected (integrated st)).
  assert (Hl2 : leds st2 = leds st).
  { unfold st2, reflected.
    destruct (flt (water_pos (integrated st)) (F32.of_int 0));
      [|destruct (fge (water_pos (integrated st)) (F32.of_int NUM_LEDS))];
      reflexivity. }
  assert (Ho2 : flow_time_offset st2 = flow_time_offset st).
  { unfold st2, reflected.
    destruct (flt (water_pos (integrated st)) (F32.of_int 0));
      [|destruct (fge (water_pos (integrated st)) (F32.of_int NUM_LEDS))];
      reflexivity. }
  change (flow_time_offset (rendered st2)) with (next_phase (flow_time_offset st2)).
  change (water_pos (rendered st2)) with (water_pos st2).
  rewrite Ho2.
  split; [reflexivity|].
  split.
  { intros Fo Lo Uo. exact (phase_steps _ Fo Lo Uo). }
  split.
  { change (leds (rendered st2))
      with (paint (water_pos st2) (next_phase (flow_time_offset st2)) 0
                  (Z.to_nat NUM_LEDS) (map (fun _ => CRGB.Black) (leds st2))).
    rewrite paint_length, length_map, Hl2. exact Hlen. }
  split; [reflexivity|]. split; [vm_compute; reflexivity|].
  split.
  { intros i Hi delta dist arg angle shimmer_i intensity scale.
    split; [|split; [|split]].
    - change (leds (rendered st2))
        with (paint (water_pos st2) (next_phase (flow_time_offset st2)) 0
                    (Z.to_nat NUM_LEDS) (map (fun _ => CRGB.Black) (leds st2))).
      rewrite paint_nth.
      + rewrite Ho2. reflexivity.
      + lia.
      + rewrite Z2Nat.id by (unfold NUM_LEDS; lia). lia.
      + rewrite length_map, Hl2, Hlen. unfold NUM_LEDS in *. lia.
    - intros Hp. exact (pixel_distance _ i Hp Hi).
    - intros Fa La Ua. exact (pixel_angle _ i Fa La Ua Hi).
    - intros Fe Le Ue Fs Ls Us. exact (pixel_intensity _ _ Fe Le Ue Fs Ls Us). }
  split.
  { intros x Fx Lx Ux.
    destruct (shimmer_range (sin x) Fx Lx Ux) as (_ & L & U).
    split; assumption. }
  intros a b Hab Hp Ho.
  exists (rendered a), (rendered b).
  split; [apply render_glow_spec|]. split; [apply render_glow_spec|].
  unfold rendered. simpl leds. rewrite Hp, Ho, (map_black _ _ Hab). reflexivity.
Qed.

(** C9.  The glyph of a pixel is decided by its peak channel [b] alone:
    [~] when [b > 180], [=] when [50 < b <= 180], [_] when
    [10 < b <= 50] and a blank otherwise; brightness 200, 100, 20 and 5
    give the four glyphs in turn. *)
Theorem glyph_thresholds (led : CRGB.t) :
  let peak := Z.max (Z.max (CRGB.r led) (CRGB.g led)) (CRGB.b led) in
  (180 < peak -> glyph led = "~"%char) /\
  (50 < peak <= 180 -> glyph led = "="%char) /\
  (10 < peak <= 50 -> glyph led = "_"%char) /\
  (peak <= 10 -> glyph led = " "%char) /\
  glyph (CRGB.RGB 0 0 200) = "~"%char /\
  glyph (CRGB.RGB 0 0 100) = "="%char /\
  glyph (CRGB.RGB 0 0 20) = "_"%char /\
  glyph (CRGB.RGB 0 0 5) = " "%char.
Proof.
  intros peak.
  assert (Hpeak : max_u8 (max_u8 (CRGB.r led) (CRGB.g led)) (CRGB.b led) = peak).
  { unfold peak, max_u8.
    destruct (Z.ltb_spec (CRGB.r led) (CRGB.g led));
      match goal with |- context [?x <? ?y] => destruct (Z.ltb_spec x y) end; lia. }
  unfold glyph. rewrite Hpeak.
  repeat split; try reflexivity; intros H.
  - destruct (Z.gtb_spec peak 180); [reflexivity|lia].
  - destruct (Z.gtb_spec peak 180); [lia|].
    destruct (Z.gtb_spec peak 50); [reflexivity|lia].
  - destruct (Z.gtb_spec peak 180); [lia|].
    destruct (Z.gtb_spec peak 50); [lia|].
    destruct (Z.gtb_spec peak 10); [reflexivity|lia].
  - destruct (Z.gtb_spec peak 180); [lia|].
    destruct (Z.gtb_spec peak 50); [lia|].
    destruct (Z.gtb_spec peak 10); [lia|reflexivity].
Qed.

Lemma buf_write_in_range (i : Z) (c : ascii) (buf : list ascii) :
  0 <= i < Z.of_nat (List.length buf) ->
  buf_write i c buf = Some (list_set (Z.to_nat i) c buf).
Proof.
  intros H. unfold buf_write.
  destruct (Z.leb_spec 0 i); [|lia]. destruct (Z.ltb_spec i (Z.of_nat (List.length buf))); [|lia].
  reflexivity.
Qed.

Lemma ascii_loop_spec (strip : list CRGB.t) (n : nat) (a : Z) (buffer : list ascii) :
  0 <= a -> a + Z.of_nat n <= Z.of_nat (List.length buffer) ->
  exists buffer' : list ascii,
    ascii_loop strip a n buffer = Some buffer' /\
    List.length buffer' = List.length buffer /\
    (forall i : Z, a <= i < a + Z.of_nat n ->
       nth (Z.to_nat i) buffer' zero = glyph (nth (Z.to_nat i) strip CRGB.Black)) /\
    (forall (j : nat) (d : ascii),
       (j < Z.to_nat a)%nat \/ (Z.to_nat (a + Z.of_nat n) <= j)%nat ->
       nth j buffer' d = nth j buffer d).
Proof.
  revert a buffer. induction n as [|k IH]; intros a buffer Ha Hn.
  - exists buffer. split; [reflexivity|]. split; [reflexivity|].
    split; [intros i Hi; lia|reflexivity].
  - simpl ascii_loop. rewrite buf_write_in_range by lia.
    set (c := glyph (nth (Z.to_nat a) strip CRGB.Black)).
    destruct (IH (a + 1) (list_set (Z.to_nat a) c buffer) ltac:(lia)
                 ltac:(rewrite list_set_length; lia))
      as (b' & Hrun & Hlen & Hin & Hout).
    exists b'. split; [exact Hrun|].
    split; [rewrite Hlen; apply list_set_length|]. split.
    + intros i Hi. destruct (Z.eq_dec i a) as [E|E].
      * subst i. rewrite Hout by (left; lia).
        apply list_set_nth_same. lia.
      * apply Hin. lia.
    + intros j d Hj. rewrite Hout by lia.
      apply list_set_nth_other. lia.
Qed.

(** C10.  [create_ascii_visualization(buffer, buffer_size)] returns at
    once, the array untouched, when [buffer_size < NUM_LEDS + 1].
    Otherwise, on an array of at least [buffer_size] characters, it
    stores the glyph of pixel [i] at every index [i < NUM_LEDS] and a NUL
    at index [NUM_LEDS], every store falls inside the array, and no
    character after index [NUM_LEDS] changes. *)
Theorem ascii_size_guard (strip : list CRGB.t) (buffer : list ascii)
        (buffer_size : Z) :
  (buffer_size < NUM_LEDS + 1 ->
   create_ascii_visualization strip buffer buffer_size = Some buffer) /\
  (NUM_LEDS + 1 <= buffer_size ->
   buffer_size <= Z.of_nat (List.length buffer) ->
   exists buffer' : list ascii,
     create_ascii_visualization strip buffer buffer_size = Some buffer' /\
     List.length buffer' = List.length buffer /\
     (forall i : Z, 0 <= i < NUM_LEDS ->
        nth (Z.to_nat i) buffer' zero = glyph (nth (Z.to_nat i) strip CRGB.Black)) /\
     nth (Z.to_nat NUM_LEDS) buffer' "x"%char = zero /\
     (forall (j : nat) (d : ascii),
        (Z.to_nat NUM_LEDS < j)%nat -> nth j buffer' d = nth j buffer d)).
Proof.
  unfold create_ascii_visualization. split.
  - intros H. destruct (Z.ltb_spec buffer_size (NUM_LEDS + 1)); [reflexivity|lia].
  - intros H Hlen. destruct (Z.ltb_spec buffer_size (NUM_LEDS + 1)); [lia|].
    assert (HN : NUM_LEDS = 30) by reflexivity.
    destruct (ascii_loop_spec strip (Z.to_nat NUM_LEDS) 0 buffer ltac:(lia)
                ltac:(rewrite HN in *; lia))
      as (b1 & Hrun & Hl1 & Hin & Hout).
    rewrite Hrun. rewrite buf_write_in_range by (rewrite Hl1, HN in *; lia).
    exists (list_set (Z.to_nat NUM_LEDS) zero b1).
    split; [reflexivity|]. split; [rewrite list_set_length; exact Hl1|].
    split; [|split].
    + intros i Hi. rewrite list_set_nth_other by (rewrite HN in *; lia).
      apply Hin. rewrite HN in *. lia.
    + apply list_set_nth_same. rewrite Hl1, HN in *. lia.
    + intros j d Hj. rewrite list_set_nth_other by lia.
      apply Hout. right. rewrite HN in *. lia.
Qed.
End Raster.

(* ================================================================== *)
(** * Further properties of the sketch *)
(* ================================================================== *)

(** ** Any tilt *)

Section AnyTilt.
Context {platform : Platform}.
Import IEEE RoundingFacts FloatFacts.

Ltac fin_const := split; vm_compute; reflexivity.
Ltac qval := vm_compute; reflexivity.

Ltac enclose32 H lo hi :=
  apply (rounds_enclosed binary32 good32 _ _ lo hi) in H;
  [ cbv [inject_Z] in H | fin_const | fin_const | qval | qval
  | cbv [inject_Z] | cbv [inject_Z] ].

Ltac enclose64 H lo hi :=
  apply (rounds_enclosed binary64 good64 _ _ lo hi) in H;
  [ cbv [inject_Z] in H | fin_const | fin_const | qval | qval
  | cbv [inject_Z] | cbv [inject_Z] ].

(** An infinite tilt saturates the velocity at the limit of its sign. *)
Lemma next_velocity_infinite (s : bool) (vel : F32.t) :
  fin binary32 vel ->
  next_velocity (S754_infinity s) vel =
  if s then F32.opp MAX_VELOCITY else MAX_VELOCITY.
Proof.
  intros [V F].
  destruct vel as [sv|sv| |sv m e]; try discriminate;
    destruct s; vm_compute; reflexivity.
Qed.

(** Whatever the tilt, short of a NaN, the velocity that leaves the
    integration step is finite and clamped. *)
Lemma next_velocity_clamped (tilt vel : F32.t) :
  F32.valid tilt = true -> is_nan tilt = false ->
  enclosed binary32 vel (-1) 1 ->
  enclosed binary32 (next_velocity tilt vel) (-1) 1.
Proof.
  intros Vt Nt (Fv & Lv & Uv).
  assert (F1 : fin binary32 MAX_VELOCITY) by fin_const.
  assert (Fm : fin binary32 (F32.opp MAX_VELOCITY)) by fin_const.
  assert (E1 : (B2Q MAX_VELOCITY == 1)%Q) by qval.
  assert (Em : (B2Q (F32.opp MAX_VELOCITY) == -1)%Q) by qval.
  destruct (is_finite tilt) eqn:Fi.
  - assert (Ft : fin binary32 tilt) by (split; assumption).
    destruct (float_magnitude tilt Ft) as [Lt Ut].
    assert (E128 : (pow2 128 == 340282366920938463463374607431768211456)%Q) by qval.
    rewrite E128 in Lt, Ut.
    unfold next_velocity. cbv zeta. apply constrain_enclosed.
    destruct (to_double_exact tilt Ft) as [Ftd Etd].
    assert (Fc2 : fin binary64 (F64.lit 2 10)) by fin_const.
    assert (Ec2 : (B2Q (F64.lit 2 10) == 3602879701896397 # 18014398509481984)%Q)
      by qval.
    pose proof (fmul_rounds binary64 good64 _ _ Ftd Fc2) as H1.
    rewrite Etd, Ec2 in H1.
    enclose64 H1 (-85070591730234615865843651857942052864)
                 85070591730234615865843651857942052864; try lra.
    destruct H1 as (G1 & L1 & U1).
    pose proof (fround_rounds binary32 good32 _ (proj2 G1)) as H2.
    enclose32 H2 (-85070591730234615865843651857942052864)
                 85070591730234615865843651857942052864; try lra.
    destruct H2 as (G2 & L2 & U2).
    pose proof (fadd_rounds binary32 good32 _ _ Fv G2) as H3.
    enclose32 H3 (-170141183460469231731687303715884105728)
                 170141183460469231731687303715884105728; try lra.
    destruct H3 as (G3 & L3 & U3).
    destruct (to_double_exact _ G3) as [G3d E3d].
    assert (Fc98 : fin binary64 (F64.lit 98 100)) by fin_const.
    assert (Ec98 : (B2Q (F64.lit 98 100) == 8827055269646172 # 9007199254740992)%Q)
      by qval.
    pose proof (fmul_rounds binary64 good64 _ _ G3d Fc98) as H4.
    rewrite E3d, Ec98 in H4.
    enclose64 H4 (-170141183460469231731687303715884105728)
                 170141183460469231731687303715884105728; try lra.
    destruct H4 as (G4 & L4 & U4).
    pose proof (fround_rounds binary32 good32 _ (proj2 G4)) as H5.
    enclose32 H5 (-170141183460469231731687303715884105728)
                 170141183460469231731687303715884105728; try lra.
    apply H5.
  - destruct tilt as [s|s| |s m e]; try discriminate.
    rewrite (next_velocity_infinite s vel Fv).
    destruct s.
    + split; [exact Fm|]. rewrite Em. split; lra.
    + split; [exact F1|]. rewrite E1. split; lra.
Qed.

Lemma tick_bounds (st : Globals) :
  in_strip (water_pos st) -> speed_ok (water_vel st) ->
  F32.valid (g_tilt_x st) = true -> is_nan (g_tilt_x st) = false ->
  in_strip (water_pos (rendered (reflected (integrated st)))) /\
  speed_ok (water_vel (rendered (reflected (integrated st)))).
Proof.
  intros Hp Hv Vt Nt.
  apply in_strip_enclosed in Hp. destruct Hp as (Fp & Lp & Up).
  apply speed_ok_enclosed in Hv.
  pose proof (next_velocity_clamped _ _ Vt Nt Hv) as Hv'.
  pose proof (integrated_position _ _ Fp Lp Up Hv') as Fp'.
  change (water_pos (rendered (reflected (integrated st))))
    with (water_pos (reflected (integrated st))).
  change (water_vel (rendered (reflected (integrated st))))
    with (water_vel (reflected (integrated st))).
  unfold reflected.
  change (water_pos (integrated st))
    with (F32.add (water_pos st) (next_velocity (g_tilt_x st) (water_vel st))).
  change (water_vel (integrated st))
    with (next_velocity (g_tilt_x st) (water_vel st)).
  set (v' := next_velocity (g_tilt_x st) (water_vel st)) in *.
  set (p' := F32.add (water_pos st) v') in *.
  assert (F0 : fin binary32 (F32.of_int 0)) by fin_const.
  assert (F30 : fin binary32 (F32.of_int NUM_LEDS)) by fin_const.
  assert (E0 : (B2Q (F32.of_int 0) == 0)%Q) by qval.
  assert (E30 : (B2Q (F32.of_int NUM_LEDS) == 30)%Q) by qval.
  destruct (flt p' (F32.of_int 0)) eqn:Hneg.
  - simpl water_pos. simpl water_vel. split.
    + apply in_strip_enclosed. split; [exact F0|]. rewrite E0. split; lra.
    + apply speed_ok_enclosed. apply bounce_enclosed. exact Hv'.
  - destruct (fge p' (F32.of_int NUM_LEDS)) eqn:Hfar;
      simpl water_pos; simpl water_vel.
    + split.
      * unfold in_strip. repeat split; vm_compute; reflexivity.
      * apply speed_ok_enclosed. apply bounce_enclosed. exact Hv'.
    + split.
      * apply in_strip_enclosed. split; [exact Fp'|].
        apply (flt_false_iff binary32 good32) in Hneg; try assumption.
        apply (fle_false_iff binary32 good32) in Hfar; try assumption.
        rewrite E0 in Hneg. rewrite E30 in Hfar. split; assumption.
      * apply speed_ok_enclosed. exact Hv'.
Qed.

(** X1.  The position and velocity bounds survive a tick whenever the tilt
    is a [float] other than NaN: an acceleration of any size, the
    sensor's 2 g and the infinities included, is absorbed by the clamp. *)
Theorem tick_keeps_bounds_for_any_tilt (st : Globals) :
  in_strip (water_pos st) -> speed_ok (water_vel st) ->
  F32.valid (g_tilt_x st) = true -> is_nan (g_tilt_x st) = false ->
  exists (st' : Globals) (ev : list Event),
    update_led_strip st = Some (tt, st', ev) /\
    in_strip (water_pos st') /\ speed_ok (water_vel st').
Proof.
  intros Hp Hv Vt Nt.
  exists (rendered (reflected (integrated st))), [].
  split; [apply update_led_strip_spec|].
  apply tick_bounds; assumption.
Qed.
End AnyTilt.

(** ** Who writes what, and what a NaN does *)

Section Ownership.
Context {platform : Platform}.
Import IEEE RoundingFacts FloatFacts.

Lemma set_tilt_same (st : Globals) : set_tilt (g_tilt_x st) st = st.
Proof. destruct st; reflexivity. Qed.

Lemma loop_runs (io : Core0Input) (st : Globals) :
  exists (st' : Globals) (ev : list Event),
    loop io st = Some (tt, st', ev) /\
    st' = set_tilt (g_tilt_x st') st /\
    (ev = [] /\ st' = st \/ ev = [WriteTilt (g_tilt_x st')]).
Proof.
  cbv beta iota delta [loop bind load get ret].
  destruct (g_sensor_connected st).
  - destruct (read_mpu6050 (bus io)) as [x|].
    + exists (set_tilt x st), [WriteTilt x]. repeat split. right. reflexivity.
    + exists st, []. split; [reflexivity|]. split.
      * symmetry. apply set_tilt_same.
      * left. split; reflexivity.
  - eexists _, _. split; [reflexivity|]. split; [reflexivity|]. right. reflexivity.
Qed.

Lemma loop_frame (io : Core0Input) (st st' : Globals) (ev : list Event) :
  loop io st = Some (tt, st', ev) ->
  st' = set_tilt (g_tilt_x st') st /\
  (ev = [] /\ st' = st \/ ev = [WriteTilt (g_tilt_x st')]).
Proof.
  intros H. destruct (loop_runs io st) as (s1 & e1 & H1 & H2).
  rewrite H1 in H. injection H as <- <-. exact H2.
Qed.

(** X2.  A pass of [loop] never fails, stores nothing but the tilt, and
    stores it at most once: the variables of core 1 and the connected
    flag are as they were. *)
Theorem loop_stores_only_the_tilt (io : Core0Input) (st : Globals) :
  exists (st' : Globals) (ev : list Event),
    loop io st = Some (tt, st', ev) /\
    g_sensor_connected st' = g_sensor_connected st /\
    leds st' = leds st /\ water_pos st' = water_pos st /\
    water_vel st' = water_vel st /\
    flow_time_offset st' = flow_time_offset st /\
    ascii_visual st' = ascii_visual st /\
    (ev = [] /\ g_tilt_x st' = g_tilt_x st \/ ev = [WriteTilt (g_tilt_x st')]).
Proof.
  destruct (loop_runs io st) as (st' & ev & H & E & Hev).
  exists st', ev. split; [exact H|].
  rewrite E. simpl. repeat split.
  destruct Hev as [[H1 H2]|H1].
  - left. split; [exact H1|]. rewrite H2. reflexivity.
  - right. exact H1.
Qed.

(** *** A NaN in the particle *)

Lemma add_nan_r (x : F32.t) : F32.add x S754_nan = S754_nan.
Proof. destruct x; reflexivity. Qed.

Lemma constrain_nan :
  constrain S754_nan (F32.opp MAX_VELOCITY) MAX_VELOCITY = S754_nan.
Proof. vm_compute. reflexivity. Qed.

Lemma next_velocity_nan (tilt vel : F32.t) :
  is_nan tilt = true \/ is_nan vel = true -> next_velocity tilt vel = S754_nan.
Proof.
  intros [H|H]; unfold next_velocity; cbv zeta.
  - destruct tilt; try discriminate.
    change (to_float (F64.mul (to_double S754_nan) (F64.lit 2 10))) with S754_nan.
    rewrite add_nan_r. exact constrain_nan.
  - destruct vel; try discriminate. exact constrain_nan.
Qed.

Lemma reflected_nan (st : Globals) :
  water_pos st = S754_nan -> reflected st = st.
Proof.
  intros H. unfold reflected. rewrite H.
  change (flt S754_nan (F32.of_int 0)) with false.
  assert (E : fge S754_nan (F32.of_int NUM_LEDS) = false) by (vm_compute; reflexivity).
  rewrite E. reflexivity.
Qed.

Lemma tick_nan (st : Globals) :
  is_nan (g_tilt_x st) = true \/ is_nan (water_vel st) = true ->
  water_vel (rendered (reflected (integrated st))) = S754_nan /\
  water_pos (rendered (reflected (integrated st))) = S754_nan.
Proof.
  intros H.
  change (water_vel (rendered (reflected (integrated st))))
    with (water_vel (reflected (integrated st))).
  change (water_pos (rendered (reflected (integrated st))))
    with (water_pos (reflected (integrated st))).
  assert (Ev : water_vel (integrated st) = S754_nan)
    by (exact (next_velocity_nan _ _ H)).
  assert (Ep : water_pos (integrated st) = S754_nan).
  { change (water_pos (integrated st))
      with (F32.add (water_pos st) (next_velocity (g_tilt_x st) (water_vel st))).
    rewrite (next_velocity_nan _ _ H). apply add_nan_r. }
  rewrite (reflected_nan _ Ep). split; assumption.
Qed.

(** X3.  A NaN tilt or a NaN velocity turns both velocity and position into
    NaN within the tick: neither the clamp nor the boundary check stops
    it. *)
Theorem nan_poisons_the_particle (st : Globals) :
  is_nan (g_tilt_x st) = true \/ is_nan (water_vel st) = true ->
  exists (st' : Globals) (ev : list Event),
    update_led_strip st = Some (tt, st', ev) /\
    is_nan (water_vel st') = true /\ is_nan (water_pos st') = true.
Proof.
  intros H. exists (rendered (reflected (integrated st))), [].
  split; [apply update_led_strip_spec|].
  destruct (tick_nan st H) as [Ev Ep]. rewrite Ev, Ep. split; reflexivity.
Qed.

Lemma step_keeps_nan (s s' : System) :
  step s s' -> is_nan (water_vel (mem s)) = true ->
  is_nan (water_vel (mem s')) = true.
Proof.
  intros Hs Hn. destruct Hs as [s p m' ev Hb Hr|s io m' ev Hb Hr|s m' ev Hr];
    simpl mem.
  - rewrite setup_spec in Hr. injection Hr as <- _. exact Hn.
  - apply loop_frame in Hr. destruct Hr as [E _]. rewrite E. exact Hn.
  - rewrite loop1_spec in Hr. cbv zeta in Hr.
    destruct (create_ascii_visualization _ _ _) as [buf'|]; [|discriminate].
    injection Hr as <- _.
    change (water_vel (set_ascii buf' (rendered (reflected (integrated (mem s))))))
      with (water_vel (rendered (reflected (integrated (mem s))))).
    rewrite (proj1 (tick_nan (mem s) (or_intror Hn))). reflexivity.
Qed.

(** X4.  Once the velocity is NaN it is NaN in every later state of the
    system, whatever tilt is published afterwards. *)
Theorem nan_velocity_is_permanent (s s' : System) :
  steps s s' -> is_nan (water_vel (mem s)) = true ->
  is_nan (water_vel (mem s')) = true.
Proof.
  intros Hs Hn. induction Hs as [s|s1 s2 s3 H12 IH H23].
  - exact Hn.
  - apply (step_keeps_nan s2 s3 H23). apply IH. exact Hn.
Qed.
End Ownership.

(** ** The tilt that is published *)

Section Readings.
Context {platform : Platform}.
Import IEEE RoundingFacts FloatFacts.

Lemma be16_round_trip (n : Z) :
  -32768 <= n <= 32767 ->
  0 <= fst (be16_bytes n) < 256 /\ 0 <= snd (be16_bytes n) < 256 /\
  be16_signed (fst (be16_bytes n)) (snd (be16_bytes n)) = n.
Proof.
  intros H. unfold be16_bytes, be16_signed. cbn [fst snd].
  split; [|split].
  - Z.div_mod_to_equations. lia.
  - Z.div_mod_to_equations. lia.
  - destruct (256 * (n mod 65536 / 256) + n mod 256 <? 32768) eqn:E;
      [apply Z.ltb_lt in E|apply Z.ltb_ge in E];
      Z.div_mod_to_equations; lia.
Qed.

(** X5.  With the connected flag set, the raw sample [n] the sensor sends as
    two bytes, high byte first, comes back as exactly [n / 16384], a
    value in [-2, 2): the conversion loses nothing. *)
Theorem sensor_sample_round_trip (io : Core0Input) (st : Globals) (n : Z)
        (b2 b3 b4 b5 : Z) :
  g_sensor_connected st = true ->
  -32768 <= n <= 32767 ->
  tx_status (bus io) = 0 ->
  rx_data (bus io) = [fst (be16_bytes n); snd (be16_bytes n); b2; b3; b4; b5] ->
  exists x : F32.t,
    loop io st = Some (tt, set_tilt x st, [WriteTilt x]) /\
    F32.valid x = true /\ is_finite x = true /\
    (B2Q x == n # 16384)%Q /\ (-2 <= B2Q x)%Q /\ (B2Q x < 2)%Q.
Proof.
  intros Hc Hn Htx Hrx.
  destruct (be16_round_trip n Hn) as (Hhi & Hlo & Hrt).
  destruct (sample_exact _ _ Hhi Hlo) as (V & F & E).
  rewrite Hrt in E.
  exists (sample_value (fst (be16_bytes n)) (snd (be16_bytes n))).
  split.
  - cbv beta iota delta [loop bind load get ret]. rewrite Hc.
    unfold read_mpu6050. rewrite Htx, Hrx. reflexivity.
  - split; [exact V|]. split; [exact F|]. split; [exact E|].
    rewrite E. unfold Qle, Qlt. simpl. lia.
Qed.

(** X6.  In simulated mode the published tilt never exceeds the gain of the
    wave: whenever [sin] returns a value in [-1, 1], the tilt is a finite
    [float] between [-(float)0.8] and [(float)0.8]. *)
Theorem simulated_tilt_within_gain (io : Core0Input) (st : Globals) :
  g_sensor_connected st = false ->
  let time_sec := to_float (F64.div (F64.of_int (millis io)) (F64.lit 1000 1)) in
  let s := sin (F64.mul (to_double time_sec) (F64.lit 5 10)) in
  F64.valid s = true -> is_finite s = true ->
  (-1 <= B2Q s)%Q -> (B2Q s <= 1)%Q ->
  exists w : F32.t,
    loop io st = Some (tt, set_tilt w st, [WriteTilt w]) /\
    F32.valid w = true /\ is_finite w = true /\
    (- (13421773 # 16777216) <= B2Q w)%Q /\ (B2Q w <= 13421773 # 16777216)%Q.
Proof.
  intros Hc time_sec s V F L U.
  exists (to_float (F64.mul s (F64.lit 8 10))).
  split.
  - cbv beta iota delta [loop bind load get ret]. rewrite Hc. reflexivity.
  - assert (Fs : fin binary64 s) by (split; assumption).
    assert (Fc : fin binary64 (F64.lit 8 10)) by (split; vm_compute; reflexivity).
    assert (Fo : fin binary64 (SFopp (F64.lit 8 10)))
      by (split; vm_compute; reflexivity).
    assert (Ec : (B2Q (F64.lit 8 10) == 3602879701896397 # 4503599627370496)%Q)
      by (vm_compute; reflexivity).
    assert (Eo : (B2Q (SFopp (F64.lit 8 10))
                  == - (3602879701896397 # 4503599627370496))%Q)
      by (vm_compute; reflexivity).
    pose proof (fmul_rounds binary64 good64 _ _ Fs Fc) as H1.
    rewrite Ec in H1.
    destruct (rounds_between binary64 good64 _ _ _ _ _ _ H1 Fo Fc Eo Ec)
      as (F1 & L1 & U1); try lra.
    assert (Gc : fin binary32 (to_float (F64.lit 8 10)))
      by (split; vm_compute; reflexivity).
    assert (Go : fin binary32 (SFopp (to_float (F64.lit 8 10))))
      by (split; vm_compute; reflexivity).
    assert (Dc : (B2Q (to_float (F64.lit 8 10)) == 13421773 # 16777216)%Q)
      by (vm_compute; reflexivity).
    assert (Do : (B2Q (SFopp (to_float (F64.lit 8 10)))
                  == - (13421773 # 16777216))%Q)
      by (vm_compute; reflexivity).
    pose proof (fround_rounds binary32 good32 _ (proj2 F1)) as H2.
    destruct (rounds_between binary32 good32 _ _ _ _ _ _ H2 Go Gc Do Dc)
      as (F2 & L2 & U2); try lra.
    split; [apply F2|]. split; [apply F2|]. split; assumption.
Qed.
End Readings.

(** ** The console *)

Section Console.
Context {platform : Platform}.
Import IEEE RoundingFacts FloatFacts.

Lemma glyph_not_nul (led : CRGB.t) : glyph led <> zero.
Proof.
  unfold glyph. cbv zeta.
  destruct (_ >? 180); [discriminate|].
  destruct (_ >? 50); [discriminate|].
  destruct (_ >? 10); discriminate.
Qed.

(** A buffer that starts with the characters [g], none of them NUL,
    followed by a NUL, reads as the C string [g]. *)
Lemma c_str_prefix (g buf : list ascii) :
  (forall c, In c g -> c <> zero) ->
  (forall i, (i < List.length g)%nat -> nth i buf zero = nth i g zero) ->
  nth (List.length g) buf zero = zero ->
  c_str buf = string_of_list_ascii g.
Proof.
  revert buf. induction g as [|a g IH]; intros buf Hnz Hpre Hend.
  - destruct buf as [|c rest]; [reflexivity|].
    simpl in Hend. subst c. reflexivity.
  - assert (Ha : a <> zero) by (apply Hnz; left; reflexivity).
    destruct buf as [|c rest].
    + specialize (Hpre O ltac:(simpl; lia)). simpl in Hpre. congruence.
    + pose proof (Hpre O ltac:(simpl; lia)) as H0. simpl in H0. subst c.
      simpl. destruct (Ascii.eqb a zero) eqn:E.
      * apply Ascii.eqb_eq in E. contradiction.
      * f_equal. apply IH.
        -- intros c Hc. apply Hnz. right. exact Hc.
        -- intros i Hi. apply (Hpre (S i)). simpl. lia.
        -- exact Hend.
Qed.

Lemma string_of_list_length (g : list ascii) :
  String.length (string_of_list_ascii g) = List.length g.
Proof. induction g as [|a g IH]; simpl; congruence. Qed.

(** What [create_ascii_visualization] leaves in an array with room for
    the strip and the terminator. *)
Lemma visualization_written (strip : list CRGB.t) (buffer : list ascii)
      (buffer_size : Z) :
  NUM_LEDS + 1 <= buffer_size -> buffer_size <= Z.of_nat (List.length buffer) ->
  exists buffer' : list ascii,
    create_ascii_visualization strip buffer buffer_size = Some buffer' /\
    List.length buffer' = List.length buffer /\
    (forall i : nat, (i < 30)%nat ->
       nth i buffer' zero = glyph (nth i strip CRGB.Black)) /\
    nth 30 buffer' zero = zero /\
    (forall (j : nat) (d : ascii), (30 < j)%nat -> nth j buffer' d = nth j buffer d).
Proof.
  intros H Hlen. unfold create_ascii_visualization.
  assert (HN : NUM_LEDS = 30) by reflexivity. rewrite HN in *.
  destruct (Z.ltb_spec buffer_size (30 + 1)); [lia|].
  destruct (ascii_loop_spec strip (Z.to_nat 30) 0 buffer ltac:(lia) ltac:(lia))
    as (b1 & Hrun & Hl1 & Hin & Hout).
  rewrite Hrun. rewrite buf_write_in_range by (rewrite Hl1; lia).
  exists (list_set (Z.to_nat 30) zero b1).
  split; [reflexivity|]. split; [rewrite list_set_length; exact Hl1|].
  change (Z.to_nat 30) with 30%nat in *.
  split; [|split].
  - intros i Hi. rewrite list_set_nth_other by lia.
    specialize (Hin (Z.of_nat i) ltac:(lia)). rewrite Nat2Z.id in Hin. exact Hin.
  - apply list_set_nth_same. lia.
  - intros j d Hj. rewrite list_set_nth_other by lia. apply Hout. right. simpl. lia.
Qed.

Lemma visualization_reads (strip : list CRGB.t) (buffer' : list ascii) :
  List.length strip = 30%nat ->
  (forall i : nat, (i < 30)%nat ->
     nth i buffer' zero = glyph (nth i strip CRGB.Black)) ->
  nth 30 buffer' zero = zero ->
  c_str buffer' = string_of_list_ascii (map glyph strip).
Proof.
  intros Hl Hin Hend. apply c_str_prefix.
  - intros c Hc. apply in_map_iff in Hc. destruct Hc as (led & <- & _).
    apply glyph_not_nul.
  - rewrite length_map, Hl. intros i Hi. rewrite (Hin i Hi).
    rewrite (nth_indep _ zero (glyph CRGB.Black)) by (rewrite length_map; lia).
    symmetry. apply map_nth.
  - rewrite length_map, Hl. exact Hend.
Qed.

Lemma rendered_leds_length (st : Globals) :
  List.length (leds (rendered st)) = List.length (leds st).
Proof.
  unfold rendered, set_leds. cbn [leds]. rewrite paint_length. apply length_map.
Qed.

Lemma tick_leds_length (st : Globals) :
  List.length (leds (rendered (reflected (integrated st)))) = List.length (leds st).
Proof.
  rewrite rendered_leds_length. unfold reflected.
  destruct (flt _ _); [reflexivity|]. destruct (fge _ _); reflexivity.
Qed.

Lemma tick_ascii (st : Globals) :
  ascii_visual (rendered (reflected (integrated st))) = ascii_visual st.
Proof.
  unfold rendered. simpl ascii_visual. unfold reflected.
  destruct (flt _ _); [reflexivity|]. destruct (fge _ _); reflexivity.
Qed.

Lemma tick_tilt (st : Globals) :
  g_tilt_x (rendered (reflected (integrated st))) = g_tilt_x st.
Proof.
  unfold rendered. simpl g_tilt_x. unfold reflected.
  destruct (flt _ _); [reflexivity|]. destruct (fge _ _); reflexivity.
Qed.

(** One pass of [loop1] on the strip of 30 pixels and the buffer of 31
    characters. *)
Lemma loop1_runs (st : Globals) :
  List.length (leds st) = 30%nat -> List.length (ascii_visual st) = 31%nat ->
  exists st' : Globals,
    loop1 st = Some (tt, st', ShowFrame (leds st') :: console_line st') /\
    c_str (ascii_visual st') = string_of_list_ascii (map glyph (leds st')) /\
    List.length (leds st') = 30%nat /\ List.length (ascii_visual st') = 31%nat /\
    g_tilt_x st' = g_tilt_x st /\ g_sensor_connected st' = g_sensor_connected st /\
    water_pos st' = water_pos (rendered (reflected (integrated st))) /\
    water_vel st' = water_vel (rendered (reflected (integrated st))) /\
    st' = set_ascii (ascii_visual st') (rendered (reflected (integrated st))).
Proof.
  intros Hl Hb. rewrite loop1_spec. cbv zeta.
  set (st2 := rendered (reflected (integrated st))).
  assert (Hl2 : List.length (leds st2) = 30%nat)
    by (unfold st2; rewrite tick_leds_length; exact Hl).
  assert (Hb2 : ascii_visual st2 = ascii_visual st) by apply tick_ascii.
  destruct (visualization_written (leds st2) (ascii_visual st2)
              (Z.of_nat (List.length (ascii_visual st2))))
    as (buf' & Hrun & Hlen & Hin & Hend & _).
  - rewrite Hb2, Hb. reflexivity.
  - lia.
  - rewrite Hrun. exists (set_ascii buf' st2).
    split; [reflexivity|]. simpl ascii_visual. simpl leds.
    split; [apply visualization_reads; assumption|].
    split; [exact Hl2|]. split; [rewrite Hlen, Hb2; exact Hb|].
    split; [apply tick_tilt|]. split; [apply flag_through_tick|].
    split; [reflexivity|]. split; reflexivity.
Qed.

(** X7.  The bar printed with a frame is the frame just pushed to the strip:
    a pass of [loop1] runs the tick [update_led_strip] on the state it
    starts from, shows the strip that tick leaves, and prints the status
    tag, the tilt, the position that tick leaves and a bar of 30
    characters, the glyph of each pixel of that strip in order; the
    state after the pass is the state after the tick with the bar in
    the console buffer. *)
Theorem console_bar_shows_the_frame (st : Globals) :
  List.length (leds st) = 30%nat -> List.length (ascii_visual st) = 31%nat ->
  exists (st2 st' : Globals) (bar : string),
    update_led_strip st = Some (tt, st2, []) /\
    loop1 st =
      Some (tt, st',
            [ShowFrame (leds st2);
             SerialPrint (PChar "013"%char);
             SerialPrint (PStr (if g_sensor_connected st then "[H/W]" else "[SIM]"));
             SerialPrint (PStr " Tilt (X): ");
             SerialPrint (PFloat (g_tilt_x st) 2);
             SerialPrint (PStr " | Pos: ");
             SerialPrint (PFloat (water_pos st2) 2);
             SerialPrint (PStr " | Flow: [");
             SerialPrint (PStr bar);
             SerialPrint (PStr "] ")]) /\
    st' = set_ascii (ascii_visual st') st2 /\
    c_str (ascii_visual st') = bar /\
    bar = string_of_list_ascii (map glyph (leds st2)) /\
    String.length bar = 30%nat.
Proof.
  intros Hl Hb.
  destruct (loop1_runs st Hl Hb)
    as (st' & Hrun & Hbar & Hl' & _ & Ht & Hc & _ & _ & Hst).
  set (st2 := rendered (reflected (integrated st))) in *.
  assert (Hleds : leds st' = leds st2) by (rewrite Hst; reflexivity).
  assert (Hpos : water_pos st' = water_pos st2) by (rewrite Hst; reflexivity).
  exists st2, st', (c_str (ascii_visual st')).
  split; [apply update_led_strip_spec|].
  split; [|split; [exact Hst|split; [reflexivity|split]]].
  - rewrite Hrun. unfold console_line. rewrite Ht, Hc, Hleds, Hpos. reflexivity.
  - rewrite Hbar, Hleds. reflexivity.
  - rewrite Hbar, string_of_list_length, length_map. exact Hl'.
Qed.

End Console.

(** ** Runs of the two cores *)

Section Runs.
Context {platform : Platform}.
Import IEEE RoundingFacts FloatFacts.

Lemma steps_invariant (P : System -> Prop) :
  (forall s s', step s s' -> P s -> P s') ->
  forall s s', steps s s' -> P s -> P s'.
Proof.
  intros Hstep s s' H. induction H as [s|s1 s2 s3 H12 IH H23]; intros HP.
  - exact HP.
  - apply (Hstep s2 s3 H23). apply IH. exact HP.
Qed.

(** *** The arrays keep their extent *)

Lemma step_keeps_extents (s s' : System) :
  step s s' ->
  List.length (leds (mem s)) = 30%nat /\
  List.length (ascii_visual (mem s)) = 31%nat ->
  List.length (leds (mem s')) = 30%nat /\
  List.length (ascii_visual (mem s')) = 31%nat.
Proof.
  intros Hs [Hl Hb]. destruct Hs as [s p m' ev Hboot Hr|s io m' ev Hboot Hr|s m' ev Hr];
    simpl mem.
  - rewrite setup_spec in Hr. injection Hr as <- _. split; assumption.
  - apply loop_frame in Hr. destruct Hr as [E _]. rewrite E. split; assumption.
  - destruct (loop1_runs (mem s) Hl Hb) as (st' & Hrun & _ & Hl' & Hb' & _).
    rewrite Hrun in Hr. injection Hr as <- _. split; assumption.
Qed.

Lemma reachable_extents (s : System) :
  reachable s ->
  List.length (leds (mem s)) = 30%nat /\
  List.length (ascii_visual (mem s)) = 31%nat.
Proof.
  intros H.
  apply (steps_invariant _ step_keeps_extents initial_system s H).
  split; reflexivity.
Qed.

(** *** Stores into the strip *)

Lemma led_write_in_range (i : Z) (c : CRGB.t) (strip : list CRGB.t) :
  led_write i c strip = Some (list_set (Z.to_nat i) c strip) <->
  0 <= i < Z.of_nat (List.length strip).
Proof.
  unfold led_write.
  destruct (0 <=? i) eqn:A; destruct (i <? Z.of_nat (List.length strip)) eqn:B;
    simpl; split; intros H; try discriminate; try reflexivity;
    try (apply Z.leb_le in A); try (apply Z.ltb_lt in B);
    try (apply Z.leb_gt in A); try (apply Z.ltb_ge in B); lia.
Qed.

Lemma led_write_out_of_range (i : Z) (c : CRGB.t) (strip : list CRGB.t) :
  led_write i c strip = None <->
  (i < 0 \/ Z.of_nat (List.length strip) <= i).
Proof.
  unfold led_write.
  destruct (0 <=? i) eqn:A; destruct (i <? Z.of_nat (List.length strip)) eqn:B;
    simpl; split; intros H; try discriminate; try reflexivity;
    try (apply Z.leb_le in A); try (apply Z.ltb_lt in B);
    try (apply Z.leb_gt in A); try (apply Z.ltb_ge in B); lia.
Qed.

Lemma glow_pixel_checked_spec (i : Z) (st : Globals) :
  glow_pixel_checked i st =
  match led_write i (glow_color (water_pos st) (flow_time_offset st) i) (leds st) with
  | Some l' => Some (tt, set_leds l' st, [])
  | None => None
  end.
Proof.
  unfold glow_pixel_checked, led_write.
  cbv beta iota zeta delta [bind load store get put ret].
  destruct ((0 <=? i) && (i <? Z.of_nat (List.length (leds st)))); reflexivity.
Qed.

Lemma for_range_checked (n : nat) (a : Z) (st : Globals) :
  0 <= a -> a + Z.of_nat n <= Z.of_nat (List.length (leds st)) ->
  for_range a n glow_pixel_checked st = for_range a n glow_pixel st.
Proof.
  revert a st. induction n as [|k IH]; intros a st Ha Hn.
  - reflexivity.
  - simpl for_range. unfold bind.
    rewrite glow_pixel_checked_spec, glow_pixel_spec.
    rewrite (proj2 (led_write_in_range a _ (leds st))) by lia.
    rewrite IH; [reflexivity|lia|].
    cbn [leds set_leds]. rewrite list_set_length. lia.
Qed.

Lemma for_range_checked_short (n : nat) (a : Z) (st : Globals) :
  0 <= a <= Z.of_nat (List.length (leds st)) ->
  Z.of_nat (List.length (leds st)) < a + Z.of_nat n ->
  for_range a n glow_pixel_checked st = None.
Proof.
  revert a st. induction n as [|k IH]; intros a st Ha Hn.
  - lia.
  - simpl for_range. unfold bind. rewrite glow_pixel_checked_spec.
    destruct (Z_lt_ge_dec a (Z.of_nat (List.length (leds st)))) as [L|G].
    + rewrite (proj2 (led_write_in_range a _ (leds st))) by lia.
      rewrite IH; [reflexivity| |];
        cbn [leds set_leds]; rewrite list_set_length; lia.
    + rewrite (proj2 (led_write_out_of_range a _ (leds st))) by lia.
      reflexivity.
Qed.

Lemma tick_keeps_strip (st : Globals) :
  leds (reflected (integrated st)) = leds st.
Proof.
  unfold reflected.
  destruct (flt _ _); [reflexivity|]. destruct (fge _ _); reflexivity.
Qed.

Lemma tick_checked (st : Globals) :
  List.length (leds st) = 30%nat ->
  update_led_strip_checked st = update_led_strip st.
Proof.
  intros Hl. unfold update_led_strip_checked, update_led_strip, bind.
  rewrite physics_update_spec, edge_reflection_spec.
  cbv beta iota delta [render_glow_checked render_glow bind load store get put ret].
  rewrite for_range_checked; [reflexivity|lia|].
  cbn [leds set_leds set_offset]. rewrite length_map.
  rewrite tick_keeps_strip.
  rewrite Hl. unfold NUM_LEDS. simpl. lia.
Qed.

(** A strip shorter than [NUM_LEDS] makes the checked tick fail: the
    check is a real one. *)
Lemma tick_checked_short (st : Globals) :
  (List.length (leds st) < 30)%nat ->
  update_led_strip_checked st = None.
Proof.
  intros Hl. unfold update_led_strip_checked, bind.
  rewrite physics_update_spec, edge_reflection_spec.
  cbv beta iota delta [render_glow_checked bind load store get put ret].
  rewrite for_range_checked_short; [reflexivity|lia|].
  cbn [leds set_leds set_offset]. rewrite length_map.
  rewrite tick_keeps_strip.
  unfold NUM_LEDS. simpl. lia.
Qed.

(** X9.  In every state the system can reach, the next pass of [loop1] runs
    to its end with every array store inside its array: the strip still
    has its 30 pixels and the console buffer its 31 characters; the
    tick in which each [leds[i] = color] is checked against the extent
    of the strip returns, with the state and log of the tick itself;
    and the pass, whose stores into the console buffer are checked,
    returns. *)
Theorem frames_never_fault (s : System) :
  reachable s ->
  List.length (leds (mem s)) = 30%nat /\
  List.length (ascii_visual (mem s)) = 31%nat /\
  (exists st2 : Globals,
     update_led_strip_checked (mem s) = Some (tt, st2, []) /\
     update_led_strip (mem s) = Some (tt, st2, []) /\
     List.length (leds st2) = 30%nat) /\
  (forall (i : Z) (c : CRGB.t) (strip : list CRGB.t),
     led_write i c strip = None <->
     (i < 0 \/ Z.of_nat (List.length strip) <= i)) /\
  (forall st : Globals,
     (List.length (leds st) < 30)%nat -> update_led_strip_checked st = None) /\
  exists (m' : Globals) (ev : list Event), loop1 (mem s) = Some (tt, m', ev).
Proof.
  intros H. destruct (reachable_extents s H) as [Hl Hb].
  split; [exact Hl|]. split; [exact Hb|].
  split.
  { exists (rendered (reflected (integrated (mem s)))).
    rewrite (tick_checked _ Hl), update_led_strip_spec.
    split; [reflexivity|]. split; [reflexivity|].
    rewrite tick_leds_length. exact Hl. }
  split; [exact led_write_out_of_range|].
  split; [exact tick_checked_short|].
  destruct (loop1_runs (mem s) Hl Hb) as (st' & Hrun & _).
  eexists _, _. exact Hrun.
Qed.

(** *** The status tag *)






(** *** The particle *)

Lemma tilts_published_app (h : list (Pass * list Event)) (k : Pass)
      (ev : list Event) :
  tilts_published (h ++ [(k, ev)]) = tilts_published h ++ published ev.
Proof.
  unfold tilts_published. rewrite flat_map_app. simpl. rewrite app_nil_r.
  reflexivity.
Qed.

Lemma step_history (s s' : System) :
  step s s' -> exists (k : Pass) (ev : list Event),
    history s' = history s ++ [(k, ev)].
Proof.
  intros Hs. destruct Hs; eexists _, _; reflexivity.
Qed.

Lemma step_particle (s s' : System) :
  step s s' ->
  Forall usable_tilt (tilts_published (history s')) ->
  usable_tilt (g_tilt_x (mem s)) /\
  in_strip (water_pos (mem s)) /\ speed_ok (water_vel (mem s)) ->
  usable_tilt (g_tilt_x (mem s')) /\
  in_strip (water_pos (mem s')) /\ speed_ok (water_vel (mem s')).
Proof.
  intros Hs Hlog (Ht & Hp & Hv).
  destruct Hs as [s p m' ev Hboot Hr|s io m' ev Hboot Hr|s m' ev Hr];
    cbn [mem history] in *.
  - rewrite setup_spec in Hr. injection Hr as <- _.
    split; [exact Ht|]. split; assumption.
  - apply loop_frame in Hr. destruct Hr as [E [[_ Es]|Ew]].
    + rewrite Es. split; [exact Ht|]. split; assumption.
    + rewrite tilts_published_app, Ew in Hlog. apply Forall_app in Hlog.
      destruct Hlog as [_ Hx]. simpl in Hx. inversion Hx as [|x l Hu _]. subst.
      split; [exact Hu|]. rewrite E. split; assumption.
  - rewrite loop1_spec in Hr. cbv zeta in Hr.
    destruct (create_ascii_visualization _ _ _) as [buf'|]; [|discriminate].
    injection Hr as <- _.
    destruct Ht as [Vt Nt].
    destruct (tick_bounds (mem s) Hp Hv Vt Nt) as [Hp' Hv'].
    split; [|split; assumption].
    change (g_tilt_x (set_ascii buf' (rendered (reflected (integrated (mem s))))))
      with (g_tilt_x (rendered (reflected (integrated (mem s))))).
    rewrite tick_tilt. split; assumption.
Qed.

(** X11.  In every run in which no tilt published is a NaN, the particle is
    on the strip and within the speed limit in every state: position
    in [0, NUM_LEDS), velocity magnitude at most [MAX_VELOCITY]. *)
Theorem particle_never_leaves_the_strip (s : System) :
  reachable s ->
  Forall usable_tilt (tilts_published (history s)) ->
  in_strip (water_pos (mem s)) /\ speed_ok (water_vel (mem s)).
Proof.
  intros H.
  assert (G : Forall usable_tilt (tilts_published (history s)) ->
              usable_tilt (g_tilt_x (mem s)) /\
              in_strip (water_pos (mem s)) /\ speed_ok (water_vel (mem s))).
  { apply (steps_invariant
             (fun s => Forall usable_tilt (tilts_published (history s)) ->
                       usable_tilt (g_tilt_x (mem s)) /\
                       in_strip (water_pos (mem s)) /\ speed_ok (water_vel (mem s)))
             ) with (s := initial_system); [|exact H|].
    - intros s1 s2 Hs IH Hlog. apply (step_particle s1 s2 Hs Hlog). apply IH.
      destruct (step_history s1 s2 Hs) as (k & ev & Hh).
      rewrite Hh, tilts_published_app in Hlog. apply Forall_app in Hlog.
      apply Hlog.
    - intros _. split; [|split]; repeat split; vm_compute; reflexivity. }
  intros Hlog. apply G in Hlog. apply Hlog.
Qed.
End Runs.

(** ** A level strip *)

Section Level.
Context {platform : Platform}.
Import IEEE RoundingFacts FloatFacts.

Lemma abs_bounds (x : spec_float) :
  (- B2Q (SFabs x) <= B2Q x)%Q /\ (B2Q x <= B2Q (SFabs x))%Q /\
  (0 <= B2Q (SFabs x))%Q.
Proof.
  destruct (B2Q_abs_cases x) as [[E1 E2]|[E1 E2]]; rewrite E1; repeat split; lra.
Qed.

(** The drag never enlarges a finite velocity. *)
Lemma drag_never_grows (v : F32.t) :
  fin binary32 v ->
  let w := to_float (F64.mul (to_double v) (F64.lit 98 100)) in
  fin binary32 w /\
  (- B2Q (SFabs v) <= B2Q w)%Q /\ (B2Q w <= B2Q (SFabs v))%Q.
Proof.
  intros F w.
  pose proof (fin_abs _ _ F) as Fa. pose proof (fin_opp _ _ Fa) as Fna.
  pose proof (B2Q_opp (SFabs v)) as EnA.
  destruct (abs_bounds v) as (A1 & A2 & A3).
  destruct (to_double_exact v F) as [Fd Ed].
  destruct (to_double_exact _ Fa) as [Fda Eda].
  pose proof (fin_opp _ _ Fda) as Fnda.
  pose proof (B2Q_opp (to_double (SFabs v))) as EndA. rewrite Eda in EndA.
  assert (Fc : fin binary64 (F64.lit 98 100)) by (split; vm_compute; reflexivity).
  assert (Ec : (B2Q (F64.lit 98 100) == 8827055269646172 # 9007199254740992)%Q)
    by (vm_compute; reflexivity).
  pose proof (fmul_rounds binary64 good64 _ _ Fd Fc) as R64.
  rewrite Ed, Ec in R64.
  destruct (rounds_between binary64 good64 _ _ _ _ (- B2Q (SFabs v)) (B2Q (SFabs v))
              R64 Fnda Fda EndA Eda) as (F64m & L64 & U64); try lra.
  pose proof (fround_rounds binary32 good32 _ (proj2 F64m)) as R32.
  destruct (rounds_between binary32 good32 _ _ _ _ (- B2Q (SFabs v)) (B2Q (SFabs v))
              R32 Fna Fa EnA (Qeq_refl _)) as (F32w & L32 & U32); try lra.
  split; [exact F32w|]. split; assumption.
Qed.

Lemma constrain_never_grows (w : F32.t) (A : Q) :
  fin binary32 w -> (- A <= B2Q w)%Q -> (B2Q w <= A)%Q ->
  let c := constrain w (F32.opp MAX_VELOCITY) MAX_VELOCITY in
  fin binary32 c /\ (- A <= B2Q c)%Q /\ (B2Q c <= A)%Q.
Proof.
  intros F L U c. subst c.
  assert (F1 : fin binary32 MAX_VELOCITY) by (split; vm_compute; reflexivity).
  assert (Fm : fin binary32 (F32.opp MAX_VELOCITY)) by (split; vm_compute; reflexivity).
  assert (E1 : (B2Q MAX_VELOCITY == 1)%Q) by (vm_compute; reflexivity).
  assert (Em : (B2Q (F32.opp MAX_VELOCITY) == -1)%Q) by (vm_compute; reflexivity).
  unfold constrain, fgt.
  change (SFltb MAX_VELOCITY w) with (flt MAX_VELOCITY w).
  destruct (flt w (F32.opp MAX_VELOCITY)) eqn:Hlo.
  - apply (flt_iff binary32 good32) in Hlo; try assumption.
    rewrite Em in *. split; [exact Fm|]. split; lra.
  - destruct (flt MAX_VELOCITY w) eqn:Hhi.
    + apply (flt_iff binary32 good32) in Hhi; try assumption.
      rewrite E1 in *. split; [exact F1|]. split; lra.
    + split; [exact F|]. split; assumption.
Qed.

Lemma bounce_never_grows (c : F32.t) (A : Q) :
  fin binary32 c -> (- A <= B2Q c)%Q -> (B2Q c <= A)%Q ->
  let v := F32.mul (F32.opp c) BOUNCE_DAMPING in
  fin binary32 v /\ (- A <= B2Q v)%Q /\ (B2Q v <= A)%Q.
Proof.
  intros F L U v. subst v. unfold F32.mul, F32.opp, F32.fmt.
  assert (Fc : fin binary32 BOUNCE_DAMPING) by (split; vm_compute; reflexivity).
  assert (Ec : (B2Q BOUNCE_DAMPING == 14260634 # 16777216)%Q) by (vm_compute; reflexivity).
  pose proof (fmul_rounds binary32 good32 _ _ (fin_opp binary32 c F) Fc) as R.
  rewrite B2Q_opp, Ec in R.
  pose proof (fin_abs _ _ F) as Fa. pose proof (fin_opp _ _ Fa) as Fna.
  pose proof (B2Q_opp (SFabs c)) as Eo.
  destruct (abs_bounds c) as (A1 & A2 & A3).
  destruct (rounds_between binary32 good32 _ _ _ _ (- B2Q (SFabs c)) (B2Q (SFabs c))
              R Fna Fa Eo (Qeq_refl _)) as (Fv & Lv & Uv); try lra.
  split; [exact Fv|].
  destruct (B2Q_abs_cases c) as [[E1 E2]|[E1 E2]]; rewrite E1 in Lv, Uv; split; lra.
Qed.

(** With a tilt of zero the force term leaves a finite velocity as it
    is, up to the sign of a zero. *)
Lemma no_force_on_level (t v : F32.t) :
  is_zero t = true -> fin binary32 v ->
  let f := F32.add v (to_float (F64.mul (to_double t) (F64.lit 2 10))) in
  fin binary32 f /\ (B2Q f == B2Q v)%Q.
Proof.
  intros Hz [V F] f. subst f.
  destruct t as [st| | |]; try discriminate.
  rewrite zero_tilt_no_force.
  destruct v as [sv|sv| |sv m e]; try discriminate.
  - destruct sv, st; split; try split; reflexivity.
  - split; [split; assumption|reflexivity].
Qed.

Lemma level_velocity (st : Globals) :
  is_zero (g_tilt_x st) = true -> fin binary32 (water_vel st) ->
  let v' := water_vel (rendered (reflected (integrated st))) in
  fin binary32 v' /\
  (- B2Q (SFabs (water_vel st)) <= B2Q v')%Q /\
  (B2Q v' <= B2Q (SFabs (water_vel st)))%Q.
Proof.
  intros Hz F v'. subst v'.
  change (water_vel (rendered (reflected (integrated st))))
    with (water_vel (reflected (integrated st))).
  destruct (no_force_on_level _ _ Hz F) as [Ff Ef]. cbv zeta in Ff, Ef.
  destruct (drag_never_grows _ Ff) as (Fw & Lw & Uw). cbv zeta in Fw, Lw, Uw.
  assert (Ea : (B2Q (SFabs (F32.add (water_vel st)
                   (to_float (F64.mul (to_double (g_tilt_x st)) (F64.lit 2 10)))))
                == B2Q (SFabs (water_vel st)))%Q).
  { destruct (B2Q_abs_cases (F32.add (water_vel st)
               (to_float (F64.mul (to_double (g_tilt_x st)) (F64.lit 2 10)))))
      as [[E1 E2]|[E1 E2]];
      destruct (B2Q_abs_cases (water_vel st)) as [[E3 E4]|[E3 E4]];
      rewrite E1, E3; rewrite Ef in E2; lra. }
  rewrite Ea in Lw, Uw.
  destruct (constrain_never_grows _ _ Fw Lw Uw) as (Fc & Lc & Uc).
  cbv zeta in Fc, Lc, Uc.
  change (constrain _ _ _) with (next_velocity (g_tilt_x st) (water_vel st))
    in Fc, Lc, Uc.
  unfold reflected.
  change (water_vel (integrated st))
    with (next_velocity (g_tilt_x st) (water_vel st)).
  destruct (bounce_never_grows _ _ Fc Lc Uc) as (Fb & Lb & Ub).
  cbv zeta in Fb, Lb, Ub.
  destruct (flt (water_pos (integrated st)) (F32.of_int 0)).
  - simpl water_vel. split; [exact Fb|]. split; assumption.
  - destruct (fge (water_pos (integrated st)) (F32.of_int NUM_LEDS)).
    + simpl water_vel. split; [exact Fb|]. split; assumption.
    + change (water_vel (integrated st))
        with (next_velocity (g_tilt_x st) (water_vel st)).
      split; [exact Fc|]. split; assumption.
Qed.

(** X12.  On a level strip (tilt zero) a tick never speeds the particle up:
    the magnitude of any finite velocity, subnormal ones included, is
    not larger after the tick than before, through drag, clamp and
    bounce alike. *)
Theorem level_strip_never_accelerates (st : Globals) :
  is_zero (g_tilt_x st) = true ->
  F32.valid (water_vel st) = true -> is_finite (water_vel st) = true ->
  exists (st' : Globals) (ev : list Event),
    update_led_strip st = Some (tt, st', ev) /\
    F32.valid (water_vel st') = true /\ is_finite (water_vel st') = true /\
    fle (SFabs (water_vel st')) (SFabs (water_vel st)) = true.
Proof.
  intros Hz V Fi.
  exists (rendered (reflected (integrated st))), [].
  split; [apply update_led_strip_spec|].
  assert (F : fin binary32 (water_vel st)) by (split; assumption).
  destruct (level_velocity st Hz F) as (F' & L & U). cbv zeta in F', L, U.
  split; [apply F'|]. split; [apply F'|].
  apply (fle_iff binary32 good32); [apply fin_abs; exact F'|apply fin_abs; exact F|].
  destruct (B2Q_abs_cases (water_vel (rendered (reflected (integrated st)))))
    as [[E1 E2]|[E1 E2]]; rewrite E1; lra.
Qed.

Lemma add_zero (x z : F32.t) :
  fin binary32 x -> is_zero z = true ->
  fin binary32 (F32.add x z) /\ (B2Q (F32.add x z) == B2Q x)%Q.
Proof.
  intros [V F] Hz. destruct z as [sz| | |]; try discriminate.
  destruct x as [sx|sx| |sx m e]; try discriminate.
  - destruct sx, sz; split; try split; reflexivity.
  - split; [split; assumption|reflexivity].
Qed.

Lemma rest_velocity (t v : F32.t) :
  is_zero t = true -> is_zero v = true -> is_zero (next_velocity t v) = true.
Proof.
  intros Ht Hv. destruct t as [st| | |]; try discriminate.
  destruct v as [sv| | |]; try discriminate.
  destruct st, sv; vm_compute; reflexivity.
Qed.

(** X13.  A particle at rest on a level strip stays where it is: with tilt
    and velocity zero and the position on the strip, the tick leaves
    the velocity zero and the position at the same value. *)
Theorem rest_is_a_fixed_point (st : Globals) :
  is_zero (g_tilt_x st) = true -> is_zero (water_vel st) = true ->
  in_strip (water_pos st) ->
  exists (st' : Globals) (ev : list Event),
    update_led_strip st = Some (tt, st', ev) /\
    is_zero (water_vel st') = true /\
    in_strip (water_pos st') /\ (B2Q (water_pos st') == B2Q (water_pos st))%Q.
Proof.
  intros Ht Hv Hp.
  exists (rendered (reflected (integrated st))), [].
  split; [apply update_led_strip_spec|].
  change (water_pos (rendered (reflected (integrated st))))
    with (water_pos (reflected (integrated st))).
  change (water_vel (rendered (reflected (integrated st))))
    with (water_vel (reflected (integrated st))).
  pose proof (rest_velocity _ _ Ht Hv) as Hz.
  apply in_strip_enclosed in Hp. destruct Hp as (Fp & Lp & Up).
  destruct (add_zero _ _ Fp Hz) as [Fp' Ep'].
  assert (F0 : fin binary32 (F32.of_int 0)) by (split; vm_compute; reflexivity).
  assert (F30 : fin binary32 (F32.of_int NUM_LEDS)) by (split; vm_compute; reflexivity).
  assert (E0 : (B2Q (F32.of_int 0) == 0)%Q) by (vm_compute; reflexivity).
  assert (E30 : (B2Q (F32.of_int NUM_LEDS) == 30)%Q) by (vm_compute; reflexivity).
  unfold reflected.
  change (water_pos (integrated st))
    with (F32.add (water_pos st) (next_velocity (g_tilt_x st) (water_vel st))).
  assert (Hneg : flt (F32.add (water_pos st)
                   (next_velocity (g_tilt_x st) (water_vel st))) (F32.of_int 0) = false).
  { apply (flt_false_iff binary32 good32); try assumption. rewrite E0, Ep'. exact Lp. }
  assert (Hfar : fge (F32.add (water_pos st)
                   (next_velocity (g_tilt_x st) (water_vel st)))
                   (F32.of_int NUM_LEDS) = false).
  { apply (fle_false_iff binary32 good32); try assumption. rewrite E30, Ep'. exact Up. }
  rewrite Hneg, Hfar.
  split; [exact Hz|]. split; [|exact Ep'].
  apply in_strip_enclosed. split; [exact Fp'|]. rewrite Ep'. split; assumption.
Qed.
End Level.

(** ** The shimmer phase and the pixel scale *)

Section Phase.
Context {platform : Platform}.
Import IEEE RoundingFacts FloatFacts.

Lemma tick_offset (st : Globals) :
  flow_time_offset (rendered (reflected (integrated st)))
  = next_phase (flow_time_offset st).
Proof.
  unfold rendered. cbn [flow_time_offset set_leds set_offset]. unfold reflected.
  destruct (flt _ _); [reflexivity|]. destruct (fge _ _); reflexivity.
Qed.

(** X14.  Once the shimmer phase has reached [2^20 = 1048576] it no longer
    advances: [flow_time_offset += 0.05] rounds back to the value it
    had, and every later frame is drawn with the same phase. *)
Theorem shimmer_phase_stalls (st : Globals) :
  F32.valid (flow_time_offset st) = true ->
  is_finite (flow_time_offset st) = true ->
  (1048576 <= B2Q (flow_time_offset st))%Q ->
  (B2Q (flow_time_offset st) <= 85070591730234615865843651857942052864)%Q ->
  exists (st' : Globals) (ev : list Event),
    update_led_strip st = Some (tt, st', ev) /\
    flow_time_offset st' = flow_time_offset st.
Proof.
  intros V F L U.
  exists (rendered (reflected (integrated st))), [].
  split; [apply update_led_strip_spec|].
  rewrite tick_offset. apply phase_absorbs_increment; [split|..]; assumption.
Qed.

(** *** The scale of a pixel *)

(** X15.  The scale handed to [nscale8] never wraps: when [exp] returns a
    value in [0, 1] and [sin] one in [-1, 1], [intensity * 255] is a
    finite [float] in [0, 255] and its conversion to [uint8_t] is its
    integer part. *)
Theorem pixel_scale_never_wraps (pos phase : F32.t) (i : Z) :
  let e := exp (F32.mul (F32.opp (abs (F32.sub (F32.of_int i) pos))) GLOW_DECAY) in
  let s := sin (F64.add (F64.mul (F64.of_int i) (F64.lit 3 10)) (to_double phase)) in
  F32.valid e = true -> is_finite e = true -> (0 <= B2Q e)%Q -> (B2Q e <= 1)%Q ->
  F64.valid s = true -> is_finite s = true -> (-1 <= B2Q s)%Q -> (B2Q s <= 1)%Q ->
  let shimmer_i := to_float (F64.add (F64.mul s (F64.lit 2 10)) (F64.lit 8 10)) in
  let scale := F32.mul (F32.mul e shimmer_i) (F32.of_int 255) in
  glow_color pos phase i = nscale8 WATER_COLOR (f32_to_u8 scale) /\
  F32.valid scale = true /\ is_finite scale = true /\
  (0 <= B2Q scale)%Q /\ (B2Q scale <= 255)%Q /\
  0 <= f32_to_u8 scale <= 255 /\
  (inject_Z (f32_to_u8 scale) <= B2Q scale)%Q /\
  (B2Q scale < inject_Z (f32_to_u8 scale) + 1)%Q.
Proof.
  intros e s Ve Fe Le Ue Vs Fs Ls Us sh scale.
  split; [reflexivity|].
  assert (He : fin binary32 e) by (split; assumption).
  assert (Hs : fin binary64 s) by (split; assumption).
  destruct (shimmer_range s Hs Ls Us) as (Hsh & Lsh & Ush). fold sh in Hsh, Lsh, Ush.
  assert (F0 : fin binary32 (F32.of_int 0)) by (split; vm_compute; reflexivity).
  assert (F1 : fin binary32 (F32.of_int 1)) by (split; vm_compute; reflexivity).
  assert (F255 : fin binary32 (F32.of_int 255)) by (split; vm_compute; reflexivity).
  assert (E0 : (B2Q (F32.of_int 0) == 0)%Q) by (vm_compute; reflexivity).
  assert (E1 : (B2Q (F32.of_int 1) == 1)%Q) by (vm_compute; reflexivity).
  assert (E255 : (B2Q (F32.of_int 255) == 255)%Q) by (vm_compute; reflexivity).
  pose proof (fmul_rounds binary32 good32 _ _ He Hsh) as R1.
  destruct (rounds_between binary32 good32 _ _ _ _ _ _ R1 F0 F1 E0 E1)
    as (G1 & L1 & U1); try nra.
  pose proof (fmul_rounds binary32 good32 _ _ G1 F255) as R2. rewrite E255 in R2.
  destruct (rounds_between binary32 good32 _ _ _ _ _ _ R2 F0 F255 E0 E255)
    as (G2 & L2 & U2); try lra.
  change (fmul binary32 (fmul binary32 e sh) (F32.of_int 255)) with scale in *.
  destruct (f32_to_u8_floor scale G2 L2 U2) as (B & T1 & T2).
  split; [apply G2|]. split; [apply G2|].
  split; [exact L2|]. split; [exact U2|]. split; [exact B|]. split; assumption.
Qed.
End Phase.

(** ** The direction of a bounce *)

Section Bounce.
Context {platform : Platform}.
Import IEEE RoundingFacts FloatFacts.

(** X16.  A bounce sends the particle back towards the strip: from a
    position in [0, 30) and a velocity within the limit, when the
    integration step overshoots the far edge the tick ends with a
    velocity that is negative or zero, and when it undershoots the near
    edge with one that is positive or zero. *)
Theorem bounce_points_inward (st : Globals) :
  in_strip (water_pos st) -> speed_ok (water_vel st) ->
  F32.valid (g_tilt_x st) = true -> is_nan (g_tilt_x st) = false ->
  exists (st1 st' : Globals) (ev : list Event),
    physics_update st = Some (tt, st1, []) /\
    update_led_strip st = Some (tt, st', ev) /\
    (fge (water_pos st1) (F32.of_int NUM_LEDS) = true ->
     fle (water_vel st') (F32.of_int 0) = true) /\
    (flt (water_pos st1) (F32.of_int 0) = true ->
     fle (F32.of_int 0) (water_vel st') = true).
Proof.
  intros Hp Hv Vt Nt.
  exists (integrated st), (rendered (reflected (integrated st))), [].
  split; [apply physics_update_spec|]. split; [apply update_led_strip_spec|].
  apply in_strip_enclosed in Hp. destruct Hp as (Fp & Lp & Up).
  apply speed_ok_enclosed in Hv.
  pose proof (next_velocity_clamped _ _ Vt Nt Hv) as (Fv' & Lv' & Uv').
  change (water_vel (rendered (reflected (integrated st))))
    with (water_vel (reflected (integrated st))).
  unfold reflected.
  change (water_pos (integrated st))
    with (F32.add (water_pos st) (next_velocity (g_tilt_x st) (water_vel st))).
  change (water_vel (integrated st))
    with (next_velocity (g_tilt_x st) (water_vel st)).
  set (v' := next_velocity (g_tilt_x st) (water_vel st)) in *.
  pose proof (fadd_rounds binary32 good32 _ _ Fp Fv') as Rp.
  set (p' := F32.add (water_pos st) v') in *.
  change (fadd binary32 (water_pos st) v') with p' in Rp.
  assert (Fp' : fin binary32 p').
  { apply (integrated_position _ _ Fp Lp Up). split; [exact Fv'|]. split; assumption. }
  assert (F0 : fin binary32 (F32.of_int 0)) by (split; vm_compute; reflexivity).
  assert (F1 : fin binary32 (F32.of_int 1)) by (split; vm_compute; reflexivity).
  assert (Fm : fin binary32 (F32.of_int (-1))) by (split; vm_compute; reflexivity).
  assert (F30 : fin binary32 (F32.of_int NUM_LEDS)) by (split; vm_compute; reflexivity).
  assert (F31 : fin binary32 (F32.of_int 31)) by (split; vm_compute; reflexivity).
  assert (E0 : (B2Q (F32.of_int 0) == 0)%Q) by (vm_compute; reflexivity).
  assert (E1 : (B2Q (F32.of_int 1) == 1)%Q) by (vm_compute; reflexivity).
  assert (Em : (B2Q (F32.of_int (-1)) == -1)%Q) by (vm_compute; reflexivity).
  assert (E30 : (B2Q (F32.of_int NUM_LEDS) == 30)%Q) by (vm_compute; reflexivity).
  assert (E31 : (B2Q (F32.of_int 31) == 31)%Q) by (vm_compute; reflexivity).
  assert (Fd : fin binary32 BOUNCE_DAMPING) by (split; vm_compute; reflexivity).
  assert (Ed : (B2Q BOUNCE_DAMPING == 14260634 # 16777216)%Q)
    by (vm_compute; reflexivity).
  pose proof (fmul_rounds binary32 good32 _ _ (fin_opp binary32 v' Fv') Fd) as Rb.
  rewrite B2Q_opp, Ed in Rb.
  change (fmul binary32 (SFopp v') BOUNCE_DAMPING)
    with (F32.mul (F32.opp v') BOUNCE_DAMPING) in Rb.
  split.
  - intros Hfar. rewrite (far_side_not_negative _ Hfar), Hfar. simpl water_vel.
    apply (fle_iff binary32 good32) in Hfar; try assumption. rewrite E30 in Hfar.
    assert (Hpos : (0 < B2Q v')%Q).
    { destruct (Qlt_le_dec 0 (B2Q v')) as [H|H]; [exact H|]. exfalso.
      destruct (rounds_between binary32 good32 _ _ _ _ _ _ Rp Fm Fp Em (Qeq_refl _))
        as (_ & _ & Ub); lra. }
    destruct (rounds_between binary32 good32 _ _ _ _ _ _ Rb Fm F0 Em E0)
      as (Fb & Lb & Ub); try lra.
    apply (proj2 (fle_iff binary32 good32 _ _ Fb F0)). rewrite E0. exact Ub.
  - intros Hneg. rewrite Hneg. simpl water_vel.
    apply (flt_iff binary32 good32) in Hneg; try assumption. rewrite E0 in Hneg.
    assert (Hpos : (B2Q v' < 0)%Q).
    { destruct (Qlt_le_dec (B2Q v') 0) as [H|H]; [exact H|]. exfalso.
      destruct (rounds_between binary32 good32 _ _ _ _ _ _ Rp Fp F31 (Qeq_refl _) E31)
        as (_ & Lb & _); lra. }
    destruct (rounds_between binary32 good32 _ _ _ _ _ _ Rb F0 F1 E0 E1)
      as (Fb & Lb & Ub); try lra.
    apply (proj2 (fle_iff binary32 good32 _ _ F0 Fb)). rewrite E0. exact Lb.
Qed.
End Bounce.

(* ================================================================== *)
(** * The theorems at sample states *)
(* ================================================================== *)

Section Samples.
Import IEEE.

Lemma integration_order_at_far_edge :
  fin binary32 (g_tilt_x near_far_edge) /\
  fin binary32 (water_vel near_far_edge) /\
  fin binary32 (water_pos near_far_edge) /\
  (1 < B2Q (to_float
             (F64.mul
                (to_double
                   (F32.add (water_vel near_far_edge)
                      (to_float (F64.mul (to_double (g_tilt_x near_far_edge))
                                         (F64.lit 2 10)))))
                (F64.lit 98 100))))%Q /\
  exists st1 : Globals,
    @physics_update near_far_edge = Some (tt, st1, []) /\
    (B2Q (water_vel st1) == 1)%Q /\
    rounds binary32 (B2Q (water_pos near_far_edge) + B2Q (water_vel st1))
           (water_pos st1) /\
    (B2Q (water_pos st1) == 61 # 2)%Q.
Proof.
  assert (Ft : fin binary32 (g_tilt_x near_far_edge))
    by (split; vm_compute; reflexivity).
  assert (Fv : fin binary32 (water_vel near_far_edge))
    by (split; vm_compute; reflexivity).
  assert (Fp : fin binary32 (water_pos near_far_edge))
    by (split; vm_compute; reflexivity).
  assert (Hd : (1 < B2Q (to_float
             (F64.mul
                (to_double
                   (F32.add (water_vel near_far_edge)
                      (to_float (F64.mul (to_double (g_tilt_x near_far_edge))
                                         (F64.lit 2 10)))))
                (F64.lit 98 100))))%Q) by (vm_compute; reflexivity).
  split; [exact Ft|]. split; [exact Fv|]. split; [exact Fp|]. split; [exact Hd|].
  destruct (@integration_order flat_platform near_far_edge)
    as (st1 & Hrun & Ev & Ep & _ & _ & _ & _ & _ & _ & Hsem).
  assert (Lv : (- (85070591730234615865843651857942052864)
                <= B2Q (water_vel near_far_edge))%Q) by (vm_compute; discriminate).
  assert (Uv : (B2Q (water_vel near_far_edge)
                <= 85070591730234615865843651857942052864)%Q)
    by (vm_compute; discriminate).
  destruct (Hsem Ft Fv Fp Lv Uv) as (_ & _ & _ & Chi & _ & _ & _ & _ & Rp).
  exists st1. split; [exact Hrun|]. split; [exact (Chi Hd)|]. split; [exact Rp|].
  rewrite Ep, Ev. vm_compute. reflexivity.
Defined.

Lemma tick_preserves_bounds_at_far_edge :
  in_strip (water_pos near_far_edge) /\
  speed_ok (water_vel near_far_edge) /\
  tilt_ok (g_tilt_x near_far_edge) /\
  exists (st' : Globals) (ev : list Event),
    @update_led_strip flat_platform near_far_edge = Some (tt, st', ev) /\
    in_strip (water_pos st') /\ speed_ok (water_vel st').
Proof.
  assert (Hp : in_strip (water_pos near_far_edge))
    by (repeat split; vm_compute; reflexivity).
  assert (Hv : speed_ok (water_vel near_far_edge))
    by (repeat split; vm_compute; reflexivity).
  assert (Ht : tilt_ok (g_tilt_x near_far_edge))
    by (repeat split; vm_compute; reflexivity).
  exact (conj Hp (conj Hv (conj Ht
           (@tick_preserves_bounds flat_platform near_far_edge Hp Hv Ht)))).
Defined.

Lemma boundary_reflection_at_both_edges :
  (@physics_update near_far_edge = Some (tt, integrated near_far_edge, []) /\
   fge (water_pos (integrated near_far_edge)) (F32.of_int NUM_LEDS) = true /\
   exists (st' : Globals) (ev : list Event),
     @update_led_strip flat_platform near_far_edge = Some (tt, st', ev) /\
     (B2Q (water_pos st') == 15728116 # 524288)%Q /\
     (B2Q (water_vel (integrated near_far_edge)) == 1)%Q /\
     (B2Q (water_vel st') == - (14260634 # 16777216))%Q) /\
  (@physics_update near_start_edge = Some (tt, integrated near_start_edge, []) /\
   flt (water_pos (integrated near_start_edge)) (F32.of_int 0) = true /\
   exists (st' : Globals) (ev : list Event),
     @update_led_strip flat_platform near_start_edge = Some (tt, st', ev) /\
     (B2Q (water_pos st') == 0)%Q /\
     (B2Q (water_vel (integrated near_start_edge)) == -1)%Q /\
     (B2Q (water_vel st') == 14260634 # 16777216)%Q).
Proof.
  split.
  - assert (H : physics_update near_far_edge
                = Some (tt, integrated near_far_edge, [])) by reflexivity.
    assert (Hfar : fge (water_pos (integrated near_far_edge))
                       (F32.of_int NUM_LEDS) = true) by (vm_compute; reflexivity).
    split; [exact H|]. split; [exact Hfar|].
    destruct (@boundary_reflection flat_platform near_far_edge _ H)
      as (st' & ev & Hrun & Cfar & _).
    destruct (Cfar Hfar) as [Ep Ev].
    exists st', ev. split; [exact Hrun|]. rewrite Ep, Ev.
    split; [|split]; vm_compute; reflexivity.
  - assert (H : physics_update near_start_edge
                = Some (tt, integrated near_start_edge, [])) by reflexivity.
    assert (Hneg : flt (water_pos (integrated near_start_edge))
                       (F32.of_int 0) = true) by (vm_compute; reflexivity).
    split; [exact H|]. split; [exact Hneg|].
    destruct (@boundary_reflection flat_platform near_start_edge _ H)
      as (st' & ev & Hrun & _ & Cneg & _).
    destruct (Cneg Hneg) as [Ep Ev].
    exists st', ev. split; [exact Hrun|]. rewrite Ep, Ev.
    split; [|split]; vm_compute; reflexivity.
Defined.

Lemma damping_only_decay_coasting :
  is_zero (g_tilt_x coasting) = true /\
  F32.valid (water_vel coasting) = true /\
  is_finite (water_vel coasting) = true /\
  fle FLT_MIN (SFabs (water_vel coasting)) = true /\
  exists (st' : Globals) (ev : list Event),
    @update_led_strip flat_platform coasting = Some (tt, st', ev) /\
    flt (SFabs (water_vel st')) (SFabs (water_vel coasting)) = true /\
    F32.valid (water_vel st') = true /\ is_finite (water_vel st') = true /\
    g_tilt_x st' = g_tilt_x coasting.
Proof.
  assert (Hz : is_zero (g_tilt_x coasting) = true) by (vm_compute; reflexivity).
  assert (Hv : F32.valid (water_vel coasting) = true) by (vm_compute; reflexivity).
  assert (Hf : is_finite (water_vel coasting) = true) by (vm_compute; reflexivity).
  assert (Hm : fle FLT_MIN (SFabs (water_vel coasting)) = true)
    by (vm_compute; reflexivity).
  exact (conj Hz (conj Hv (conj Hf (conj Hm
           (@damping_only_decay flat_platform coasting Hz Hv Hf Hm))))).
Defined.



Lemma connected_flag_assigned_once_after_boot :
  @reachable flat_platform booted_system /\
  connected_writes_in (history booted_system) =
    (if core0_booted booted_system then 1 else 0)%nat /\
  Forall (fun entry => fst entry <> PassSetup -> connected_writes (snd entry) = O)
         (history booted_system) /\
  (forall s' : System,
      core0_booted booted_system = true -> @steps flat_platform booted_system s' ->
      g_sensor_connected (mem s') = g_sensor_connected (mem booted_system) /\
      core0_booted s' = true).
Proof.
  assert (Hr : @reachable flat_platform booted_system).
  { unfold reachable.
    apply (steps_step initial_system initial_system booted_system).
    - apply steps_refl.
    - exact (step_setup initial_system 0 sensor_found [WriteConnected true]
               eq_refl eq_refl). }
  exact (conj Hr (@connected_flag_assigned_once flat_platform booted_system Hr)).
Defined.

Lemma glow_rasteriser_at_boot :
  List.length (leds initial_globals) = Z.to_nat NUM_LEDS /\
  exists (st' : Globals) (ev : list Event),
    @update_led_strip flat_platform initial_globals = Some (tt, st', ev) /\
    (B2Q (flow_time_offset initial_globals) == 0)%Q /\
    (1 # 100 <= B2Q (flow_time_offset st'))%Q /\
    (B2Q (flow_time_offset st') <= 1 # 10)%Q /\
    List.length (leds st') = Z.to_nat NUM_LEDS /\
    in_strip (water_pos st') /\
    (B2Q (abs (F32.sub (F32.of_int 0) (water_pos st'))) == 15)%Q /\
    (B2Q (F32.mul (F32.opp (abs (F32.sub (F32.of_int 0) (water_pos st'))))
                  GLOW_DECAY) == - (15 # 2))%Q /\
    (forall i : Z, 0 <= i < NUM_LEDS ->
       nth (Z.to_nat i) (leds st') CRGB.Black = CRGB.RGB 0 0 204).
Proof.
  assert (Hl : List.length (leds initial_globals) = Z.to_nat NUM_LEDS)
    by reflexivity.
  split; [exact Hl|].
  destruct (@glow_rasteriser flat_platform initial_globals Hl)
    as (st' & ev & Hrun & Hphase & Hsem & Hlen & Hcol & Hdecay & Hpix & _).
  assert (Fo : fin binary32 (flow_time_offset initial_globals))
    by (split; vm_compute; reflexivity).
  assert (Eo : (B2Q (flow_time_offset initial_globals) == 0)%Q)
    by (vm_compute; reflexivity).
  destruct (Hsem Fo ltac:(rewrite Eo; discriminate) ltac:(rewrite Eo; discriminate))
    as (_ & _ & _ & Hadv & _).
  destruct (Hadv ltac:(rewrite Eo; discriminate)) as [La Ua].
  rewrite Eo in La, Ua.
  pose proof Hrun as Hst. rewrite update_led_strip_spec in Hst.
  injection Hst as Est _.
  assert (Hp : in_strip (water_pos st'))
    by (rewrite <- Est; repeat split; vm_compute; reflexivity).
  exists st', ev. split; [exact Hrun|]. split; [exact Eo|].
  split; [rewrite Qplus_0_l in La; exact La|].
  split; [rewrite Qplus_0_l in Ua; exact Ua|].
  split; [exact Hlen|]. split; [exact Hp|].
  split; [rewrite <- Est; vm_compute; reflexivity|].
  split; [rewrite <- Est; vm_compute; reflexivity|].
  intros i Hi. destruct (Hpix i Hi) as (Hnth & _).
  rewrite Hnth. vm_compute. reflexivity.
Defined.

(** At [2^20] the tick leaves the phase where it was. *)
Lemma phase_not_advanced_at_2_20 :
  exists (st' : Globals) (ev : list Event),
    @update_led_strip flat_platform long_running = Some (tt, st', ev) /\
    (B2Q (flow_time_offset long_running) == 1048576)%Q /\
    flow_time_offset st' = flow_time_offset long_running /\
    ~ (B2Q (flow_time_offset st')
       == B2Q (flow_time_offset long_running) + (5 # 100))%Q.
Proof.
  exists (@rendered flat_platform (reflected (integrated long_running))), [].
  split; [apply update_led_strip_spec|].
  split; [vm_compute; reflexivity|].
  split; [vm_compute; reflexivity|].
  vm_compute. discriminate.
Defined.

Lemma tick_keeps_bounds_off_scale :
  in_strip (water_pos tilt_off_scale) /\
  speed_ok (water_vel tilt_off_scale) /\
  F32.valid (g_tilt_x tilt_off_scale) = true /\
  is_nan (g_tilt_x tilt_off_scale) = false /\
  exists (st' : Globals) (ev : list Event),
    @update_led_strip flat_platform tilt_off_scale = Some (tt, st', ev) /\
    in_strip (water_pos st') /\ speed_ok (water_vel st').
Proof.
  assert (Hp : in_strip (water_pos tilt_off_scale))
    by (repeat split; vm_compute; reflexivity).
  assert (Hv : speed_ok (water_vel tilt_off_scale))
    by (repeat split; vm_compute; reflexivity).
  assert (Vt : F32.valid (g_tilt_x tilt_off_scale) = true) by reflexivity.
  assert (Nt : is_nan (g_tilt_x tilt_off_scale) = false) by reflexivity.
  exact (conj Hp (conj Hv (conj Vt (conj Nt
           (@tick_keeps_bounds_for_any_tilt flat_platform tilt_off_scale
              Hp Hv Vt Nt))))).
Defined.

Lemma nan_tilt_poisons_the_particle :
  is_nan (g_tilt_x tilt_not_a_number) = true /\
  exists (st' : Globals) (ev : list Event),
    @update_led_strip flat_platform tilt_not_a_number = Some (tt, st', ev) /\
    is_nan (water_vel st') = true /\ is_nan (water_pos st') = true.
Proof.
  assert (H : is_nan (g_tilt_x tilt_not_a_number) = true) by reflexivity.
  exact (conj H (@nan_poisons_the_particle flat_platform tilt_not_a_number
                   (or_introl H))).
Defined.

Lemma nan_velocity_survives_setup :
  @steps flat_platform poisoned_system
    {| mem := set_connected true (mem poisoned_system); core0_booted := true;
       history := [(PassSetup, [WriteConnected true])] |} /\
  is_nan (water_vel (mem poisoned_system)) = true /\
  is_nan (water_vel (set_connected true (mem poisoned_system))) = true.
Proof.
  assert (Hs : @steps flat_platform poisoned_system
                 {| mem := set_connected true (mem poisoned_system);
                    core0_booted := true;
                    history := [(PassSetup, [WriteConnected true])] |}).
  { apply (steps_step poisoned_system poisoned_system).
    - apply steps_refl.
    - exact (step_setup poisoned_system 0 _ [WriteConnected true]
               eq_refl eq_refl). }
  assert (Hn : is_nan (water_vel (mem poisoned_system)) = true) by reflexivity.
  exact (conj Hs (conj Hn
           (@nan_velocity_is_permanent flat_platform _ _ Hs Hn))).
Defined.

Lemma sensor_sample_round_trip_quarter_g :
  g_sensor_connected sensor_found = true /\
  -32768 <= 4096 <= 32767 /\
  tx_status (bus quarter_g) = 0 /\
  rx_data (bus quarter_g)
    = [fst (be16_bytes 4096); snd (be16_bytes 4096); 0; 0; 0; 0] /\
  exists x : F32.t,
    @loop flat_platform quarter_g sensor_found
      = Some (tt, set_tilt x sensor_found, [WriteTilt x]) /\
    F32.valid x = true /\ is_finite x = true /\
    (B2Q x == 4096 # 16384)%Q /\ (-2 <= B2Q x)%Q /\ (B2Q x < 2)%Q.
Proof.
  assert (Hc : g_sensor_connected sensor_found = true) by reflexivity.
  assert (Hn : -32768 <= 4096 <= 32767) by lia.
  assert (Ht : tx_status (bus quarter_g) = 0) by reflexivity.
  assert (Hr : rx_data (bus quarter_g)
               = [fst (be16_bytes 4096); snd (be16_bytes 4096); 0; 0; 0; 0])
    by reflexivity.
  exact (conj Hc (conj Hn (conj Ht (conj Hr
           (@sensor_sample_round_trip flat_platform quarter_g sensor_found
              4096 0 0 0 0 Hc Hn Ht Hr))))).
Defined.

Lemma simulated_tilt_within_gain_at_boot :
  g_sensor_connected initial_globals = false /\
  exists w : F32.t,
    @loop flat_platform quarter_g initial_globals
      = Some (tt, set_tilt w initial_globals, [WriteTilt w]) /\
    F32.valid w = true /\ is_finite w = true /\
    (- (13421773 # 16777216) <= B2Q w)%Q /\ (B2Q w <= 13421773 # 16777216)%Q.
Proof.
  assert (Hc : g_sensor_connected initial_globals = false) by reflexivity.
  split; [exact Hc|].
  apply (@simulated_tilt_within_gain flat_platform quarter_g initial_globals Hc);
    vm_compute; (reflexivity || discriminate).
Defined.

Lemma console_bar_at_boot :
  List.length (leds initial_globals) = 30%nat /\
  List.length (ascii_visual initial_globals) = 31%nat /\
  exists (st2 st' : Globals) (ev : list Event),
    @update_led_strip flat_platform initial_globals = Some (tt, st2, []) /\
    @loop1 flat_platform initial_globals = Some (tt, st', ev) /\
    st' = set_ascii (ascii_visual st') st2 /\
    nth 0 ev (SerialPrint (PStr "-")) = ShowFrame (leds st2) /\
    nth 6 ev (ShowFrame []) = SerialPrint (PFloat (water_pos st2) 2) /\
    nth 8 ev (ShowFrame []) = SerialPrint (PStr "~~~~~~~~~~~~~~~~~~~~~~~~~~~~~~") /\
    c_str (ascii_visual st') = "~~~~~~~~~~~~~~~~~~~~~~~~~~~~~~"%string /\
    map glyph (leds st2) = repeat "~"%char 30.
Proof.
  assert (Hl : List.length (leds initial_globals) = 30%nat) by reflexivity.
  assert (Hb : List.length (ascii_visual initial_globals) = 31%nat) by reflexivity.
  split; [exact Hl|]. split; [exact Hb|].
  destruct (@console_bar_shows_the_frame flat_platform initial_globals Hl Hb)
    as (st2 & st' & bar & Hup & Hrun & Hst & Hc & Hbar & Hlen).
  assert (Hg : map glyph (leds st2) = repeat "~"%char 30).
  { pose proof Hup as E. vm_compute in E. injection E as E. rewrite <- E.
    vm_compute. reflexivity. }
  assert (Hb30 : bar = "~~~~~~~~~~~~~~~~~~~~~~~~~~~~~~"%string)
    by (rewrite Hbar, Hg; reflexivity).
  exists st2, st'. eexists.
  split; [exact Hup|]. split; [exact Hrun|]. split; [exact Hst|].
  split; [reflexivity|]. split; [reflexivity|].
  split; [cbn [nth]; rewrite Hb30; reflexivity|].
  split; [rewrite Hc; exact Hb30|]. exact Hg.
Defined.


Lemma booted_system_reachable : @reachable flat_platform booted_system.
Proof.
  unfold reachable.
  apply (steps_step initial_system initial_system booted_system).
  - apply steps_refl.
  - exact (step_setup initial_system 0 sensor_found [WriteConnected true]
             eq_refl eq_refl).
Defined.

Lemma first_reading_reachable : @reachable flat_platform first_reading.
Proof.
  unfold reachable.
  apply (steps_step initial_system booted_system first_reading).
  - exact booted_system_reachable.
  - exact (step_loop booted_system quarter_g
             (set_tilt (sample_value 16 0) sensor_found)
             [WriteTilt (sample_value 16 0)] eq_refl eq_refl).
Defined.

Lemma frame_on_flat_reachable (s : System) :
  @reachable flat_platform s -> @reachable flat_platform (frame_on_flat s).
Proof.
  intros H. unfold frame_on_flat.
  destruct (@loop1 flat_platform (mem s)) as [[[[] m'] ev]|] eqn:E; [|exact H].
  exact (steps_step initial_system s _ H (step_loop1 s m' ev E)).
Defined.

Lemma boot_with_reachable (probe_status : Z) (s : System) :
  @reachable flat_platform s -> @reachable flat_platform (boot_with probe_status s).
Proof.
  intros H. unfold boot_with.
  destruct (core0_booted s) eqn:B; [exact H|].
  destruct (setup probe_status (mem s)) as [[[[] m'] ev]|] eqn:E; [|exact H].
  exact (steps_step initial_system s _ H (step_setup s probe_status m' ev B E)).
Defined.

Lemma frames_around_boot_reachable : @reachable flat_platform frames_around_boot.
Proof.
  apply frame_on_flat_reachable, boot_with_reachable, frame_on_flat_reachable.
  apply steps_refl.
Defined.


Lemma frames_never_fault_after_boot :
  @reachable flat_platform frames_around_boot /\
  (exists ev1 ev2 : list Event,
     history frames_around_boot =
     [(PassLoop1, ev1); (PassSetup, [WriteConnected true]); (PassLoop1, ev2)]) /\
  List.length (leds short_strip) = 29%nat /\
  @update_led_strip_checked flat_platform short_strip = None /\
  led_write 30 CRGB.Blue (leds (mem frames_around_boot)) = None /\
  List.length (leds (mem frames_around_boot)) = 30%nat /\
  List.length (ascii_visual (mem frames_around_boot)) = 31%nat /\
  (exists st2 : Globals,
     @update_led_strip_checked flat_platform (mem frames_around_boot)
       = Some (tt, st2, []) /\
     @update_led_strip flat_platform (mem frames_around_boot)
       = Some (tt, st2, []) /\
     List.length (leds st2) = 30%nat) /\
  (forall (i : Z) (c : CRGB.t) (strip : list CRGB.t),
     led_write i c strip = None <->
     (i < 0 \/ Z.of_nat (List.length strip) <= i)) /\
  (forall st : Globals,
     (List.length (leds st) < 30)%nat ->
     @update_led_strip_checked flat_platform st = None) /\
  exists (m' : Globals) (ev : list Event),
    @loop1 flat_platform (mem frames_around_boot) = Some (tt, m', ev).
Proof.
  split; [exact frames_around_boot_reachable|].
  split; [eexists _, _; vm_compute; reflexivity|].
  split; [reflexivity|].
  split; [vm_compute; reflexivity|].
  split; [vm_compute; reflexivity|].
  exact (@frames_never_fault flat_platform frames_around_boot
           frames_around_boot_reachable).
Defined.


Lemma particle_on_the_strip_after_first_reading :
  @reachable flat_platform first_reading /\
  Forall usable_tilt (tilts_published (history first_reading)) /\
  in_strip (water_pos (mem first_reading)) /\
  speed_ok (water_vel (mem first_reading)).
Proof.
  assert (Hlog : Forall usable_tilt (tilts_published (history first_reading))).
  { constructor; [|constructor]. split; vm_compute; reflexivity. }
  exact (conj first_reading_reachable (conj Hlog
           (@particle_never_leaves_the_strip flat_platform first_reading
              first_reading_reachable Hlog))).
Defined.

Lemma level_strip_coasting :
  is_zero (g_tilt_x coasting) = true /\
  F32.valid (water_vel coasting) = true /\
  is_finite (water_vel coasting) = true /\
  exists (st' : Globals) (ev : list Event),
    @update_led_strip flat_platform coasting = Some (tt, st', ev) /\
    F32.valid (water_vel st') = true /\ is_finite (water_vel st') = true /\
    fle (SFabs (water_vel st')) (SFabs (water_vel coasting)) = true.
Proof.
  assert (Hz : is_zero (g_tilt_x coasting) = true) by (vm_compute; reflexivity).
  assert (Hv : F32.valid (water_vel coasting) = true) by (vm_compute; reflexivity).
  assert (Hf : is_finite (water_vel coasting) = true) by (vm_compute; reflexivity).
  exact (conj Hz (conj Hv (conj Hf
           (@level_strip_never_accelerates flat_platform coasting Hz Hv Hf)))).
Defined.

Lemma rest_at_boot :
  is_zero (g_tilt_x initial_globals) = true /\
  is_zero (water_vel initial_globals) = true /\
  in_strip (water_pos initial_globals) /\
  exists (st' : Globals) (ev : list Event),
    @update_led_strip flat_platform initial_globals = Some (tt, st', ev) /\
    is_zero (water_vel st') = true /\
    in_strip (water_pos st') /\
    (B2Q (water_pos st') == B2Q (water_pos initial_globals))%Q.
Proof.
  assert (Ht : is_zero (g_tilt_x initial_globals) = true)
    by (vm_compute; reflexivity).
  assert (Hv : is_zero (water_vel initial_globals) = true)
    by (vm_compute; reflexivity).
  assert (Hp : in_strip (water_pos initial_globals))
    by (repeat split; vm_compute; reflexivity).
  exact (conj Ht (conj Hv (conj Hp
           (@rest_is_a_fixed_point flat_platform initial_globals Ht Hv Hp)))).
Defined.

Lemma shimmer_phase_stalls_long_running :
  F32.valid (flow_time_offset long_running) = true /\
  is_finite (flow_time_offset long_running) = true /\
  (1048576 <= B2Q (flow_time_offset long_running))%Q /\
  exists (st' : Globals) (ev : list Event),
    @update_led_strip flat_platform long_running = Some (tt, st', ev) /\
    flow_time_offset st' = flow_time_offset long_running.
Proof.
  assert (V : F32.valid (flow_time_offset long_running) = true)
    by (vm_compute; reflexivity).
  assert (F : is_finite (flow_time_offset long_running) = true)
    by (vm_compute; reflexivity).
  assert (L : (1048576 <= B2Q (flow_time_offset long_running))%Q)
    by (vm_compute; discriminate).
  assert (U : (B2Q (flow_time_offset long_running)
               <= 85070591730234615865843651857942052864)%Q)
    by (vm_compute; discriminate).
  exact (conj V (conj F (conj L
           (@shimmer_phase_stalls flat_platform long_running V F L U)))).
Defined.

Lemma pixel_scale_at_boot :
  0 <= @f32_to_u8
         (F32.mul
            (F32.mul
               (@exp flat_platform
                  (F32.mul (F32.opp (abs (F32.sub (F32.of_int 0)
                                                  (water_pos initial_globals))))
                           GLOW_DECAY))
               (to_float
                  (F64.add
                     (F64.mul
                        (@sin flat_platform
                           (F64.add (F64.mul (F64.of_int 0) (F64.lit 3 10))
                                    (to_double (flow_time_offset initial_globals))))
                        (F64.lit 2 10))
                     (F64.lit 8 10))))
            (F32.of_int 255)) <= 255.
Proof.
  apply (@pixel_scale_never_wraps flat_platform (water_pos initial_globals)
           (flow_time_offset initial_globals) 0);
    vm_compute; (reflexivity || discriminate).
Defined.

Lemma bounce_points_inward_at_far_edge :
  in_strip (water_pos near_far_edge) /\
  speed_ok (water_vel near_far_edge) /\
  F32.valid (g_tilt_x near_far_edge) = true /\
  is_nan (g_tilt_x near_far_edge) = false /\
  exists (st1 st' : Globals) (ev : list Event),
    @physics_update near_far_edge = Some (tt, st1, []) /\
    @update_led_strip flat_platform near_far_edge = Some (tt, st', ev) /\
    (fge (water_pos st1) (F32.of_int NUM_LEDS) = true ->
     fle (water_vel st') (F32.of_int 0) = true) /\
    (flt (water_pos st1) (F32.of_int 0) = true ->
     fle (F32.of_int 0) (water_vel st') = true).
Proof.
  assert (Hp : in_strip (water_pos near_far_edge))
    by (repeat split; vm_compute; reflexivity).
  assert (Hv : speed_ok (water_vel near_far_edge))
    by (repeat split; vm_compute; reflexivity).
  assert (Vt : F32.valid (g_tilt_x near_far_edge) = true)
    by (vm_compute; reflexivity).
  assert (Nt : is_nan (g_tilt_x near_far_edge) = false)
    by (vm_compute; reflexivity).
  exact (conj Hp (conj Hv (conj Vt (conj Nt
           (@bounce_points_inward flat_platform near_far_edge Hp Hv Vt Nt))))).
Defined.
End Samples.
